(** * boxtree: expansion wranglers for the fast multipole method

    A shallow embedding of [boxtree/pyfmmlib_integration.py]
    ([FMMLibExpansionWrangler]) and of the constant-one reference wrangler
    of [test/test_fmm.py] ([ConstantOneExpansionWrangler]), followed by the
    properties of the expansion storage, of the passes and of the
    driver that are established for them.

    Conventions of the embedding.
    - Box numbers, particle numbers, counts and starts stored in the tree and
      in the traversal are natural numbers (the arrays hold non-negative
      integers).  Differences of such numbers, expansion orders and offsets
      into the flat expansion buffers are integers ([Z]).  The orders of
      [FMMLibExpansionWrangler] are held as [np.int32], and so is everything
      computed from them: such a result wraps around to 32 bits ([wrap32]).
    - The arrays of the reference wrangler hold [float64] numbers; they are
      modelled by the integers they hold.  Sums of integers are exact in
      [float64] as long as the absolute values of the summands add up to at
      most [2^53], and statements about other weights than unit weights
      carry this bound.
    - A Python exception is a [Raise e]; a function that may raise returns a
      [result].  Code that mutates an array it was handed runs in the monad
      [M], whose state survives an exception.
    - The numerical kernels of pyfmmlib are opaque: they are parameters of
      the development and every invocation is recorded in a call log. *)

From Stdlib Require Import ZArith List Lia Reals Lra String.
From stdpp Require Import base list.

Open Scope Z_scope.

(** ** Python exceptions *)

Inductive exn : Set :=
| TypeError | ValueError | IndexError | RuntimeError
| NotImplementedError | AssertionError | AttributeError
| OverflowError | ImportError.

Inductive result (A : Type) : Type :=
| Ok (a : A)
| Raise (e : exn).
Arguments Ok {A} a.
Arguments Raise {A} e.

Definition rbind {A B} (m : result A) (k : A -> result B) : result B :=
  match m with
  | Ok a => k a
  | Raise e => Raise e
  end.

Notation "x <~ m ;; k" := (rbind m (fun x => k))
  (at level 100, m at next level, right associativity).
Notation "'bind2' ( a , b ) <~ m ;; k" := (rbind m (fun '(a, b) => k))
  (at level 100, a name, b name, m at next level, right associativity).

Fixpoint rmapM {A B} (f : A -> result B) (l : list A) : result (list B) :=
  match l with
  | [] => Ok []
  | x :: l' => y <~ f x ;; ys <~ rmapM f l' ;; Ok (y :: ys)
  end.

(** ** Python and numpy sequence operations *)

(** [a[i]] for a non-negative [i]. *)
Definition py_index {A} (a : list A) (i : nat) : result A :=
  match a !! i with
  | Some x => Ok x
  | None => Raise IndexError
  end.

(** [a[-1]]. *)
Definition py_last {A} (a : list A) : result A :=
  match last a with
  | Some x => Ok x
  | None => Raise IndexError
  end.

(** [a[start:stop]] for non-negative bounds: clipped, never raises. *)
Definition py_slice {A} (a : list A) (start stop : nat) : list A :=
  take (stop - start) (drop start a).

(** Bound of a slice against a sequence of length [len], as Python
    normalises it: a negative bound counts from the end. *)
Definition slice_bound (len : nat) (i : Z) : nat :=
  if i <? 0 then Z.to_nat (Z.max 0 (i + Z.of_nat len))
  else Z.to_nat (Z.min i (Z.of_nat len)).

(** [a[start:stop]] for integer bounds. *)
Definition py_slice_z {A} (a : list A) (start stop : Z) : list A :=
  py_slice a (slice_bound (length a) start) (slice_bound (length a) stop).

(** [x, y = l]. *)
Definition unpack2 {A} (l : list A) : result (A * A) :=
  match l with
  | [x; y] => Ok (x, y)
  | _ => Raise ValueError
  end.

(** An integer index along an axis of length [n]: negative indices wrap
    once, anything else out of range is an [IndexError]. *)
Definition np_index (n : nat) (i : Z) : result nat :=
  if (0 <=? i) && (i <? Z.of_nat n) then Ok (Z.to_nat i)
  else if (- Z.of_nat n <=? i) && (i <? 0) then Ok (Z.to_nat (i + Z.of_nat n))
  else Raise IndexError.

(** [a[ids]]: indexing by an array of indices. *)
Definition np_take {A} (a : list A) (ids : list nat) : result (list A) :=
  rmapM (py_index a) ids.

(** The number of entries of an array of shape [l]. *)
Definition product (l : list Z) : Z := fold_left Z.mul l 1.

(** ** [np.int32]

    The values of [np.int32], and the value that the result of an
    operation on [np.int32] numbers wraps around to. *)
Definition in_int32 (z : Z) : bool :=
  (-2147483648 <=? z) && (z <=? 2147483647).

Definition wrap32 (z : Z) : Z :=
  (z + 2147483648) mod 4294967296 - 2147483648.

(** [pytools.product], that is [reduce(mul, l, 1)], on [np.int32]
    numbers. *)
Definition product32 (l : list Z) : Z :=
  fold_left (fun a d => wrap32 (a * d)) l 1.

(** Two one-dimensional operands of an elementwise operation, as numpy
    broadcasts them: operands of one length pair up, an operand of length
    one is repeated, other lengths are a [ValueError]. *)
Definition np_broadcast {A B} (a : list A) (b : list B)
  : result (list (A * B)) :=
  if (length a =? length b)%nat then Ok (combine a b)
  else
    match a, b with
    | [x], _ => Ok (map (fun y => (x, y)) b)
    | _, [y] => Ok (map (fun x => (x, y)) a)
    | _, _ => Raise ValueError
    end.

(** The shape that [reshape] to [dims] gives an array of [size] entries: a
    single [-1] among the dimensions stands for the dimension that makes
    the sizes agree; other negative dimensions, a second [-1] and sizes
    that do not agree are a [ValueError]. *)
Definition np_reshape (size : Z) (dims : list Z) : result (list Z) :=
  if existsb (fun d => d <? -1) dims then Raise ValueError
  else
    match List.filter (fun d => d =? -1) dims with
    | [] => if product dims =? size then Ok dims else Raise ValueError
    | [_] =>
      let known := product (List.filter (fun d => negb (d =? -1)) dims) in
      if (0 <? known) && (size mod known =? 0) then
        Ok (map (fun d => if d =? -1 then size / known else d) dims)
      else Raise ValueError
    | _ => Raise ValueError
    end.

(** [m[:, j]] of a two-dimensional array given by its rows. *)
Definition column {A} (m : list (list A)) (j : nat) : result (list A) :=
  rmapM (fun row => py_index row j) m.

(** ** Mutation and exceptions *)

(** A computation over a mutable state [S] that may raise; the state
    reached survives the exception. *)
Definition M (S A : Type) : Type := S -> result A * S.

Definition mret {S A} (a : A) : M S A := fun s => (Ok a, s).

Definition mbind {S A B} (m : M S A) (k : A -> M S B) : M S B :=
  fun s =>
    match m s with
    | (Ok a, s') => k a s'
    | (Raise e, s') => (Raise e, s')
    end.

Definition lift {S A} (r : result A) : M S A := fun s => (r, s).

Notation "x <== m ;; k" := (mbind m (fun x => k))
  (at level 100, m at next level, right associativity).
Notation "'mbind2' ( a , b ) <== m ;; k" := (mbind m (fun '(a, b) => k))
  (at level 100, a name, b name, m at next level, right associativity).

(** [for x in l: body(x)]. *)
Fixpoint for_each {S X} (l : list X) (body : X -> M S unit) : M S unit :=
  match l with
  | [] => mret tt
  | x :: l' => _ <== body x ;; for_each l' body
  end.

(** A loop that threads local variables [a] through its rounds. *)
Fixpoint for_fold {S X A} (l : list X) (a : A) (body : A -> X -> M S A)
  : M S A :=
  match l with
  | [] => mret a
  | x :: l' => a' <== body a x ;; for_fold l' a' body
  end.

(** [enumerate(l)]. *)
Definition enumerate {X} (l : list X) : list (nat * X) :=
  combine (seq 0 (length l)) l.

(** [range(start, stop, -1)] for [start >= stop]... down to [stop + 1]. *)
Definition range_down (start stop : nat) : list nat :=
  rev (seq (stop + 1) (start - stop)).

(** ** The tree (external collaborator) *)

Record Tree : Type := {
  dimensions : nat;
  nlevels : nat;
  nboxes : nat;
  nsources : nat;
  ntargets : nat;
  level_start_box_nrs : list nat;
  box_source_starts : list nat;
  box_source_counts_nonchild : list nat;
  box_target_starts : list nat;
  box_target_counts_nonchild : list nat;
  box_parent_ids : list nat;
  box_child_ids : list (list nat);
  user_source_ids : list nat;
  sorted_target_ids : list nat
}.

(** A particle range [slice(start, stop)]. *)
Definition pslice : Type := (nat * nat)%type.

Definition slice_len (p : pslice) : nat := (snd p - fst p)%nat.

(** ** [FMMLibExpansionWrangler] *)

Inductive eqn : Set := letter_l | letter_h.

Inductive np_dtype : Set := float64 | complex128.

Definition eqn_eqb (a b : eqn) : bool :=
  match a, b with
  | letter_l, letter_l | letter_h, letter_h => true
  | _, _ => false
  end.

Section Wrangler.

(** Scalars held in expansions and potentials. *)
Context {C : Type}.
Variable c0 : C.
Variable cadd : C -> C -> C.
(** [- w * (d0 + 1j * d1)], the strength of a two-dimensional Laplace dipole. *)
Variable dipstr2 : C -> C -> C -> C.

Record FMMLibExpansionWrangler : Type := {
  tree : Tree;
  eqn_letter : eqn;
  kernel_kwargs : option Z;
  level_nterms : list Z;
  dtype : np_dtype;
  ifgrad : bool;
  dim : nat;
  dipole_vec : option (list (list C));
  dp_suffix : string
}.

(** [reorder_sources] on a one-dimensional array. *)
Definition reorder_sources {A} (t : Tree) (source_array : list A)
  : result (list A) :=
  np_take source_array (user_source_ids t).

(** [reorder_sources] on a two-dimensional array: [source_array[..., ids]]. *)
Definition reorder_sources_rows {A} (t : Tree) (source_array : list (list A))
  : result (list (list A)) :=
  rmapM (fun row => np_take row (user_source_ids t)) source_array.

Definition reorder_potentials {A} (t : Tree) (potentials : list A)
  : result (list A) :=
  np_take potentials (sorted_target_ids t).

(** [dipole_vec.shape == (dim, nsources)]. *)
Definition shape_is {A} (m : list (list A)) (rows cols : nat) : bool :=
  (length m =? rows)%nat && forallb (fun r => (length r =? cols)%nat) m.

(** The constructor.  [helmholtz_k] is only compared with zero.  The orders
    that the policy returns are stored with [dtype=np.int32]: an order
    outside [np.int32] is an [OverflowError]. *)
Definition init (t : Tree) (helmholtz_k : Z)
    (fmm_level_to_nterms : option (Tree -> nat -> Z)) (ifgrad0 : bool)
    (dipole_vec0 : option (list (list C)))
    (dipoles_already_reordered : bool) (nterms : option Z)
  : result FMMLibExpansionWrangler :=
  match nterms, fmm_level_to_nterms with
  | Some _, Some _ => Raise TypeError
  | _, _ =>
    let level_to_nterms :=
      match nterms with
      | Some n => Some (fun (_ : Tree) (_ : nat) => n)
      | None => fmm_level_to_nterms
      end in
    let '(letter, kwargs) :=
      if helmholtz_k =? 0 then (letter_l, None)
      else (letter_h, Some helmholtz_k) in
    orders <~ rmapM (fun lev =>
                match level_to_nterms with
                | Some f => Ok (f t lev)
                | None => Raise TypeError
                end) (seq 0 (nlevels t)) ;;
    if negb (forallb in_int32 orders) then Raise OverflowError
    else
    match dipole_vec0 with
    | Some dv =>
      if shape_is dv (dimensions t) (nsources t) then
        dv' <~ (if dipoles_already_reordered then Ok dv
                else reorder_sources_rows t dv) ;;
        Ok {| tree := t; eqn_letter := letter; kernel_kwargs := kwargs;
              level_nterms := orders; dtype := complex128;
              ifgrad := ifgrad0; dim := dimensions t;
              dipole_vec := Some dv'; dp_suffix := "_dp" |}
      else Raise AssertionError
    | None =>
      Ok {| tree := t; eqn_letter := letter; kernel_kwargs := kwargs;
            level_nterms := orders; dtype := complex128;
            ifgrad := ifgrad0; dim := dimensions t;
            dipole_vec := None; dp_suffix := "" |}
    end
  end.

(** *** Expansion storage *)

(** [expansion_shape] of an order taken from [level_nterms]: the sums and
    products are [np.int32]. *)
Definition expansion_shape (w : FMMLibExpansionWrangler) (nterms : Z)
  : result (list Z) :=
  if (dim w =? 2)%nat && eqn_eqb (eqn_letter w) letter_l then
    Ok [wrap32 (nterms + 1)]
  else if (dim w =? 2)%nat && eqn_eqb (eqn_letter w) letter_h then
    Ok [wrap32 (wrap32 (2 * nterms) + 1)]
  else if (dim w =? 3)%nat then
    Ok [wrap32 (wrap32 (2 * nterms) + 1); wrap32 (nterms + 1)]
  else Raise ValueError.

(** One round of the loop of [_expansions_level_starts]; the product with
    the [np.int32] size and the running sum are [np.int32]. *)
Definition level_starts_step (w : FMMLibExpansionWrangler)
    (order_to_size : Z -> result Z) (acc : list Z) (lev : nat)
  : result (list Z) :=
  hi <~ py_index (level_start_box_nrs (tree w)) (lev + 1) ;;
  lo <~ py_index (level_start_box_nrs (tree w)) lev ;;
  let lev_nboxes := Z.of_nat hi - Z.of_nat lo in
  order <~ py_index (level_nterms w) lev ;;
  expn_size <~ order_to_size order ;;
  prev <~ py_last acc ;;
  Ok (acc ++ [wrap32 (prev + wrap32 (expn_size * lev_nboxes))]).

Fixpoint level_starts_loop (w : FMMLibExpansionWrangler)
    (order_to_size : Z -> result Z) (levs : list nat) (acc : list Z)
  : result (list Z) :=
  match levs with
  | [] => Ok acc
  | lev :: levs' =>
    acc' <~ level_starts_step w order_to_size acc lev ;;
    level_starts_loop w order_to_size levs' acc'
  end.

Definition _expansions_level_starts (w : FMMLibExpansionWrangler)
    (order_to_size : Z -> result Z) : result (list Z) :=
  level_starts_loop w order_to_size (seq 0 (nlevels (tree w))) [0].

Definition order_to_size (w : FMMLibExpansionWrangler) (nterms : Z)
  : result Z :=
  shape <~ expansion_shape w nterms ;; Ok (product32 shape).

Definition multipole_expansions_level_starts (w : FMMLibExpansionWrangler)
  : result (list Z) :=
  _expansions_level_starts w (order_to_size w).

Definition local_expansions_level_starts (w : FMMLibExpansionWrangler)
  : result (list Z) :=
  _expansions_level_starts w (order_to_size w).

(** A numpy array of scalars with its element type. *)
Record ndarray : Type := {
  arr_dtype : np_dtype;
  arr_data : list C
}.

(** [np.zeros(n, dtype)]. *)
Definition np_zeros (n : Z) (d : np_dtype) : result ndarray :=
  if n <? 0 then Raise ValueError
  else Ok {| arr_dtype := d; arr_data := repeat c0 (Z.to_nat n) |}.

Definition multipole_expansion_zeros (w : FMMLibExpansionWrangler)
  : result ndarray :=
  starts <~ multipole_expansions_level_starts w ;;
  n <~ py_last starts ;;
  np_zeros n (dtype w).

Definition local_expansion_zeros (w : FMMLibExpansionWrangler)
  : result ndarray :=
  starts <~ local_expansions_level_starts w ;;
  n <~ py_last starts ;;
  np_zeros n (dtype w).

(** A view of one level of a flat expansion buffer: [v_nb] boxes of
    [v_stride] coefficients each, the first at flat offset [v_off]. *)
Record view : Type := {
  v_off : nat;
  v_nb : nat;
  v_stride : nat
}.

(** [flat[expn_start:expn_stop].reshape(nb, *shape)] over a buffer of
    [len] entries: the first dimension of the reshaped slice counts the
    boxes, the others make up the coefficients of a box. *)
Definition reshape_view (len : nat) (expn_start expn_stop : Z)
    (nb : Z) (shape : list Z) : result view :=
  let lo := slice_bound len expn_start in
  let hi := slice_bound len expn_stop in
  dims <~ np_reshape (Z.of_nat (hi - lo)) (nb :: shape) ;;
  Ok {| v_off := lo; v_nb := Z.to_nat (hd 0 dims);
        v_stride := Z.to_nat (product (tl dims)) |}.

Definition expansions_view (w : FMMLibExpansionWrangler)
    (starts : result (list Z)) (len : nat) (level : nat)
  : result (nat * view) :=
  bind2 (box_start, box_stop) <~
     unpack2 (py_slice (level_start_box_nrs (tree w)) level (level + 2)) ;;
  ls <~ starts ;;
  bind2 (expn_start, expn_stop) <~ unpack2 (py_slice ls level (level + 2)) ;;
  order <~ py_index (level_nterms w) level ;;
  shape <~ expansion_shape w order ;;
  v <~ reshape_view len expn_start expn_stop
         (Z.of_nat box_stop - Z.of_nat box_start) shape ;;
  Ok (box_start, v).

(** [multipole_expansions_view(mpole_exps, level)]; the buffer enters
    through its length, the view addresses it in place. *)
Definition multipole_expansions_view (w : FMMLibExpansionWrangler)
    (mpole_exps : list C) (level : nat) : result (nat * view) :=
  expansions_view w (multipole_expansions_level_starts w)
    (length mpole_exps) level.

Definition local_expansions_view (w : FMMLibExpansionWrangler)
    (local_exps : list C) (level : nat) : result (nat * view) :=
  expansions_view w (local_expansions_level_starts w)
    (length local_exps) level.

(** *** The kernel call log *)

(** Source strengths handed to a kernel. *)
Inductive source_kwargs : Type :=
| kw_charge (charge : list C)
| kw_dipstr (dipstr : list C)
| kw_dipstr_dipvec (dipstr : list C) (dipvec : list (list C)).

(** The arguments of one kernel invocation: levels stand for the length
    scales, box numbers for the box centres, particle ranges for the
    particle coordinates. *)
Inductive kcall : Type :=
| call_formmp (lev : nat) (source : pslice) (center : nat) (nterms : Z)
    (kw : source_kwargs)
| call_formta (lev : nat) (source : pslice) (center : nat) (nterms : Z)
    (kw : source_kwargs)
| call_mpmp (source_level : nat) (center1 : nat) (expn1 : list C)
    (target_level : nat) (center2 : nat) (nterms2 : Z)
| call_locloc (source_lev : nat) (center1 : nat) (expn1 : list C)
    (target_lev : nat) (center2 : nat) (nterms2 : Z)
| call_direct (sources : pslice) (targets : pslice) (kw : source_kwargs)
| call_mpeval (lev : nat) (center : nat) (expn : list C) (ztarg : pslice)
| call_taeval (lev : nat) (center : nat) (expn : list C) (ztarg : pslice).

Record kernel_out : Type := {
  k_ier : Z;
  k_val : list C;
  k_grad : list (list C)
}.

Definition routine : Type := kcall -> kernel_out.

(** [getattr(pyfmmlib, ...)]: the routine of that name, if the library
    has one. *)
Variable get_routine :
  FMMLibExpansionWrangler -> string -> string -> result routine.

Definition log : Type := list kcall.

(** Invoke a routine and record the invocation. *)
Definition invoke {X} (rout : routine) (k : kcall) : M (X * log) kernel_out :=
  fun '(x, lg) => (Ok (rout k), (x, lg ++ [k])).

Definition get_vec_routine (w : FMMLibExpansionWrangler) (name : string)
  : result routine :=
  get_routine w name "_vec".

(** [get_translation_routine]: in three dimensions the wrapper checks the
    status, in two the routine returns the expansion alone. *)
Definition get_translation_routine {X} (w : FMMLibExpansionWrangler)
    (name vec_suffix : string) : result (kcall -> M (X * log) (list C)) :=
  let suffix := if (dim w =? 3)%nat then "quadu"%string else ""%string in
  rout <~ get_routine w name (suffix ++ vec_suffix)%string ;;
  if (dim w =? 2)%nat then
    Ok (fun k => o <== invoke rout k ;; mret (k_val o))
  else
    Ok (fun k => o <== invoke rout k ;;
                 if k_ier o =? 0 then mret (k_val o)
                 else lift (Raise RuntimeError)).

(** The value [0] a Python accumulator starts from, or an array. *)
Inductive pyacc (A : Type) : Type :=
| acc_zero
| acc_arr (a : A).
Arguments acc_zero {A}.
Arguments acc_arr {A} a.

Definition potgrad : Type := (pyacc (list C) * pyacc (list (list C)))%type.

Variable cneg : C -> C.

Definition get_direct_eval_routine {X} (w : FMMLibExpansionWrangler)
  : result (kcall -> M (X * log) potgrad) :=
  if (dim w =? 2)%nat then
    rout <~ get_vec_routine w ("potgrad%ddall" ++ dp_suffix w)%string ;;
    Ok (fun k => o <== invoke rout k ;;
                 mret (acc_arr (k_val o),
                       if ifgrad w then acc_arr (k_grad o) else acc_zero))
  else if (dim w =? 3)%nat then
    rout <~ get_vec_routine w ("potfld%ddall" ++ dp_suffix w)%string ;;
    Ok (fun k => o <== invoke rout k ;;
                 mret (acc_arr (k_val o),
                       if ifgrad w then acc_arr (map (map cneg) (k_grad o))
                       else acc_zero))
  else Raise ValueError.

Definition get_expn_eval_routine {X} (w : FMMLibExpansionWrangler)
    (expn_kind : string) : result (kcall -> M (X * log) potgrad) :=
  rout <~ get_routine w ("%dd" ++ expn_kind ++ "eval")%string "_vec" ;;
  if (dim w =? 2)%nat then
    Ok (fun k => o <== invoke rout k ;;
                 mret (acc_arr (k_val o),
                       if ifgrad w then acc_arr (k_grad o) else acc_zero))
  else if (dim w =? 3)%nat then
    Ok (fun k => o <== invoke rout k ;;
                 if k_ier o =? 0 then
                   mret (acc_arr (k_val o),
                         if ifgrad w then acc_arr (map (map cneg) (k_grad o))
                         else acc_zero)
                 else lift (Raise RuntimeError))
  else Raise ValueError.

(** *** Views into a flat buffer *)

(** [buf[off : off + len(blk)] = blk]. *)
Definition write_block (buf : list C) (off : nat) (blk : list C) : list C :=
  take off buf ++ blk ++ drop (off + length blk) buf.

(** Flat offset of entry [i] of a view. *)
Definition view_offset (v : view) (i : Z) : result nat :=
  j <~ np_index (v_nb v) i ;; Ok (v_off v + j * v_stride v)%nat.

(** [view[i]]. *)
Definition view_read (v : view) (i : Z) (buf : list C) : result (list C) :=
  off <~ view_offset v i ;; Ok (py_slice buf off (off + v_stride v)).

(** Elementwise sum of two arrays of one shape. *)
Definition vec_add (a b : list C) : result (list C) :=
  if (length a =? length b)%nat then Ok (zip_with cadd a b)
  else Raise ValueError.

(** [view[i] = blk]. *)
Definition view_assign {L} (v : view) (i : Z) (blk : list C)
  : M (list C * L) unit :=
  fun '(buf, lg) =>
    match view_offset v i with
    | Ok off =>
      if (length blk =? v_stride v)%nat then
        (Ok tt, (write_block buf off blk, lg))
      else (Raise ValueError, (buf, lg))
    | Raise e => (Raise e, (buf, lg))
    end.

(** [view[i] += blk]. *)
Definition view_iadd {L} (v : view) (i : Z) (blk : list C)
  : M (list C * L) unit :=
  fun '(buf, lg) =>
    match (old <~ view_read v i buf ;; vec_add old blk) with
    | Ok new =>
      match view_offset v i with
      | Ok off => (Ok tt, (write_block buf off new, lg))
      | Raise e => (Raise e, (buf, lg))
      end
    | Raise e => (Raise e, (buf, lg))
    end.

(** The buffer a pass is writing. *)
Definition get_buf {X L} : M (X * L) X := fun s => (Ok (fst s), s).

(** *** Particle ranges and source strengths *)

Definition _get_source_slice (w : FMMLibExpansionWrangler) (ibox : nat)
  : result pslice :=
  pstart <~ py_index (box_source_starts (tree w)) ibox ;;
  count <~ py_index (box_source_counts_nonchild (tree w)) ibox ;;
  Ok (pstart, (pstart + count)%nat).

Definition _get_target_slice (w : FMMLibExpansionWrangler) (ibox : nat)
  : result pslice :=
  pstart <~ py_index (box_target_starts (tree w)) ibox ;;
  count <~ py_index (box_target_counts_nonchild (tree w)) ibox ;;
  Ok (pstart, (pstart + count)%nat).

(** [tree.box_centers[:, ibox]]: the centre is named by its box. *)
Definition box_center (w : FMMLibExpansionWrangler) (ibox : nat)
  : result nat :=
  if (ibox <? nboxes (tree w))%nat then Ok ibox else Raise IndexError.

(** [get_source_kwargs]; the strengths of two-dimensional Laplace dipoles
    are [-src_weights[pslice] * (dipole_vec[0, pslice]
    + 1j * dipole_vec[1, pslice])]. *)
Definition get_source_kwargs (w : FMMLibExpansionWrangler)
    (src_weights : list C) (p : pslice) : result source_kwargs :=
  match dipole_vec w with
  | None => Ok (kw_charge (py_slice src_weights (fst p) (snd p)))
  | Some dv =>
    if eqn_eqb (eqn_letter w) letter_l && (dim w =? 2)%nat then
      d0 <~ py_index dv 0 ;;
      d1 <~ py_index dv 1 ;;
      let ws := py_slice src_weights (fst p) (snd p) in
      let a := py_slice d0 (fst p) (snd p) in
      let b := py_slice d1 (fst p) (snd p) in
      ab <~ np_broadcast a b ;;
      wab <~ np_broadcast ws ab ;;
      Ok (kw_dipstr (map (fun x => dipstr2 (fst x) (fst (snd x)) (snd (snd x)))
                       wab))
    else
      Ok (kw_dipstr_dipvec (py_slice src_weights (fst p) (snd p))
            (map (fun row => py_slice row (fst p) (snd p)) dv))
  end.

(** Run [m] on a buffer local to the pass and return the buffer. *)
Definition with_local {X L} (x0 : X) (m : M (X * L) unit) : M L X :=
  fun lg =>
    match m (x0, lg) with
    | (Ok _, (x, lg')) => (Ok x, lg')
    | (Raise e, (_, lg')) => (Raise e, lg')
    end.

(** *** [form_multipoles] *)

(** One round of the inner loop: the box [src_ibox] on level [lev]. *)
Definition form_multipoles_box (w : FMMLibExpansionWrangler)
    (formmp : routine) (src_weights : list C) (lev : nat)
    (level_start_ibox : nat) (mpoles_view : view) (src_ibox : nat)
  : M (list C * log) unit :=
  p <== lift (_get_source_slice w src_ibox) ;;
  if (slice_len p =? 0)%nat then mret tt
  else
    kw <== lift (get_source_kwargs w src_weights p) ;;
    center <== lift (box_center w src_ibox) ;;
    nterms <== lift (py_index (level_nterms w) lev) ;;
    o <== invoke formmp (call_formmp lev p center nterms kw) ;;
    if negb (k_ier o =? 0) then lift (Raise RuntimeError)
    else
      view_assign mpoles_view
        (Z.of_nat src_ibox - Z.of_nat level_start_ibox) (k_val o).

Definition form_multipoles_level (w : FMMLibExpansionWrangler)
    (formmp : routine) (level_start_source_box_nrs source_boxes : list nat)
    (src_weights : list C) (lev : nat) : M (list C * log) unit :=
  bnd <== lift (unpack2 (py_slice level_start_source_box_nrs lev (lev + 2))) ;;
  let '(start, stop) := bnd in
  if (start =? stop)%nat then mret tt
  else
    mpoles <== get_buf ;;
    lv <== lift (multipole_expansions_view w mpoles lev) ;;
    let '(level_start_ibox, mpoles_view) := lv in
    for_each (py_slice source_boxes start stop)
      (form_multipoles_box w formmp src_weights lev level_start_ibox
         mpoles_view).

Definition form_multipoles (w : FMMLibExpansionWrangler)
    (level_start_source_box_nrs source_boxes : list nat)
    (src_weights : list C) : M log (list C) :=
  formmp <== lift (get_routine w ("%ddformmp" ++ dp_suffix w)%string "") ;;
  mpoles <== lift (multipole_expansion_zeros w) ;;
  with_local (arr_data mpoles)
    (for_each (seq 0 (nlevels (tree w)))
       (form_multipoles_level w formmp level_start_source_box_nrs
          source_boxes src_weights)).

(** *** [coarsen_multipoles] *)

(** One round of the innermost loop: the child [child] of [ibox]. *)
Definition coarsen_multipoles_child (w : FMMLibExpansionWrangler)
    (mpmp : kcall -> M (list C * log) (list C))
    (source_level target_level : nat)
    (source_level_start_ibox : nat) (source_mpoles_view : view)
    (target_level_start_ibox : nat) (target_mpoles_view : view)
    (ibox parent_center child : nat) : M (list C * log) unit :=
  if (child =? 0)%nat then mret tt
  else
    child_center <== lift (box_center w child) ;;
    mpoles <== get_buf ;;
    expn1 <== lift (view_read source_mpoles_view
                      (Z.of_nat child - Z.of_nat source_level_start_ibox)
                      mpoles) ;;
    nterms2 <== lift (py_index (level_nterms w) target_level) ;;
    new_mp <== mpmp (call_mpmp source_level child_center expn1
                       target_level parent_center nterms2) ;;
    view_iadd target_mpoles_view
      (Z.of_nat ibox - Z.of_nat target_level_start_ibox) new_mp.

Definition coarsen_multipoles_box (w : FMMLibExpansionWrangler)
    (mpmp : kcall -> M (list C * log) (list C))
    (source_level target_level : nat)
    (source_level_start_ibox : nat) (source_mpoles_view : view)
    (target_level_start_ibox : nat) (target_mpoles_view : view)
    (ibox : nat) : M (list C * log) unit :=
  parent_center <== lift (box_center w ibox) ;;
  children <== lift (column (box_child_ids (tree w)) ibox) ;;
  for_each children
    (coarsen_multipoles_child w mpmp source_level target_level
       source_level_start_ibox source_mpoles_view
       target_level_start_ibox target_mpoles_view ibox parent_center).

Definition coarsen_multipoles_level (w : FMMLibExpansionWrangler)
    (mpmp : kcall -> M (list C * log) (list C))
    (level_start_source_parent_box_nrs source_parent_boxes : list nat)
    (source_level : nat) : M (list C * log) unit :=
  let target_level := (source_level - 1)%nat in
  bnd <== lift (unpack2 (py_slice level_start_source_parent_box_nrs
                           target_level (target_level + 2))) ;;
  let '(start, stop) := bnd in
  mpoles <== get_buf ;;
  sv <== lift (multipole_expansions_view w mpoles source_level) ;;
  tv <== lift (multipole_expansions_view w mpoles target_level) ;;
  for_each (py_slice source_parent_boxes start stop)
    (coarsen_multipoles_box w mpmp source_level target_level
       (fst sv) (snd sv) (fst tv) (snd tv)).

(** The source levels visited: [range(tree.nlevels-1, 2, -1)]. *)
Definition coarsen_source_levels (w : FMMLibExpansionWrangler) : list nat :=
  range_down (nlevels (tree w) - 1) 2.

(** [coarsen_multipoles] updates [mpoles], the buffer of the state, in
    place. *)
Definition coarsen_multipoles (w : FMMLibExpansionWrangler)
    (level_start_source_parent_box_nrs source_parent_boxes : list nat)
  : M (list C * log) unit :=
  mpmp <== lift (get_translation_routine w "%ddmpmp" "_vec") ;;
  for_each (coarsen_source_levels w)
    (coarsen_multipoles_level w mpmp level_start_source_parent_box_nrs
       source_parent_boxes).

(** *** [refine_locals] *)

Definition refine_locals_box (w : FMMLibExpansionWrangler)
    (locloc : kcall -> M (list C * log) (list C))
    (source_lev target_lev : nat)
    (source_level_start_ibox : nat) (source_local_exps_view : view)
    (target_level_start_ibox : nat) (target_local_exps_view : view)
    (tgt_ibox : nat) : M (list C * log) unit :=
  tgt_center <== lift (box_center w tgt_ibox) ;;
  src_ibox <== lift (py_index (box_parent_ids (tree w)) tgt_ibox) ;;
  src_center <== lift (box_center w src_ibox) ;;
  local_exps <== get_buf ;;
  expn1 <== lift (view_read source_local_exps_view
                    (Z.of_nat src_ibox - Z.of_nat source_level_start_ibox)
                    local_exps) ;;
  nterms2 <== lift (py_index (level_nterms w) target_lev) ;;
  tmp_loc_exp <== locloc (call_locloc source_lev src_center expn1
                            target_lev tgt_center nterms2) ;;
  view_iadd target_local_exps_view
    (Z.of_nat tgt_ibox - Z.of_nat target_level_start_ibox) tmp_loc_exp.

Definition refine_locals_level (w : FMMLibExpansionWrangler)
    (locloc : kcall -> M (list C * log) (list C))
    (level_start_target_or_target_parent_box_nrs
     target_or_target_parent_boxes : list nat)
    (target_lev : nat) : M (list C * log) unit :=
  bnd <== lift (unpack2 (py_slice level_start_target_or_target_parent_box_nrs
                           target_lev (target_lev + 2))) ;;
  let '(start, stop) := bnd in
  let source_lev := (target_lev - 1)%nat in
  local_exps <== get_buf ;;
  sv <== lift (local_expansions_view w local_exps source_lev) ;;
  tv <== lift (local_expansions_view w local_exps target_lev) ;;
  for_each (py_slice target_or_target_parent_boxes start stop)
    (refine_locals_box w locloc source_lev target_lev
       (fst sv) (snd sv) (fst tv) (snd tv)).

(** The target levels visited: [range(1, self.tree.nlevels)]. *)
Definition refine_target_levels (w : FMMLibExpansionWrangler) : list nat :=
  seq 1 (nlevels (tree w) - 1).

Definition refine_locals (w : FMMLibExpansionWrangler)
    (level_start_target_or_target_parent_box_nrs
     target_or_target_parent_boxes : list nat)
  : M (list C * log) unit :=
  locloc <== lift (get_translation_routine w "%ddlocloc" "_vec") ;;
  for_each (refine_target_levels w)
    (refine_locals_level w locloc
       level_start_target_or_target_parent_box_nrs
       target_or_target_parent_boxes).

(** *** Output arrays and accumulators *)

(** The output array of an evaluation pass: one entry per target. *)
Definition output : Type := list C.

(** [output_zeros].  With [ifgrad] set the array is to be built by
    [make_obj_array], which is imported from [pytools]; [pytools] has no
    such name, and the import raises. *)
Definition output_zeros (w : FMMLibExpansionWrangler) : result output :=
  if ifgrad w then Raise ImportError
  else Ok (repeat c0 (ntargets (tree w))).

Definition mat_add (a b : list (list C)) : result (list (list C)) :=
  if (length a =? length b)%nat then
    rmapM (fun xy => vec_add (fst xy) (snd xy)) (combine a b)
  else Raise ValueError.

(** [x + y] on accumulators: [0 + 0], [0 + a], [a + 0], [a + b]. *)
Definition acc_add {A} (zero_l zero_r : A -> A) (add : A -> A -> result A)
    (x y : pyacc A) : result (pyacc A) :=
  match x, y with
  | acc_zero, acc_zero => Ok acc_zero
  | acc_zero, acc_arr b => Ok (acc_arr (zero_l b))
  | acc_arr a, acc_zero => Ok (acc_arr (zero_r a))
  | acc_arr a, acc_arr b => r <~ add a b ;; Ok (acc_arr r)
  end.

Definition pot_add : pyacc (list C) -> pyacc (list C) -> result _ :=
  acc_add (map (cadd c0)) (map (fun x => cadd x c0)) vec_add.

Definition grad_add
  : pyacc (list (list C)) -> pyacc (list (list C)) -> result _ :=
  acc_add (map (map (cadd c0))) (map (map (fun x => cadd x c0))) mat_add.

(** [row[slice] += v]. *)
Definition slice_iadd (row : list C) (p : pslice) (v : pyacc (list C))
  : result (list C) :=
  let old := py_slice row (fst p) (snd p) in
  match v with
  | acc_zero => Ok (write_block row (fst p) (map (fun x => cadd x c0) old))
  | acc_arr a => new <~ vec_add old a ;; Ok (write_block row (fst p) new)
  end.

(** [add_potgrad_onto_output] on an output array of one dimension: with
    [ifgrad] set, [output[0, output_slice]] has an index too many. *)
Definition add_potgrad_onto_output {L} (w : FMMLibExpansionWrangler)
    (output_slice : pslice) (pg : potgrad) : M (output * L) unit :=
  fun '(out, lg) =>
    if ifgrad w then (Raise IndexError, (out, lg))
    else
      match slice_iadd out output_slice (fst pg) with
      | Ok out' => (Ok tt, (out', lg))
      | Raise e => (Raise e, (out, lg))
      end.

Definition potgrad_add (x y : potgrad) : result potgrad :=
  p <~ pot_add (fst x) (fst y) ;;
  g <~ grad_add (snd x) (snd y) ;;
  Ok (p, g).

(** A list of lists in compressed form. *)
Record csr : Type := {
  starts : list nat;
  lists : list nat
}.

(** *** [eval_direct] *)

(** One round of the inner loop: the source box [src_ibox]. *)
Definition eval_direct_source (w : FMMLibExpansionWrangler)
    (ev : kcall -> M (output * log) potgrad) (src_weights : list C)
    (tgt_pslice : pslice) (acc : potgrad) (src_ibox : nat)
  : M (output * log) potgrad :=
  src_pslice <== lift (_get_source_slice w src_ibox) ;;
  if (slice_len src_pslice =? 0)%nat then mret acc
  else
    kw <== lift (get_source_kwargs w src_weights src_pslice) ;;
    tmp <== ev (call_direct src_pslice tgt_pslice kw) ;;
    lift (potgrad_add acc tmp).

(** One round of the outer loop: the target box [tgt_ibox]. *)
Definition eval_direct_target (w : FMMLibExpansionWrangler)
    (ev : kcall -> M (output * log) potgrad)
    (neighbor_sources_starts neighbor_sources_lists : list nat)
    (src_weights : list C) (it : nat * nat) : M (output * log) unit :=
  let '(itgt_box, tgt_ibox) := it in
  tgt_pslice <== lift (_get_target_slice w tgt_ibox) ;;
  if (slice_len tgt_pslice =? 0)%nat then mret tt
  else
    bnd <== lift (unpack2 (py_slice neighbor_sources_starts
                             itgt_box (itgt_box + 2))) ;;
    let '(start, stop) := bnd in
    res <== for_fold (py_slice neighbor_sources_lists start stop)
              (acc_zero, acc_zero)
              (eval_direct_source w ev src_weights tgt_pslice) ;;
    add_potgrad_onto_output w tgt_pslice res.

Definition eval_direct (w : FMMLibExpansionWrangler)
    (target_boxes neighbor_sources_starts neighbor_sources_lists : list nat)
    (src_weights : list C) : M log output :=
  out <== lift (output_zeros w) ;;
  ev <== lift (get_direct_eval_routine w) ;;
  with_local out
    (for_each (enumerate target_boxes)
       (eval_direct_target w ev neighbor_sources_starts
          neighbor_sources_lists src_weights)).

(** *** [eval_multipoles] *)

Definition eval_multipoles_source (w : FMMLibExpansionWrangler)
    (mpeval : kcall -> M (output * log) potgrad) (mpole_exps : list C)
    (isrc_level : nat) (source_level_start_ibox : nat)
    (source_mpoles_view : view) (tgt_pslice : pslice)
    (acc : potgrad) (src_ibox : nat) : M (output * log) potgrad :=
  center <== lift (box_center w src_ibox) ;;
  expn <== lift (view_read source_mpoles_view
                   (Z.of_nat src_ibox - Z.of_nat source_level_start_ibox)
                   mpole_exps) ;;
  tmp <== mpeval (call_mpeval isrc_level center expn tgt_pslice) ;;
  lift (potgrad_add acc tmp).

(** One round of the loop over target boxes. *)
Definition eval_multipoles_target (w : FMMLibExpansionWrangler)
    (mpeval : kcall -> M (output * log) potgrad) (mpole_exps : list C)
    (isrc_level : nat) (ssn : csr) (source_level_start_ibox : nat)
    (source_mpoles_view : view) (it : nat * nat) : M (output * log) unit :=
  let '(itgt_box, tgt_ibox) := it in
  tgt_pslice <== lift (_get_target_slice w tgt_ibox) ;;
  if (slice_len tgt_pslice =? 0)%nat then mret tt
  else
    bnd <== lift (unpack2 (py_slice (starts ssn) itgt_box (itgt_box + 2))) ;;
    let '(start, stop) := bnd in
    res <== for_fold (py_slice (lists ssn) start stop)
              (acc_zero, acc_zero)
              (eval_multipoles_source w mpeval mpole_exps isrc_level
                 source_level_start_ibox source_mpoles_view tgt_pslice) ;;
    add_potgrad_onto_output w tgt_pslice res.

Definition eval_multipoles_level (w : FMMLibExpansionWrangler)
    (mpeval : kcall -> M (output * log) potgrad)
    (target_boxes : list nat) (mpole_exps : list C)
    (il : nat * csr) : M (output * log) unit :=
  let '(isrc_level, ssn) := il in
  sv <== lift (multipole_expansions_view w mpole_exps isrc_level) ;;
  for_each (enumerate target_boxes)
    (eval_multipoles_target w mpeval mpole_exps isrc_level ssn
       (fst sv) (snd sv)).

Definition eval_multipoles (w : FMMLibExpansionWrangler)
    (level_start_target_box_nrs target_boxes : list nat)
    (sep_smaller_nonsiblings_by_level : list csr) (mpole_exps : list C)
  : M log output :=
  out <== lift (output_zeros w) ;;
  mpeval <== lift (get_expn_eval_routine w "mp") ;;
  with_local out
    (for_each (enumerate sep_smaller_nonsiblings_by_level)
       (eval_multipoles_level w mpeval target_boxes mpole_exps)).

(** *** [form_locals] *)

(** One round of the inner loop: the source box [src_ibox]. *)
Definition form_locals_source (w : FMMLibExpansionWrangler)
    (formta : routine) (src_weights : list C) (lev tgt_ibox : nat)
    (contrib : pyacc (list C)) (src_ibox : nat)
  : M (list C * log) (pyacc (list C)) :=
  src_pslice <== lift (_get_source_slice w src_ibox) ;;
  tgt_center <== lift (box_center w tgt_ibox) ;;
  if (slice_len src_pslice =? 0)%nat then mret contrib
  else
    kw <== lift (get_source_kwargs w src_weights src_pslice) ;;
    nterms <== lift (py_index (level_nterms w) lev) ;;
    o <== invoke formta (call_formta lev src_pslice tgt_center nterms kw) ;;
    if negb (k_ier o =? 0) then lift (Raise RuntimeError)
    else lift (pot_add contrib (acc_arr (k_val o))).

Definition form_locals_target (w : FMMLibExpansionWrangler)
    (formta : routine) (starts0 lists0 : list nat) (src_weights : list C)
    (lev lev_start : nat) (target_level_start_ibox : nat)
    (target_local_exps_view : view) (it : nat * nat)
  : M (list C * log) unit :=
  let '(itgt_box, tgt_ibox) := it in
  bnd <== lift (unpack2 (py_slice starts0 (lev_start + itgt_box)
                           (lev_start + itgt_box + 2))) ;;
  let '(start, stop) := bnd in
  contrib <== for_fold (py_slice lists0 start stop) acc_zero
                (form_locals_source w formta src_weights lev tgt_ibox) ;;
  view_assign target_local_exps_view
    (Z.of_nat tgt_ibox - Z.of_nat target_level_start_ibox)
    match contrib with
    | acc_zero => repeat c0 (v_stride target_local_exps_view)
    | acc_arr blk => blk
    end.

Definition form_locals_level (w : FMMLibExpansionWrangler)
    (formta : routine)
    (level_start_target_or_target_parent_box_nrs
     target_or_target_parent_boxes starts0 lists0 : list nat)
    (src_weights : list C) (lev : nat) : M (list C * log) unit :=
  bnd <== lift (unpack2 (py_slice level_start_target_or_target_parent_box_nrs
                           lev (lev + 2))) ;;
  let '(lev_start, lev_stop) := bnd in
  if (lev_start =? lev_stop)%nat then mret tt
  else
    local_exps <== get_buf ;;
    tv <== lift (local_expansions_view w local_exps lev) ;;
    for_each
      (enumerate (py_slice target_or_target_parent_boxes lev_start lev_stop))
      (form_locals_target w formta starts0 lists0 src_weights lev lev_start
         (fst tv) (snd tv)).

Definition form_locals (w : FMMLibExpansionWrangler)
    (level_start_target_or_target_parent_box_nrs
     target_or_target_parent_boxes starts0 lists0 : list nat)
    (src_weights : list C) : M log (list C) :=
  local_exps <== lift (local_expansion_zeros w) ;;
  formta <== lift (get_routine w ("%ddformta" ++ dp_suffix w)%string "") ;;
  with_local (arr_data local_exps)
    (for_each (seq 0 (nlevels (tree w)))
       (form_locals_level w formta
          level_start_target_or_target_parent_box_nrs
          target_or_target_parent_boxes starts0 lists0 src_weights)).

(** *** [eval_locals] *)

(** One round of the inner loop: the target box [tgt_ibox]. *)
Definition eval_locals_target (w : FMMLibExpansionWrangler)
    (taeval : kcall -> M (output * log) potgrad) (local_exps : list C)
    (lev : nat) (source_level_start_ibox : nat)
    (source_local_exps_view : view) (tgt_ibox : nat)
  : M (output * log) unit :=
  tgt_pslice <== lift (_get_target_slice w tgt_ibox) ;;
  if (slice_len tgt_pslice =? 0)%nat then mret tt
  else
    center <== lift (box_center w tgt_ibox) ;;
    expn <== lift (view_read source_local_exps_view
                     (Z.of_nat tgt_ibox - Z.of_nat source_level_start_ibox)
                     local_exps) ;;
    tmp <== taeval (call_taeval lev center expn tgt_pslice) ;;
    add_potgrad_onto_output w tgt_pslice tmp.

Definition eval_locals_level (w : FMMLibExpansionWrangler)
    (taeval : kcall -> M (output * log) potgrad)
    (level_start_target_box_nrs target_boxes : list nat)
    (local_exps : list C) (lev : nat) : M (output * log) unit :=
  bnd <== lift (unpack2 (py_slice level_start_target_box_nrs lev (lev + 2))) ;;
  let '(start, stop) := bnd in
  if (start =? stop)%nat then mret tt
  else
    sv <== lift (local_expansions_view w local_exps lev) ;;
    for_each (py_slice target_boxes start stop)
      (eval_locals_target w taeval local_exps lev (fst sv) (snd sv)).

Definition eval_locals (w : FMMLibExpansionWrangler)
    (level_start_target_box_nrs target_boxes : list nat)
    (local_exps : list C) : M log output :=
  out <== lift (output_zeros w) ;;
  taeval <== lift (get_expn_eval_routine w "ta") ;;
  with_local out
    (for_each (seq 0 (nlevels (tree w)))
       (eval_locals_level w taeval level_start_target_box_nrs target_boxes
          local_exps)).

End Wrangler.

Arguments FMMLibExpansionWrangler : clear implicits.
Arguments ndarray : clear implicits.
Arguments source_kwargs : clear implicits.
Arguments kcall : clear implicits.
Arguments kernel_out : clear implicits.
Arguments routine : clear implicits.
Arguments log : clear implicits.
Arguments potgrad : clear implicits.
Arguments output : clear implicits.
Arguments acc_zero {A}.
Arguments acc_arr {A} a.

(** *** [finalize_potentials]

    Potentials are arrays of real or of complex numbers; a complex number
    is the pair of its real and imaginary parts. *)

Inductive potential_array : Type :=
| real_array (a : list R)
| complex_array (a : list (R * R)).

(** [potential.real]. *)
Definition np_real (p : potential_array) : potential_array :=
  match p with
  | real_array a => real_array a
  | complex_array a => real_array (map fst a)
  end.

(** [potential * scale_factor] for a real [scale_factor]. *)
Definition np_scale (p : potential_array) (s : R) : potential_array :=
  match p with
  | real_array a => real_array (map (fun x => x * s)%R a)
  | complex_array a =>
    complex_array (map (fun z => (fst z * s, snd z * s)%R) a)
  end.

Definition scale_factor {C} (w : FMMLibExpansionWrangler C) : result R :=
  if eqn_eqb (eqn_letter w) letter_l && (dim w =? 2)%nat then
    Ok (-1 / (2 * PI))%R
  else if eqn_eqb (eqn_letter w) letter_h && (dim w =? 2)%nat then
    Ok 1%R
  else if (dim w =? 3)%nat then
    Ok (1 / (4 * PI))%R
  else Raise NotImplementedError.

Definition finalize_potentials {C} (w : FMMLibExpansionWrangler C)
    (potential : potential_array) : result potential_array :=
  s <~ scale_factor w ;;
  let potential :=
    if eqn_eqb (eqn_letter w) letter_l && (dim w =? 2)%nat
    then np_real potential else potential in
  Ok (np_scale potential s).

(** The same function over a store of array buffers, where an array
    object names the buffer it reads: [potential.real] is a second
    object on the buffer of [potential], the product is written to a
    buffer of its own. *)

Definition heap : Type := list potential_array.

Inductive array_object : Type :=
| whole (buffer : nat)
| real_view (buffer : nat).

Definition contents (h : heap) (a : array_object) : result potential_array :=
  match a with
  | whole b => py_index h b
  | real_view b => p <~ py_index h b ;; Ok (np_real p)
  end.

Definition real_of (a : array_object) : array_object :=
  match a with
  | whole b => real_view b
  | real_view b => real_view b
  end.

Definition alloc (p : potential_array) : M heap array_object :=
  fun h => (Ok (whole (length h)), h ++ [p]).

Definition finalize_potentials_mem {C} (w : FMMLibExpansionWrangler C)
    (potential : array_object) : M heap array_object :=
  s <== lift (scale_factor w) ;;
  let potential :=
    if eqn_eqb (eqn_letter w) letter_l && (dim w =? 2)%nat
    then real_of potential else potential in
  p <== (fun h => (contents h potential, h)) ;;
  alloc (np_scale p s).

(** Folding a loop body that may raise over a list. *)
Fixpoint rfold {A X} (body : A -> X -> result A) (l : list X) (a : A)
  : result A :=
  match l with
  | [] => Ok a
  | x :: l' => a' <~ body a x ;; rfold body l' a'
  end.

(** The entries of list [k] of a compressed list of lists:
    [lists[starts[k]:starts[k+1]]]. *)
Definition csr_row (c : csr) (k : nat) : result (list nat) :=
  bind2 (start, stop) <~ unpack2 (py_slice (starts c) k (k + 2)) ;;
  Ok (py_slice (lists c) start stop).

(** ** [ConstantOneExpansionWrangler]

    The reference wrangler of the tests: one number per box.  Its arrays
    hold sums of source weights; they are modelled by exact integers. *)

Module ConstantOne.

Definition np_sum (l : list Z) : Z := fold_right Z.add 0 l.

Definition multipole_expansion_zeros (t : Tree) : list Z :=
  repeat 0 (nboxes t).

Definition local_expansion_zeros (t : Tree) : list Z :=
  multipole_expansion_zeros t.

Definition potential_zeros (t : Tree) : list Z := repeat 0 (ntargets t).

Definition _get_source_slice (t : Tree) (ibox : nat) : result pslice :=
  pstart <~ py_index (box_source_starts t) ibox ;;
  count <~ py_index (box_source_counts_nonchild t) ibox ;;
  Ok (pstart, (pstart + count)%nat).

Definition _get_target_slice (t : Tree) (ibox : nat) : result pslice :=
  pstart <~ py_index (box_target_starts t) ibox ;;
  count <~ py_index (box_target_counts_nonchild t) ibox ;;
  Ok (pstart, (pstart + count)%nat).

Definition reorder_sources (t : Tree) (source_array : list Z)
  : result (list Z) :=
  np_take source_array (user_source_ids t).

Definition reorder_potentials (t : Tree) (potentials : list Z)
  : result (list Z) :=
  np_take potentials (sorted_target_ids t).

(** [a[i] += v]. *)
Definition item_iadd (a : list Z) (i : nat) (v : Z) : result (list Z) :=
  x <~ py_index a i ;; Ok (<[i := x + v]> a).

(** [a[slice] += v] and [a[slice] = v] for a number [v]. *)
Definition slice_iadd (a : list Z) (p : pslice) (v : Z) : list Z :=
  write_block a (fst p) (map (fun x => x + v) (py_slice a (fst p) (snd p))).

Definition slice_assign (a : list Z) (p : pslice) (v : Z) : list Z :=
  write_block a (fst p) (map (fun _ => v) (py_slice a (fst p) (snd p))).

(** [np.sum(src_weights[pslice])]. *)
Definition slice_sum (src_weights : list Z) (p : pslice) : Z :=
  np_sum (py_slice src_weights (fst p) (snd p)).

Definition form_multipoles (t : Tree)
    (level_start_source_box_nrs source_boxes : list nat)
    (src_weights : list Z) : result (list Z) :=
  rfold (fun mpoles ibox =>
           p <~ _get_source_slice t ibox ;;
           item_iadd mpoles ibox (slice_sum src_weights p))
    source_boxes (multipole_expansion_zeros t).

(** [mpoles[ibox] += mpoles[child]], in place. *)
Definition item_iadd_item (i j : nat) : M (list Z) unit :=
  fun a =>
    match (x <~ py_index a i ;; y <~ py_index a j ;; Ok (x + y)) with
    | Ok v => (Ok tt, <[i := v]> a)
    | Raise e => (Raise e, a)
    end.

Definition coarsen_multipoles_box (t : Tree) (ibox : nat)
  : M (list Z) unit :=
  children <== lift (column (box_child_ids t) ibox) ;;
  for_each children
    (fun child =>
       if (child =? 0)%nat then mret tt else item_iadd_item ibox child).

Definition coarsen_multipoles_level (t : Tree)
    (level_start_source_parent_box_nrs source_parent_boxes : list nat)
    (source_level : nat) : M (list Z) unit :=
  let target_level := (source_level - 1)%nat in
  bnd <== lift (unpack2 (py_slice level_start_source_parent_box_nrs
                           target_level (target_level + 2))) ;;
  let '(start, stop) := bnd in
  for_each (py_slice source_parent_boxes start stop)
    (coarsen_multipoles_box t).

(** [coarsen_multipoles] updates [mpoles], the state, in place. *)
Definition coarsen_multipoles (t : Tree)
    (level_start_source_parent_box_nrs source_parent_boxes : list nat)
  : M (list Z) unit :=
  for_each (range_down (nlevels t - 1) 2)
    (coarsen_multipoles_level t level_start_source_parent_box_nrs
       source_parent_boxes).

Definition eval_direct (t : Tree)
    (target_boxes neighbor_sources_starts neighbor_sources_lists : list nat)
    (src_weights : list Z) : result (list Z) :=
  rfold (fun pot it =>
           let '(itgt_box, tgt_ibox) := it in
           tgt_pslice <~ _get_target_slice t tgt_ibox ;;
           bind2 (start, stop) <~
             unpack2 (py_slice neighbor_sources_starts
                        itgt_box (itgt_box + 2)) ;;
           src_sum <~ rfold (fun src_sum src_ibox =>
                               src_pslice <~ _get_source_slice t src_ibox ;;
                               Ok (src_sum + slice_sum src_weights src_pslice))
                        (py_slice neighbor_sources_lists start stop) 0 ;;
           Ok (slice_assign pot tgt_pslice src_sum))
    (enumerate target_boxes) (potential_zeros t).

Definition multipole_to_local (t : Tree)
    (level_start_target_or_target_parent_box_nrs
     target_or_target_parent_boxes starts0 lists0 : list nat)
    (mpole_exps : list Z) : result (list Z) :=
  rfold (fun local_exps it =>
           let '(itgt_box, tgt_ibox) := it in
           bind2 (start, stop) <~
             unpack2 (py_slice starts0 itgt_box (itgt_box + 2)) ;;
           contrib <~ rfold (fun contrib src_ibox =>
                               m <~ py_index mpole_exps src_ibox ;;
                               Ok (contrib + m))
                        (py_slice lists0 start stop) 0 ;;
           item_iadd local_exps tgt_ibox contrib)
    (enumerate target_or_target_parent_boxes) (local_expansion_zeros t).

Definition eval_multipoles (t : Tree)
    (target_boxes_by_source_level : list (list nat))
    (from_sep_smaller_nonsiblings_by_level : list csr)
    (mpole_exps : list Z) : result (list Z) :=
  rfold (fun pot ls =>
           let '(level, ssn) := ls in
           tbs <~ py_index target_boxes_by_source_level level ;;
           rfold (fun pot it =>
                    let '(itgt_box, tgt_ibox) := it in
                    tgt_pslice <~ _get_target_slice t tgt_ibox ;;
                    bind2 (start, stop) <~
                      unpack2 (py_slice (starts ssn) itgt_box (itgt_box + 2)) ;;
                    contrib <~ rfold (fun contrib src_ibox =>
                                        m <~ py_index mpole_exps src_ibox ;;
                                        Ok (contrib + m))
                                 (py_slice (lists ssn) start stop) 0 ;;
                    Ok (slice_iadd pot tgt_pslice contrib))
             (enumerate tbs) pot)
    (enumerate from_sep_smaller_nonsiblings_by_level) (potential_zeros t).

Definition form_locals (t : Tree)
    (level_start_target_or_target_parent_box_nrs
     target_or_target_parent_boxes starts0 lists0 : list nat)
    (src_weights : list Z) : result (list Z) :=
  rfold (fun local_exps it =>
           let '(itgt_box, tgt_ibox) := it in
           bind2 (start, stop) <~
             unpack2 (py_slice starts0 itgt_box (itgt_box + 2)) ;;
           contrib <~ rfold (fun contrib src_ibox =>
                               src_pslice <~ _get_source_slice t src_ibox ;;
                               Ok (contrib + slice_sum src_weights src_pslice))
                        (py_slice lists0 start stop) 0 ;;
           item_iadd local_exps tgt_ibox contrib)
    (enumerate target_or_target_parent_boxes) (local_expansion_zeros t).

Definition refine_locals_box (t : Tree) (ibox : nat) : M (list Z) unit :=
  parent <== lift (py_index (box_parent_ids t) ibox) ;;
  item_iadd_item ibox parent.

Definition refine_locals_level (t : Tree)
    (level_start_target_or_target_parent_box_nrs
     target_or_target_parent_boxes : list nat)
    (target_lev : nat) : M (list Z) unit :=
  bnd <== lift (unpack2 (py_slice level_start_target_or_target_parent_box_nrs
                           target_lev (target_lev + 2))) ;;
  let '(start, stop) := bnd in
  for_each (py_slice target_or_target_parent_boxes start stop)
    (refine_locals_box t).

(** The target levels visited: [range(1, self.tree.nlevels)]. *)
Definition refine_target_levels (t : Tree) : list nat :=
  seq 1 (nlevels t - 1).

(** [refine_locals] updates [local_exps], the state, in place (and
    returns it). *)
Definition refine_locals (t : Tree)
    (level_start_target_or_target_parent_box_nrs
     target_or_target_parent_boxes : list nat)
  : M (list Z) unit :=
  for_each (refine_target_levels t)
    (refine_locals_level t level_start_target_or_target_parent_box_nrs
       target_or_target_parent_boxes).

Definition eval_locals (t : Tree)
    (level_start_target_box_nrs target_boxes : list nat)
    (local_exps : list Z) : result (list Z) :=
  rfold (fun pot ibox =>
           tgt_pslice <~ _get_target_slice t ibox ;;
           l <~ py_index local_exps ibox ;;
           Ok (slice_iadd pot tgt_pslice l))
    target_boxes (potential_zeros t).

Definition finalize_potentials (potentials : list Z) : list Z := potentials.

End ConstantOne.

(** ** [ConstantOneExpansionWranglerWithFilteredTargetsInTreeOrder]

    The reference wrangler for a filtered list of targets kept in tree
    order.  It overrides [potential_zeros], [_get_target_slice] and
    [reorder_potentials] of the reference wrangler. *)

Module FilteredTargetsInTreeOrder.

(** The filtered target lists (external collaborator). *)
Record FilteredTargets : Type := {
  nfiltered_targets : nat;
  box_target_starts : list nat;
  box_target_counts_nonchild : list nat;
  unfiltered_from_filtered_target_indices : list nat
}.

Definition potential_zeros (ft : FilteredTargets) : list Z :=
  repeat 0 (nfiltered_targets ft).

Definition _get_target_slice (ft : FilteredTargets) (ibox : nat)
  : result pslice :=
  pstart <~ py_index (box_target_starts ft) ibox ;;
  count <~ py_index (box_target_counts_nonchild ft) ibox ;;
  Ok (pstart, (pstart + count)%nat).

(** [a[ids] = vals] for an array of indices: the values are one per
    index, or a single value for all of them; any other number of values
    is a [ValueError], an index out of range an [IndexError]; of the
    values written to one position the last one stays. *)
Definition np_put (a : list Z) (ids : list nat) (vals : list Z)
  : result (list Z) :=
  vals' <~ (if (length vals =? length ids)%nat then Ok vals
            else if (length vals =? 1)%nat
                 then Ok (repeat (nth 0 vals 0) (length ids))
                 else Raise ValueError) ;;
  rfold (fun a iv =>
           _ <~ py_index a (fst iv) ;; Ok (<[fst iv := snd iv]> a))
    (combine ids vals') a.

Definition reorder_potentials (t : Tree) (ft : FilteredTargets)
    (potentials : list Z) : result (list Z) :=
  tree_order_all_potentials <~
    np_put (repeat 0 (ntargets t))
      (unfiltered_from_filtered_target_indices ft) potentials ;;
  np_take tree_order_all_potentials (sorted_target_ids t).

End FilteredTargetsInTreeOrder.

(** ** The traversal and the driver *)

(** Modelled from the spec: the traversal ([boxtree/traversal.py]) is not
    among the sources.  It carries the box lists handed to the passes,
    each with its per-level starts, and the interaction lists in
    compressed form: near neighbours for direct evaluation, well-separated
    boxes for multipole-to-local translation, separated smaller boxes whose
    multipoles are evaluated at the targets (one list per source level,
    with the target boxes it is indexed by), and boxes whose sources form
    a local expansion directly. *)
Record Traversal : Type := {
  source_boxes : list nat;
  level_start_source_box_nrs : list nat;
  source_parent_boxes : list nat;
  level_start_source_parent_box_nrs : list nat;
  target_boxes : list nat;
  level_start_target_box_nrs : list nat;
  target_or_target_parent_boxes : list nat;
  level_start_target_or_target_parent_box_nrs : list nat;
  neighbor_source_boxes : csr;
  from_sep_siblings : csr;
  target_boxes_sep_smaller_by_source_level : list (list nat);
  from_sep_smaller_by_level : list csr;
  from_sep_bigger : csr
}.

(** Run an in-place update on a buffer; the buffer is the result. *)
Definition run_on {S} (m : M S unit) (s : S) : result S :=
  match m s with
  | (Ok _, s') => Ok s'
  | (Raise e, _) => Raise e
  end.

(** [a + b] on arrays of numbers. *)
Definition array_add (a b : list Z) : result (list Z) :=
  if (length a =? length b)%nat then Ok (zip_with Z.add a b)
  else Raise ValueError.

(** Modelled from the spec: the driver ([drive_fmm] of [boxtree/fmm.py]) is
    not among the sources.  It invokes the nine operations of the wrangler
    in the order form_multipoles, coarsen_multipoles, multipole_to_local,
    form_locals, refine_locals, eval_multipoles, eval_locals, eval_direct,
    finalize_potentials, threading the expansion buffers and a running
    sum of the potentials between them. *)
Definition drive_fmm (t : Tree) (trav : Traversal) (src_weights : list Z)
  : result (list Z) :=
  mpole_exps <~ ConstantOne.form_multipoles t
                  (level_start_source_box_nrs trav) (source_boxes trav)
                  src_weights ;;
  mpole_exps <~ run_on (ConstantOne.coarsen_multipoles t
                          (level_start_source_parent_box_nrs trav)
                          (source_parent_boxes trav)) mpole_exps ;;
  local_exps <~ ConstantOne.multipole_to_local t
                  (level_start_target_or_target_parent_box_nrs trav)
                  (target_or_target_parent_boxes trav)
                  (starts (from_sep_siblings trav))
                  (lists (from_sep_siblings trav)) mpole_exps ;;
  formed <~ ConstantOne.form_locals t
              (level_start_target_or_target_parent_box_nrs trav)
              (target_or_target_parent_boxes trav)
              (starts (from_sep_bigger trav))
              (lists (from_sep_bigger trav)) src_weights ;;
  local_exps <~ array_add local_exps formed ;;
  local_exps <~ run_on (ConstantOne.refine_locals t
                          (level_start_target_or_target_parent_box_nrs trav)
                          (target_or_target_parent_boxes trav)) local_exps ;;
  potentials <~ ConstantOne.eval_multipoles t
                  (target_boxes_sep_smaller_by_source_level trav)
                  (from_sep_smaller_by_level trav) mpole_exps ;;
  from_locals <~ ConstantOne.eval_locals t
                   (level_start_target_box_nrs trav) (target_boxes trav)
                   local_exps ;;
  potentials <~ array_add potentials from_locals ;;
  from_direct <~ ConstantOne.eval_direct t (target_boxes trav)
                   (starts (neighbor_source_boxes trav))
                   (lists (neighbor_source_boxes trav)) src_weights ;;
  potentials <~ array_add potentials from_direct ;;
  Ok (ConstantOne.finalize_potentials potentials).

(** ** Specification vocabulary *)

(** Sum of [f 0 .. f (k-1)]. *)
Fixpoint sum_upto (f : nat -> Z) (k : nat) : Z :=
  match k with
  | O => 0
  | S k' => sum_upto f k' + f k'
  end.

(** Number of boxes on a level, from the level starts of the tree. *)
Definition level_nboxes (t : Tree) (lev : nat) : Z :=
  Z.of_nat (nth (lev + 1) (level_start_box_nrs t) 0%nat)
  - Z.of_nat (nth lev (level_start_box_nrs t) 0%nat).

(** The region of the flat buffer that the views of level [lev] address,
    given the cumulative level starts. *)
Definition in_level_region (starts0 : list Z) (lev : nat) (k : Z) : Prop :=
  nth lev starts0 0 <= k < nth (lev + 1) starts0 0.

(** ** A small tree

    Eight boxes on four levels: the root 0, boxes 1 and 2 below it, box 3
    below 1 and box 4 below 2, boxes 5 and 6 below 3 and box 7 below 4.
    Six particles serve as sources and as targets; boxes 5, 6, 4 and 7
    own the particle ranges [0,2), [2,3), [3,4) and [4,6). *)

Definition demo_tree : Tree := {|
  dimensions := 2;
  nlevels := 4;
  nboxes := 8;
  nsources := 6;
  ntargets := 6;
  level_start_box_nrs := [0; 1; 3; 5; 8]%nat;
  box_source_starts := [0; 0; 3; 0; 3; 0; 2; 4]%nat;
  box_source_counts_nonchild := [0; 0; 0; 0; 1; 2; 1; 2]%nat;
  box_target_starts := [0; 0; 3; 0; 3; 0; 2; 4]%nat;
  box_target_counts_nonchild := [0; 0; 0; 0; 1; 2; 1; 2]%nat;
  box_parent_ids := [0; 0; 0; 1; 2; 3; 3; 4]%nat;
  box_child_ids := [[1; 3; 4; 5; 7; 0; 0; 0];
                    [2; 0; 0; 6; 0; 0; 0; 0];
                    [0; 0; 0; 0; 0; 0; 0; 0];
                    [0; 0; 0; 0; 0; 0; 0; 0]]%nat;
  user_source_ids := [2; 0; 4; 1; 5; 3]%nat;
  sorted_target_ids := [1; 3; 0; 5; 2; 4]%nat
|}.

(** The wrangler built on it for the Laplace kernel, order 2 on every
    level, with integer scalars. *)
Definition demo_wrangler : FMMLibExpansionWrangler Z := {|
  tree := demo_tree;
  eqn_letter := letter_l;
  kernel_kwargs := None;
  level_nterms := [2; 2; 2; 2];
  dtype := complex128;
  ifgrad := false;
  dim := 2;
  dipole_vec := None;
  dp_suffix := ""
|}.

(** A tree of one box whose three targets are particles of their own: the
    target permutation does not invert the source permutation. *)
Definition separate_targets_tree : Tree := {|
  dimensions := 2;
  nlevels := 1;
  nboxes := 1;
  nsources := 3;
  ntargets := 3;
  level_start_box_nrs := [0; 1]%nat;
  box_source_starts := [0]%nat;
  box_source_counts_nonchild := [3]%nat;
  box_target_starts := [0]%nat;
  box_target_counts_nonchild := [3]%nat;
  box_parent_ids := [0]%nat;
  box_child_ids := [[0]; [0]; [0]; [0]]%nat;
  user_source_ids := [1; 2; 0]%nat;
  sorted_target_ids := [1; 2; 0]%nat
|}.

(** A tree of one box on a line. *)
Definition line_tree : Tree := {|
  dimensions := 1;
  nlevels := 1;
  nboxes := 1;
  nsources := 2;
  ntargets := 2;
  level_start_box_nrs := [0; 1]%nat;
  box_source_starts := [0]%nat;
  box_source_counts_nonchild := [2]%nat;
  box_target_starts := [0]%nat;
  box_target_counts_nonchild := [2]%nat;
  box_parent_ids := [0]%nat;
  box_child_ids := [[0]; [0]]%nat;
  user_source_ids := [0; 1]%nat;
  sorted_target_ids := [0; 1]%nat
|}.

(** What construction on [line_tree] returns. *)
Definition line_wrangler : FMMLibExpansionWrangler Z := {|
  tree := line_tree;
  eqn_letter := letter_l;
  kernel_kwargs := None;
  level_nterms := [3];
  dtype := complex128;
  ifgrad := false;
  dim := 1;
  dipole_vec := None;
  dp_suffix := ""
|}.

(** Two buffers of one length that agree outside the positions
    [lo .. hi-1]. *)
Definition agree_outside {C} (lo hi : nat) (buf buf' : list C) : Prop :=
  length buf' = length buf
  /\ forall k, (k < lo \/ hi <= k)%nat -> buf' !! k = buf !! k.

(** A view lies within a buffer of [len] entries. *)
Definition view_fits (v : view) (len : nat) : Prop :=
  (v_off v + v_nb v * v_stride v <= len)%nat.

(** A routine wrapper that only calls the kernel: it leaves the buffer
    alone and logs its call. *)
Definition calls_kernel_only {C X A} (f : kcall C -> M (X * log C) A) : Prop :=
  forall k x lg, exists r, f k (x, lg) = (r, (x, lg ++ [k])).

(** A box without sources, a box without targets. *)
Definition empty_source_box (t : Tree) (b : nat) : Prop :=
  exists pstart, box_source_starts t !! b = Some pstart
                 /\ box_source_counts_nonchild t !! b = Some 0%nat.


(** [m] keeps the property [P] of the state, whether it returns or raises,
    and what it returns satisfies [Q]. *)
Definition preserves {S A} (P : S -> Prop) (Q : A -> Prop) (m : M S A) : Prop :=
  forall s r s', P s -> m s = (r, s') -> P s' /\ forall a, r = Ok a -> Q a.

(** Size of the region of a level in a flat expansion buffer, when [sz]
    gives the coefficient count per box on each level, and the cumulative
    offsets of these regions. *)
Definition region_size {C} (w : FMMLibExpansionWrangler C) (sz : nat -> Z)
    (lev : nat) : Z :=
  sz lev * level_nboxes (tree w) lev.

Definition level_offsets {C} (w : FMMLibExpansionWrangler C) (sz : nat -> Z)
  : list Z :=
  map (sum_upto (region_size w sz)) (seq 0 (S (nlevels (tree w)))).

(** A stand-in for pyfmmlib: every routine exists; a translation returns
    the expansion it is given, the other routines return zeros. *)
Definition echo_kernel (k : kcall Z) : kernel_out Z :=
  match k with
  | call_mpmp _ _ expn1 _ _ _ | call_locloc _ _ expn1 _ _ _ =>
    {| k_ier := 0; k_val := expn1; k_grad := [] |}
  | call_formmp _ _ _ nterms _ | call_formta _ _ _ nterms _ =>
    {| k_ier := 0; k_val := repeat 1 (Z.to_nat (nterms + 1)); k_grad := [] |}
  | call_direct _ ztarg _ | call_mpeval _ _ _ ztarg
  | call_taeval _ _ _ ztarg =>
    {| k_ier := 0; k_val := repeat 1 (slice_len ztarg); k_grad := [] |}
  end.

Definition echo_routines (w : FMMLibExpansionWrangler Z) (name suffix : string)
  : result (routine Z) :=
  Ok echo_kernel.

(** A multipole buffer for [demo_wrangler]: three coefficients per box. *)
Definition demo_mpoles : list Z := map Z.of_nat (seq 1 24).

(** ** Vocabulary for the reference wrangler

    Everything below is computed from the tree and the traversal, so that
    validity and completeness of a concrete traversal can be checked by
    evaluation. *)

Definition memb (x : nat) (l : list nat) : bool := existsb (Nat.eqb x) l.

Fixpoint nodupb (l : list nat) : bool :=
  match l with
  | [] => true
  | x :: l' => negb (memb x l') && nodupb l'
  end.

Definition all_below (n : nat) (l : list nat) : bool :=
  forallb (fun x => (x <? n)%nat) l.

(** Membership of a particle number in a particle range. *)
Definition in_range (i : nat) (p : pslice) : bool :=
  (fst p <=? i)%nat && (i <? snd p)%nat.

(** The boxes that a list with per-level starts holds for a level. *)
Definition level_range (lstarts l : list nat) (lev : nat) : list nat :=
  py_slice l (nth lev lstarts 0%nat) (nth (lev + 1) lstarts 0%nat).

(** Row [k] of a compressed list of lists. *)
Definition row (c : csr) (k : nat) : list nat :=
  py_slice (lists c) (nth k (starts c) 0%nat) (nth (k + 1) (starts c) 0%nat).

Section Reference.

Variable t : Tree.

Definition boxes : list nat := seq 0 (nboxes t).

(** The level of a box, read off the level starts of the tree. *)
Definition box_level (b : nat) : nat :=
  length (List.filter (fun s => (s <=? b)%nat) (tl (level_start_box_nrs t))).

Definition parent (b : nat) : nat := nth b (box_parent_ids t) 0%nat.

(** The children of a box: the non-zero entries of its column of
    [box_child_ids]. *)
Definition children (b : nat) : list nat :=
  List.filter (fun c => negb (c =? 0)%nat)
    (map (fun r => nth b r 0%nat) (box_child_ids t)).

(** A box with its descendants, [fuel] generations deep. *)
Fixpoint subtree (fuel : nat) (b : nat) : list nat :=
  match fuel with
  | O => [b]
  | S f => b :: flat_map (subtree f) (children b)
  end.

Definition subtree_of (b : nat) : list nat :=
  subtree (nlevels t - 1 - box_level b) b.

(** A box with its ancestors, [fuel] generations up. *)
Fixpoint ancestors (fuel : nat) (b : nat) : list nat :=
  match fuel with
  | O => [b]
  | S f => b :: ancestors f (parent b)
  end.

Definition ancestors_of (b : nat) : list nat := ancestors (box_level b) b.

Definition source_range (b : nat) : pslice :=
  (nth b (box_source_starts t) 0,
   nth b (box_source_starts t) 0 + nth b (box_source_counts_nonchild t) 0)%nat.

Definition target_range (b : nat) : pslice :=
  (nth b (box_target_starts t) 0,
   nth b (box_target_starts t) 0 + nth b (box_target_counts_nonchild t) 0)%nat.

(** The tree is valid: its per-box arrays have one entry per box; every
    box lies on a level of the tree, its children on the next level and
    its parent on the previous one; the source ranges of the boxes lie
    within the source array and every source belongs to exactly one box. *)
Definition tree_ok : bool :=
  (length (box_source_starts t) =? nboxes t)%nat
  && (length (box_source_counts_nonchild t) =? nboxes t)%nat
  && (length (box_target_starts t) =? nboxes t)%nat
  && (length (box_target_counts_nonchild t) =? nboxes t)%nat
  && (length (box_parent_ids t) =? nboxes t)%nat
  && forallb (fun r => (length r =? nboxes t)%nat) (box_child_ids t)
  && forallb (fun b =>
       (box_level b <? nlevels t)%nat
       && forallb (fun c => (c <? nboxes t)%nat
                            && (box_level c =? box_level b + 1)%nat)
            (children b)
       && ((box_level b =? 0)%nat
           || ((parent b <? nboxes t)%nat
               && (box_level (parent b) + 1 =? box_level b)%nat))
       && (snd (source_range b) <=? nsources t)%nat) boxes
  && forallb (fun i =>
       (length (List.filter (fun b => in_range i (source_range b)) boxes) =? 1)%nat)
       (seq 0 (nsources t)).

Variable trav : Traversal.

(** The source boxes are listed once, and every box that owns sources is
    among them. *)
Definition source_boxes_ok : bool :=
  nodupb (source_boxes trav)
  && all_below (nboxes t) (source_boxes trav)
  && forallb (fun b =>
       (nth b (box_source_counts_nonchild t) 0 =? 0)%nat
       || memb b (source_boxes trav)) boxes.

(** The source parent boxes are listed level by level, once each, and
    every box from level 2 on that has a child is listed on its level. *)
Definition source_parent_boxes_ok : bool :=
  (nlevels t <=? length (level_start_source_parent_box_nrs trav))%nat
  && forallb (fun lev =>
       let r := level_range (level_start_source_parent_box_nrs trav)
                  (source_parent_boxes trav) lev in
       nodupb r
       && forallb (fun b => (b <? nboxes t)%nat && (box_level b =? lev)%nat) r)
       (seq 2 (nlevels t - 3))
  && forallb (fun b =>
       (box_level b <? 2)%nat
       || match children b with
          | [] => true
          | _ => memb b (level_range (level_start_source_parent_box_nrs trav)
                           (source_parent_boxes trav) (box_level b))
          end) boxes.

(** Every target lies in the range of exactly one listed target box. *)
Definition target_boxes_ok : bool :=
  all_below (nboxes t) (target_boxes trav)
  && (length (target_boxes trav) + 1
      <=? length (starts (neighbor_source_boxes trav)))%nat
  && all_below (nboxes t) (lists (neighbor_source_boxes trav))
  && forallb (fun i =>
       (length (List.filter (fun tb => in_range i (target_range tb))
                  (target_boxes trav)) =? 1)%nat)
       (seq 0 (ntargets t)).

(** The target or target parent boxes are listed level by level, once
    each, with the parent of every listed box from level 2 on, and with
    every target box below the root. *)
Definition target_or_target_parent_boxes_ok : bool :=
  all_below (nboxes t) (target_or_target_parent_boxes trav)
  && (length (target_or_target_parent_boxes trav) + 1
      <=? length (starts (from_sep_siblings trav)))%nat
  && (length (target_or_target_parent_boxes trav) + 1
      <=? length (starts (from_sep_bigger trav)))%nat
  && (nlevels t + 1
      <=? length (level_start_target_or_target_parent_box_nrs trav))%nat
  && forallb (fun lev =>
       let r := level_range (level_start_target_or_target_parent_box_nrs trav)
                  (target_or_target_parent_boxes trav) in
       nodupb (r lev)
       && forallb (fun b => (b <? nboxes t)%nat && (box_level b =? lev)%nat)
            (r lev)
       && ((lev <? 2)%nat
           || forallb (fun b => memb (parent b) (r (lev - 1)%nat)) (r lev)))
       (seq 1 (nlevels t - 1))
  && forallb (fun tb =>
       (box_level tb =? 0)%nat
       || memb tb (level_range
                     (level_start_target_or_target_parent_box_nrs trav)
                     (target_or_target_parent_boxes trav) (box_level tb)))
       (target_boxes trav).

(** The interaction lists name boxes of the tree; those whose multipoles
    are used name boxes from level 2 on; the lists of separated smaller
    boxes are indexed by their own target boxes. *)
Definition interaction_lists_ok : bool :=
  forallb (fun s => (s <? nboxes t)%nat && (2 <=? box_level s)%nat)
    (lists (from_sep_siblings trav))
  && forallb (fun c =>
       forallb (fun s => (s <? nboxes t)%nat && (2 <=? box_level s)%nat)
         (lists c)) (from_sep_smaller_by_level trav)
  && all_below (nboxes t) (lists (from_sep_bigger trav))
  && (length (from_sep_smaller_by_level trav)
      <=? length (target_boxes_sep_smaller_by_source_level trav))%nat
  && forallb (fun tc =>
       all_below (nboxes t) (fst tc)
       && (length (fst tc) + 1 <=? length (starts (snd tc)))%nat)
       (combine (target_boxes_sep_smaller_by_source_level trav)
          (from_sep_smaller_by_level trav)).

Definition traversal_ok : bool :=
  source_boxes_ok && source_parent_boxes_ok && target_boxes_ok
  && target_or_target_parent_boxes_ok && interaction_lists_ok.

(** The source boxes whose own sources reach target [i], with
    multiplicity: the near neighbours of its target box; the subtrees of
    the separated smaller boxes of its target box; and, for its target box
    and each of its ancestors, the subtrees of the well-separated boxes
    and the boxes forming a local expansion directly. *)
Definition covering (i : nat) : list nat :=
  flat_map (fun kt =>
      if in_range i (target_range (snd kt))
      then row (neighbor_source_boxes trav) (fst kt) else [])
    (enumerate (target_boxes trav))
  ++ flat_map (fun ls =>
      flat_map (fun jt =>
          if in_range i (target_range (snd jt))
          then flat_map subtree_of (row (snd ls) (fst jt)) else [])
        (enumerate (nth (fst ls)
                      (target_boxes_sep_smaller_by_source_level trav) [])))
    (enumerate (from_sep_smaller_by_level trav))
  ++ flat_map (fun tb =>
      if in_range i (target_range tb)
      then flat_map (fun a =>
             flat_map (fun qa =>
                 if (snd qa =? a)%nat
                 then flat_map subtree_of (row (from_sep_siblings trav) (fst qa))
                      ++ row (from_sep_bigger trav) (fst qa)
                 else [])
               (enumerate (target_or_target_parent_boxes trav)))
             (ancestors_of tb)
      else [])
    (target_boxes trav).

(** The traversal is complete: for every target, every box that owns
    sources is covered exactly once. *)
Definition complete : bool :=
  forallb (fun i =>
      forallb (fun s =>
          (nth s (box_source_counts_nonchild t) 0 =? 0)%nat
          || (count_occ Nat.eq_dec (covering i) s =? 1)%nat) boxes)
    (seq 0 (ntargets t)).

End Reference.

(** A traversal of [demo_tree].  Targets in boxes 5 and 6 see the sources
    of boxes 5 and 6 directly and those of boxes 4 and 7 through the
    multipole of box 4, translated to box 3; targets in box 7 see box 7
    directly, boxes 5 and 6 through the multipole of box 3 and box 4
    through a local expansion formed at box 7; the target in box 4 sees
    boxes 4 and 7 directly and the rest through the multipole of box 3. *)
Definition demo_traversal : Traversal := {|
  source_boxes := [4; 5; 6; 7]%nat;
  level_start_source_box_nrs := [0; 0; 0; 1; 4]%nat;
  source_parent_boxes := [0; 1; 2; 3; 4]%nat;
  level_start_source_parent_box_nrs := [0; 1; 3; 5; 5]%nat;
  target_boxes := [4; 5; 6; 7]%nat;
  level_start_target_box_nrs := [0; 0; 0; 1; 4]%nat;
  target_or_target_parent_boxes := [0; 1; 2; 3; 4; 5; 6; 7]%nat;
  level_start_target_or_target_parent_box_nrs := [0; 1; 3; 5; 8]%nat;
  neighbor_source_boxes :=
    {| starts := [0; 2; 4; 6; 7]%nat; lists := [4; 7; 5; 6; 5; 6; 7]%nat |};
  from_sep_siblings :=
    {| starts := [0; 0; 0; 0; 1; 1; 1; 1; 1]%nat; lists := [4]%nat |};
  target_boxes_sep_smaller_by_source_level := [[]; []; [4; 7]; []]%nat;
  from_sep_smaller_by_level :=
    [ {| starts := [0]%nat; lists := [] |};
      {| starts := [0]%nat; lists := [] |};
      {| starts := [0; 1; 2]%nat; lists := [3; 3]%nat |};
      {| starts := [0]%nat; lists := [] |} ];
  from_sep_bigger :=
    {| starts := [0; 0; 0; 0; 0; 0; 0; 0; 1]%nat; lists := [4]%nat |}
|}.

(** Sum of the entries of [a] over a list of boxes. *)
Definition sum_over (a : list Z) (l : list nat) : Z :=
  ConstantOne.np_sum (map (fun b => nth b a 0) l).

(** A box is listed on its level, between level 1 and level [upto], in a
    list of boxes with per-level starts. *)
Definition listed_on_level (t : Tree) (lstarts l : list nat) (upto b : nat)
  : Prop :=
  (1 <= box_level t b <= upto)%nat
  /\ In b (level_range lstarts l (box_level t b)).

(** Number of entries and element kind of a potential array. *)
Definition potential_length (p : potential_array) : nat :=
  match p with
  | real_array a => length a
  | complex_array a => length a
  end.

Definition is_real_array (p : potential_array) : bool :=
  match p with
  | real_array _ => true
  | complex_array _ => false
  end.

(** The cumulative offsets as the wrangler computes them, in [np.int32],
    and the condition that the expansions of all levels fit a buffer
    addressed by [np.int32]. *)
Definition code_offsets {C} (w : FMMLibExpansionWrangler C) (sz : nat -> Z)
  : list Z :=
  map wrap32 (level_offsets w sz).

Definition offsets_fit {C} (w : FMMLibExpansionWrangler C) (sz : nat -> Z)
  : Prop :=
  sum_upto (region_size w sz) (nlevels (tree w)) <= 2147483647.

(** A wrangler on [demo_tree] whose orders are [np.int32] numbers, but whose
    expansions do not fit a buffer addressed by [np.int32]: the two boxes
    of level 1 have 2147483646 coefficients each. *)
Definition wrapping_wrangler : FMMLibExpansionWrangler Z := {|
  tree := demo_tree;
  eqn_letter := letter_l;
  kernel_kwargs := None;
  level_nterms := [3; 2147483645; 1; 1];
  dtype := complex128;
  ifgrad := false;
  dim := 2;
  dipole_vec := None;
  dp_suffix := ""
|}.






Section Trace.

Context {C : Type}.
Variable cadd : C -> C -> C.
Variable w : FMMLibExpansionWrangler C.

(** The view of a level of the buffer, the call that a translation makes
    and the routine that it goes through. *)
Variable view_of : list C -> nat -> result (nat * view).
Variable call_of : nat -> nat -> list C -> nat -> nat -> Z -> kcall C.
Variable xlat : kcall C -> M (list C * log C) (list C).


End Trace.


(** * Properties *)

(** ** Generalities *)

Lemma rbind_ok {A B} (m : result A) (k : A -> result B) b :
  rbind m k = Ok b -> exists a, m = Ok a /\ k a = Ok b.
Proof. destruct m; simpl; intros H; [eauto | discriminate]. Qed.

Lemma py_index_ok {A} (a : list A) i x : a !! i = Some x -> py_index a i = Ok x.
Proof. unfold py_index. intros ->. reflexivity. Qed.

Lemma py_index_inv {A} (a : list A) i x : py_index a i = Ok x -> a !! i = Some x.
Proof. unfold py_index. destruct (a !! i); intros H; congruence. Qed.

Lemma py_last_snoc {A} (a : list A) x : py_last (a ++ [x]) = Ok x.
Proof. unfold py_last. rewrite last_snoc. reflexivity. Qed.

Lemma nth_lookup_Some {A} (l : list A) i d x :
  l !! i = Some x -> nth i l d = x.
Proof.
  revert i. induction l as [|y l IH]; intros [|i] H; simpl in *;
    try discriminate; [congruence | auto].
Qed.

Lemma lookup_nth_lt {A} (l : list A) i d :
  (i < length l)%nat -> l !! i = Some (nth i l d).
Proof.
  revert i. induction l as [|y l IH]; intros [|i] H; simpl in *;
    try lia; [reflexivity | apply IH; lia].
Qed.

Lemma lookup_repeat {A} (x : A) n k :
  (k < n)%nat -> repeat x n !! k = Some x.
Proof.
  revert k. induction n as [|n IH]; intros [|k] H; simpl; try lia;
    [reflexivity | apply IH; lia].
Qed.


(** ** Arithmetic of [np.int32] *)

Lemma wrap32_range z : -2147483648 <= wrap32 z <= 2147483647.
Proof.
  unfold wrap32.
  pose proof (Z.mod_pos_bound (z + 2147483648) 4294967296 ltac:(lia)). lia.
Qed.


(** A wrapped number differs from the number by a multiple of [2^32]. *)
Lemma wrap32_spec z : exists q, wrap32 z = z - 4294967296 * q.
Proof.
  exists ((z + 2147483648) / 4294967296). unfold wrap32.
  pose proof (Z.div_mod (z + 2147483648) 4294967296 ltac:(lia)). lia.
Qed.

Lemma wrap32_congr a b q : a = b + 4294967296 * q -> wrap32 a = wrap32 b.
Proof.
  intros ->. unfold wrap32.
  replace (b + 4294967296 * q + 2147483648)
    with (b + 2147483648 + q * 4294967296) by lia.
  rewrite Z.mod_add by lia. reflexivity.
Qed.

Lemma wrap32_add a b : wrap32 (wrap32 a + wrap32 b) = wrap32 (a + b).
Proof.
  destruct (wrap32_spec a) as [q1 ->]. destruct (wrap32_spec b) as [q2 ->].
  apply (wrap32_congr _ _ (- q1 - q2)). lia.
Qed.

Lemma wrap32_mul_l a b : wrap32 (wrap32 a * b) = wrap32 (a * b).
Proof.
  destruct (wrap32_spec a) as [q ->]. apply (wrap32_congr _ _ (- q * b)). lia.
Qed.

Lemma product32_wrap l : product32 l = wrap32 (product l).
Proof.
  unfold product32, product.
  assert (H : forall a b, a = wrap32 b ->
            fold_left (fun a d => wrap32 (a * d)) l a
            = wrap32 (fold_left Z.mul l b)).
  { induction l as [|x l IH]; intros a b Hab; simpl; [exact Hab |].
    apply IH. rewrite Hab. apply wrap32_mul_l. }
  apply H. reflexivity.
Qed.

(** ** Level starts of the expansion storage *)




Section LevelStarts.

Context {C : Type}.
Variable w : FMMLibExpansionWrangler C.
Variable size_of : Z -> result Z.
Variable sz : nat -> Z.

Hypothesis Hboxes :
  (nlevels (tree w) + 1 <= length (level_start_box_nrs (tree w)))%nat.
Hypothesis Hsize : forall lev, (lev < nlevels (tree w))%nat ->
  exists order, level_nterms w !! lev = Some order /\ size_of order = Ok (sz lev).

Lemma level_starts_step_ok acc lev prev :
  (lev < nlevels (tree w))%nat -> py_last acc = Ok prev ->
  level_starts_step w size_of acc lev
  = Ok (acc ++ [wrap32 (prev + wrap32 (region_size w sz lev))]).
Proof.
  intros Hlev Hprev. unfold level_starts_step, region_size, level_nboxes.
  rewrite (py_index_ok _ _ _
             (lookup_nth_lt (level_start_box_nrs (tree w)) (lev + 1) 0%nat
                ltac:(lia))).
  rewrite (py_index_ok _ _ _
             (lookup_nth_lt (level_start_box_nrs (tree w)) lev 0%nat
                ltac:(lia))).
  destruct (Hsize lev Hlev) as (order & Ho & Hs).
  simpl. rewrite (py_index_ok _ _ _ Ho). simpl. rewrite Hs. simpl.
  rewrite Hprev. reflexivity.
Qed.

Lemma level_starts_loop_app levs1 levs2 acc :
  level_starts_loop w size_of (levs1 ++ levs2) acc =
  rbind (level_starts_loop w size_of levs1 acc)
        (level_starts_loop w size_of levs2).
Proof.
  revert acc. induction levs1 as [|lev levs1 IH]; intros acc; simpl; [reflexivity |].
  destruct (level_starts_step w size_of acc lev); simpl; [apply IH | reflexivity].
Qed.

Lemma level_starts_prefix n :
  (n <= nlevels (tree w))%nat ->
  level_starts_loop w size_of (seq 0 n) [0] =
  Ok (map wrap32 (map (sum_upto (region_size w sz)) (seq 0 (S n)))).
Proof.
  induction n as [|n IH]; intros Hn; [reflexivity |].
  rewrite seq_S, level_starts_loop_app, IH by lia.
  cbn [rbind level_starts_loop Nat.add].
  rewrite (level_starts_step_ok _ n (wrap32 (sum_upto (region_size w sz) n)));
    [| lia |].
  - cbn [rbind]. rewrite (seq_S (S n)), !map_app. cbn [map sum_upto].
    rewrite wrap32_add. reflexivity.
  - rewrite seq_S, !map_app. apply py_last_snoc.
Qed.

Lemma expansions_level_starts_eq :
  _expansions_level_starts w size_of = Ok (code_offsets w sz).
Proof. apply level_starts_prefix. lia. Qed.

Lemma level_offsets_length :
  length (level_offsets w sz) = S (nlevels (tree w)).
Proof. unfold level_offsets. rewrite length_map, length_seq. reflexivity. Qed.

Lemma nth_code_offsets lev :
  (lev <= nlevels (tree w))%nat ->
  nth lev (code_offsets w sz) 0 = wrap32 (sum_upto (region_size w sz) lev).
Proof.
  intros H. unfold code_offsets, level_offsets. apply nth_lookup_Some.
  rewrite !list_lookup_fmap, lookup_seq_lt by lia. reflexivity.
Qed.

Hypothesis Hsz : forall lev, (lev < nlevels (tree w))%nat -> 0 <= sz lev.
Hypothesis Hnb : forall lev, (lev < nlevels (tree w))%nat ->
  0 <= level_nboxes (tree w) lev.




End LevelStarts.



(** C2 as stated fails for an order table whose expansions do not fit
    [np.int32]: on [wrapping_wrangler], whose level starts do not decrease
    and whose coefficient counts are 4, 2147483646, 2 and 2, the offsets
    wrap around.  They decrease from level 1 to level 2, the last one is
    not the sum of the region sizes, and position 1 lies in the regions of
    level 0 and of level 2. *)
Lemma expansions_level_starts_wrap :
  _expansions_level_starts wrapping_wrangler (order_to_size wrapping_wrangler)
  = Ok [0; 4; 0; 4; 10]
  /\ nth 2 [0; 4; 0; 4; 10] 0 < nth 1 [0; 4; 0; 4; 10] 0
  /\ sum_upto (region_size wrapping_wrangler
                 (fun lev => nth lev [4; 2147483646; 2; 2] 0))
        (nlevels (tree wrapping_wrangler)) = 4294967306
  /\ in_level_region [0; 4; 0; 4; 10] 0 1
  /\ in_level_region [0; 4; 0; 4; 10] 2 1.
Proof.
  split; [vm_compute; reflexivity |].
  split; [vm_compute; reflexivity |].
  split; [vm_compute; reflexivity |].
  unfold in_level_region. simpl. lia.
Qed.

(** ** Reordering *)

Lemma np_take_spec {A} (a : list A) (ids : list nat) :
  (forall k i, ids !! k = Some i -> (i < length a)%nat) ->
  exists y, np_take a ids = Ok y
            /\ length y = length ids
            /\ forall k i, ids !! k = Some i -> y !! k = a !! i.
Proof.
  unfold np_take. induction ids as [|i ids IH]; intros Hin.
  - exists []. split; [reflexivity |]. split; [reflexivity |].
    intros k i H. discriminate.
  - destruct IH as (y & Hy & Hlen & Hget).
    { intros k j Hk. apply (Hin (S k)). exact Hk. }
    pose proof (Hin 0%nat i eq_refl) as Hi.
    destruct (lookup_lt_is_Some_2 a i Hi) as [x Hx].
    exists (x :: y). simpl. rewrite (py_index_ok _ _ _ Hx). simpl.
    rewrite Hy. simpl. split; [reflexivity |]. split; [congruence |].
    intros [|k] j Hk; simpl in *; [congruence | auto].
Qed.

Lemma np_take_roundtrip {A} (x : list A) (usi sti : list nat) :
  length usi = length x -> length sti = length x ->
  (forall i j, usi !! i = Some j -> (j < length x)%nat) ->
  (forall j, (j < length x)%nat ->
     exists i, sti !! j = Some i /\ usi !! i = Some j) ->
  (y <~ np_take x usi ;; np_take y sti) = Ok x.
Proof.
  intros Hlu Hls Hrange Hinv.
  destruct (np_take_spec x usi Hrange) as (y & Hy & Hleny & Hgety).
  rewrite Hy. cbn [rbind].
  destruct (np_take_spec y sti) as (z & Hz & Hlenz & Hgetz).
  { intros k i Hk. pose proof (lookup_lt_Some _ _ _ Hk) as Hklt.
    destruct (Hinv k ltac:(lia)) as (i' & Hi' & Hu). rewrite Hi' in Hk.
    injection Hk as <-. pose proof (lookup_lt_Some _ _ _ Hu). lia. }
  rewrite Hz. f_equal. apply list_eq. intros j.
  destruct (Nat.lt_ge_cases j (length x)) as [Hj | Hj].
  - destruct (Hinv j Hj) as (i & Hi & Hu).
    rewrite (Hgetz j i Hi), (Hgety i j Hu). reflexivity.
  - rewrite !lookup_ge_None_2 by lia. reflexivity.
Qed.

(** C5, as amended.  When the targets of the tree are its sources, so that
    [sorted_target_ids] inverts [user_source_ids], reordering a vector
    indexed by particle into tree order and back returns the vector; this
    holds for the reorder functions of both wranglers. *)
Theorem reorder_roundtrip (t : Tree) (x : list Z) :
  length (user_source_ids t) = length x ->
  length (sorted_target_ids t) = length x ->
  (forall i j, user_source_ids t !! i = Some j -> (j < length x)%nat) ->
  (forall j, (j < length x)%nat ->
     exists i, sorted_target_ids t !! j = Some i
               /\ user_source_ids t !! i = Some j) ->
  (y <~ ConstantOne.reorder_sources t x ;; ConstantOne.reorder_potentials t y)
    = Ok x
  /\ (y <~ reorder_sources t x ;; reorder_potentials t y) = Ok x.
Proof.
  intros H1 H2 H3 H4. split; apply np_take_roundtrip; assumption.
Qed.

Lemma reorder_roundtrip_witness :
  (y <~ ConstantOne.reorder_sources demo_tree [10; 20; 30; 40; 50; 60] ;;
   ConstantOne.reorder_potentials demo_tree y) = Ok [10; 20; 30; 40; 50; 60].
Proof.
  apply (reorder_roundtrip demo_tree [10; 20; 30; 40; 50; 60]).
  - reflexivity.
  - reflexivity.
  - intros i j H. simpl in *.
    destruct i as [|[|[|[|[|[|i]]]]]]; simpl in H; inversion H; lia.
  - intros j H. simpl in H.
    destruct j as [|[|[|[|[|[|j]]]]]]; try lia; eexists; split; reflexivity.
Defined.

(** C5 as stated fails on a tree with targets of their own. *)
Lemma reorder_roundtrip_separate_targets :
  (y <~ ConstantOne.reorder_sources separate_targets_tree [10; 20; 30] ;;
   ConstantOne.reorder_potentials separate_targets_tree y) = Ok [30; 10; 20]
  /\ (y <~ ConstantOne.reorder_sources separate_targets_tree [10; 20; 30] ;;
      ConstantOne.reorder_potentials separate_targets_tree y)
     <> Ok [10; 20; 30].
Proof. split; [reflexivity | discriminate]. Qed.

(** ** Construction *)

Lemma init_fields {C} (t : Tree) k f ig (dv : option (list (list C))) dr n w :
  init t k f ig dv dr n = Ok w ->
  tree w = t /\ dtype w = complex128 /\ dim w = dimensions t
  /\ eqn_letter w = (if k =? 0 then letter_l else letter_h).
Proof.
  unfold init. intros H.
  destruct (k =? 0);
    destruct n, f; try discriminate;
    match type of H with
    | rbind ?m _ = _ => destruct m; simpl in H; try discriminate
    end;
    destruct (negb (forallb in_int32 _)); try discriminate;
    destruct dv; try (injection H as <-; simpl; auto);
    destruct (shape_is _ _ _); try discriminate;
    destruct dr; simpl in H;
    try (injection H as <-; simpl; auto);
    match type of H with
    | rbind ?m _ = _ => destruct m; simpl in H; try discriminate
    end;
    injection H as <-; simpl; auto.
Qed.

Lemma rmapM_pure {A B} (g : A -> B) (l : list A) :
  rmapM (fun x => Ok (g x)) l = Ok (map g l).
Proof.
  induction l as [|x l IH]; [reflexivity |]. simpl. rewrite IH. reflexivity.
Qed.

Lemma forallb_map_seq (p : Z -> bool) (g : nat -> Z) (n : nat) :
  forallb p (map g (seq 0 n)) = true <->
  forall i, (i < n)%nat -> p (g i) = true.
Proof.
  rewrite forallb_forall. split.
  - intros H i Hi. apply H. apply in_map. apply in_seq. lia.
  - intros H x Hx. apply in_map_iff in Hx as (i & <- & Hi).
    apply in_seq in Hi. apply H. lia.
Qed.

(** C9, as amended.  Giving both [nterms] and [fmm_level_to_nterms] makes
    the constructor raise [TypeError].  The dimensionality is not examined
    by the constructor: with no dipoles and a level-to-order policy whose
    orders are [np.int32] numbers it returns a wrangler for every tree, and
    a dimensionality other than 2 or 3 is rejected with [ValueError] by
    [expansion_shape], when the expansion storage is first sized.  An order
    that is no [np.int32] number makes the constructor raise
    [OverflowError]. *)
Theorem init_errors {C} (t : Tree) (k : Z) (f : Tree -> nat -> Z) (ig : bool) :
  (forall (dv : option (list (list C))) dr n,
     init t k (Some f) ig dv dr (Some n) = Raise TypeError)
  /\ ((forall lev, (lev < nlevels t)%nat -> in_int32 (f t lev) = true) ->
      exists w : FMMLibExpansionWrangler C,
        init t k (Some f) ig None false None = Ok w
        /\ dim w = dimensions t
        /\ level_nterms w = map (f t) (seq 0 (nlevels t))
        /\ (dimensions t <> 2%nat -> dimensions t <> 3%nat ->
            forall nterms, expansion_shape w nterms = Raise ValueError))
  /\ (forall lev, (lev < nlevels t)%nat -> in_int32 (f t lev) = false ->
      forall (dv : option (list (list C))) dr,
        init t k (Some f) ig dv dr None = Raise OverflowError).
Proof.
  split; [reflexivity |].
  split.
  - intros Hf. unfold init. rewrite (rmapM_pure (f t)).
    apply (forallb_map_seq in_int32 (f t)) in Hf.
    destruct (k =? 0); cbn [rbind]; rewrite Hf; cbn [negb];
      (eexists; split; [reflexivity |]; split; [reflexivity |];
       split; [reflexivity |]);
      intros H2 H3 nterms; unfold expansion_shape; cbn [dim eqn_letter];
      destruct (Nat.eqb_spec (dimensions t) 2); try contradiction;
      destruct (Nat.eqb_spec (dimensions t) 3); try contradiction;
      reflexivity.
  - intros lev Hlev Hbad dv dr. unfold init. rewrite (rmapM_pure (f t)).
    assert (Hall : forallb in_int32 (map (f t) (seq 0 (nlevels t))) = false).
    { destruct (forallb in_int32 (map (f t) (seq 0 (nlevels t)))) eqn:E;
        [| reflexivity].
      rewrite (proj1 (forallb_map_seq in_int32 (f t) (nlevels t)) E lev Hlev)
        in Hbad. discriminate. }
    destruct (k =? 0); cbn [rbind]; rewrite Hall; reflexivity.
Qed.

Lemma init_errors_witness :
  init line_tree 0 (Some (fun _ _ => 3)) false None false (Some 3)
    = @Raise (FMMLibExpansionWrangler Z) TypeError
  /\ init line_tree 0 (Some (fun _ _ => 3)) false None false None
     = Ok line_wrangler
  /\ expansion_shape line_wrangler 3 = Raise ValueError
  /\ init line_tree 0 (Some (fun _ _ => 2147483648)) false None false None
     = @Raise (FMMLibExpansionWrangler Z) OverflowError.
Proof.
  destruct (@init_errors Z line_tree 0 (fun _ _ => 3) false)
    as (Hboth & Hok & _).
  destruct Hok as (w & Hw & Hdim & Hord & Hshape); [intros; reflexivity |].
  split; [apply Hboth |]. split; [reflexivity |].
  assert (w = line_wrangler) as ->
    by (vm_compute in Hw; injection Hw as <-; reflexivity).
  split; [apply Hshape; simpl; lia |].
  destruct (@init_errors Z line_tree 0 (fun _ _ => 2147483648) false)
    as (_ & _ & Hbad).
  apply (Hbad 0%nat); [simpl; lia | reflexivity].
Defined.

(** C9 as stated fails: a tree of dimensionality 1 is accepted by the
    constructor. *)
Lemma init_accepts_unsupported_dimension :
  dimensions line_tree <> 2%nat /\ dimensions line_tree <> 3%nat
  /\ init line_tree 0 (Some (fun _ _ => 3)) false None false None
     = Ok line_wrangler.
Proof. repeat split; simpl; lia || reflexivity. Qed.

(** ** Allocation of the expansion buffers *)

Lemma level_starts_loop_nonempty {C} (w : FMMLibExpansionWrangler C) size_of
    levs acc r :
  acc <> [] -> level_starts_loop w size_of levs acc = Ok r -> r <> [].
Proof.
  revert acc. induction levs as [|lev levs IH]; intros acc Hacc H; simpl in H.
  - congruence.
  - apply rbind_ok in H as (acc' & Hstep & Hloop).
    apply (IH acc'); [| exact Hloop].
    unfold level_starts_step in Hstep.
    repeat (apply rbind_ok in Hstep as (? & _ & Hstep)).
    injection Hstep as <-. destruct acc; discriminate.
Qed.

(** C8, as amended.  On a wrangler returned by the constructor, the
    allocators return a zero-filled buffer whose length is the last
    cumulative level offset and whose element type is [complex128], for
    the Laplace as for the Helmholtz kernel family. *)
Theorem expansion_zeros_complex {C} (c0 : C) (t : Tree) k f ig dv dr n
    (w : FMMLibExpansionWrangler C) (starts0 : list Z) :
  init t k f ig dv dr n = Ok w ->
  multipole_expansions_level_starts w = Ok starts0 ->
  exists size,
    py_last starts0 = Ok size
    /\ (0 <= size ->
        multipole_expansion_zeros c0 w
          = Ok {| arr_dtype := complex128;
                  arr_data := repeat c0 (Z.to_nat size) |}
        /\ local_expansion_zeros c0 w
          = Ok {| arr_dtype := complex128;
                  arr_data := repeat c0 (Z.to_nat size) |}).
Proof.
  intros Hinit Hstarts.
  destruct (init_fields _ _ _ _ _ _ _ _ Hinit) as (_ & Hdt & _).
  assert (Hne : starts0 <> []).
  { apply (level_starts_loop_nonempty w (order_to_size w)
             (seq 0 (nlevels (tree w))) [0]); [discriminate | exact Hstarts]. }
  destruct (last starts0) as [size|] eqn:Hlast.
  2: { apply last_None in Hlast. contradiction. }
  exists size. split; [unfold py_last; rewrite Hlast; reflexivity |].
  intros Hsize.
  unfold multipole_expansion_zeros, local_expansion_zeros,
    local_expansions_level_starts, multipole_expansions_level_starts in *.
  rewrite Hstarts.
  cbn [rbind]. unfold py_last. rewrite Hlast. cbn [rbind]. unfold np_zeros.
  destruct (Z.ltb_spec size 0); [lia |]. rewrite Hdt. split; reflexivity.
Qed.

Lemma expansion_zeros_complex_witness :
  multipole_expansion_zeros 0 demo_wrangler
  = Ok {| arr_dtype := complex128; arr_data := repeat 0 24 |}.
Proof.
  destruct (expansion_zeros_complex 0 demo_tree 0 (Some (fun _ _ => 2))
              false None false None demo_wrangler [0; 3; 9; 15; 24]
              eq_refl eq_refl) as (size & Hsize & Hz).
  injection Hsize as <-. apply Hz. lia.
Defined.

(** C8 as stated fails: the buffers of a Laplace wrangler are complex. *)
Lemma laplace_expansion_zeros_not_real :
  init demo_tree 0 (Some (fun _ _ => 2)) false None false None
    = Ok demo_wrangler
  /\ eqn_letter demo_wrangler = letter_l
  /\ (exists a, multipole_expansion_zeros 0 demo_wrangler = Ok a
                /\ arr_dtype a = complex128 /\ arr_dtype a <> float64).
Proof.
  split; [reflexivity |]. split; [reflexivity |].
  eexists. split; [reflexivity |]. split; [reflexivity | discriminate].
Qed.

(** ** Finalization *)

(** C7.  [finalize_potentials] returns the potential multiplied by a
    factor fixed by kernel family and dimensionality, [-1/(2 pi)] for the
    Laplace kernel in two dimensions (after the imaginary part has been
    dropped), [1] for the Helmholtz kernel in two dimensions and
    [1/(4 pi)] in three dimensions; it depends on nothing else. *)
Theorem finalize_potentials_scaling {C} (w : FMMLibExpansionWrangler C)
    (potential : potential_array) :
  (eqn_letter w = letter_l -> dim w = 2%nat ->
   finalize_potentials w potential
   = Ok (np_scale (np_real potential) (-1 / (2 * PI))%R))
  /\ (eqn_letter w = letter_h -> dim w = 2%nat ->
      finalize_potentials w potential = Ok (np_scale potential 1%R))
  /\ (dim w = 3%nat ->
      finalize_potentials w potential
      = Ok (np_scale potential (1 / (4 * PI))%R))
  /\ (forall w' : FMMLibExpansionWrangler C,
        eqn_letter w' = eqn_letter w -> dim w' = dim w ->
        finalize_potentials w' potential = finalize_potentials w potential).
Proof.
  unfold finalize_potentials, scale_factor. repeat split.
  - intros -> ->. reflexivity.
  - intros -> ->. reflexivity.
  - intros ->. destruct (eqn_letter w); reflexivity.
  - intros w' -> ->. reflexivity.
Qed.

Lemma finalize_potentials_scaling_witness :
  finalize_potentials demo_wrangler (complex_array [(1, 2)%R])
  = Ok (real_array [(1 * (-1 / (2 * PI)))%R]).
Proof.
  apply (proj1 (finalize_potentials_scaling demo_wrangler
                  (complex_array [(1, 2)%R]))); reflexivity.
Defined.

Lemma contents_app (h : heap) (p : potential_array) (a : array_object) r :
  contents h a = Ok r -> contents (h ++ [p]) a = Ok r.
Proof.
  destruct a as [b|b]; simpl; intros H.
  - apply py_index_inv in H. apply py_index_ok.
    rewrite lookup_app_l; [exact H | eapply lookup_lt_Some; eauto].
  - apply rbind_ok in H as (q & Hq & Hr). apply py_index_inv in Hq.
    rewrite (py_index_ok (h ++ [p]) b q); [exact Hr |].
    rewrite lookup_app_l; [exact Hq | eapply lookup_lt_Some; eauto].
Qed.

Lemma contents_real_of (h : heap) (a : array_object) :
  contents h (real_of a) = (p <~ contents h a ;; Ok (np_real p)).
Proof.
  destruct a as [b|b]; simpl; [reflexivity |].
  destruct (py_index h b) as [[x|x]|]; reflexivity.
Qed.

(** C10.  [finalize_potentials] leaves every array that exists before the
    call as it was, its argument among them; what it returns is an array
    on a buffer of its own, whose contents are a function of the contents
    of the argument and of the configuration of the wrangler. *)
Theorem finalize_potentials_no_mutation {C} (w : FMMLibExpansionWrangler C)
    (potential : array_object) (h : heap) :
  (forall a r, contents h a = Ok r ->
     contents (snd (finalize_potentials_mem w potential h)) a = Ok r)
  /\ (forall q, fst (finalize_potentials_mem w potential h) = Ok q ->
        q = whole (length h) /\ contents h q = Raise IndexError)
  /\ (forall p, contents h potential = Ok p ->
        (q <~ fst (finalize_potentials_mem w potential h) ;;
         contents (snd (finalize_potentials_mem w potential h)) q)
        = finalize_potentials w p)
  /\ (forall potential2 h2 p,
        contents h potential = Ok p -> contents h2 potential2 = Ok p ->
        (q <~ fst (finalize_potentials_mem w potential2 h2) ;;
         contents (snd (finalize_potentials_mem w potential2 h2)) q)
        = (q <~ fst (finalize_potentials_mem w potential h) ;;
           contents (snd (finalize_potentials_mem w potential h)) q)).
Proof.
  assert (Hval : forall pot hh p, contents hh pot = Ok p ->
    (q <~ fst (finalize_potentials_mem w pot hh) ;;
     contents (snd (finalize_potentials_mem w pot hh)) q)
    = finalize_potentials w p).
  { intros pot hh p Hp.
    unfold finalize_potentials_mem, finalize_potentials, mbind, lift, alloc.
    destruct (scale_factor w) as [s|e]; cbn [rbind fst snd]; [| reflexivity].
    destruct (eqn_eqb (eqn_letter w) letter_l && (dim w =? 2)%nat).
    - rewrite contents_real_of, Hp. cbn [rbind fst snd contents].
      unfold py_index. rewrite lookup_app_r, Nat.sub_diag by lia. reflexivity.
    - rewrite Hp. cbn [rbind fst snd contents].
      unfold py_index. rewrite lookup_app_r, Nat.sub_diag by lia. reflexivity. }
  split; [| split; [| split]].
  - intros a r Ha.
    unfold finalize_potentials_mem, mbind, lift, alloc.
    destruct (scale_factor w) as [s|e]; cbn [fst snd]; [| exact Ha].
    match goal with
    | |- context [match ?c with Ok _ => _ | Raise _ => _ end] =>
      destruct c as [p|e] eqn:Hc
    end; cbn [fst snd]; [| exact Ha].
    apply contents_app. exact Ha.
  - intros q.
    unfold finalize_potentials_mem, mbind, lift, alloc.
    destruct (scale_factor w) as [s|e]; cbn [fst snd]; [| discriminate].
    match goal with
    | |- context [match ?c with Ok _ => _ | Raise _ => _ end] =>
      destruct c as [p|e] eqn:Hc
    end; cbn [fst snd]; [| discriminate].
    intros [= <-]. split; [reflexivity |].
    unfold contents, py_index. rewrite lookup_ge_None_2 by lia. reflexivity.
  - apply Hval.
  - intros potential2 h2 p H1 H2.
    rewrite (Hval _ _ _ H1), (Hval _ _ _ H2). reflexivity.
Qed.

Lemma finalize_potentials_no_mutation_witness :
  contents (snd (finalize_potentials_mem demo_wrangler (whole 0)
                   [complex_array [(1, 2)%R]])) (whole 0)
  = Ok (complex_array [(1, 2)%R])
  /\ fst (finalize_potentials_mem demo_wrangler (whole 0)
            [complex_array [(1, 2)%R]]) = Ok (whole 1).
Proof.
  destruct (finalize_potentials_no_mutation demo_wrangler (whole 0)
              [complex_array [(1, 2)%R]]) as (Hframe & Hfresh & _).
  split.
  - apply Hframe. reflexivity.
  - destruct (Hfresh (whole 1) eq_refl) as [_ _]. reflexivity.
Defined.

(** ** Reasoning about loops in [M] *)

Lemma mbind_inv {S A B} (m : M S A) (k : A -> M S B) s r s2 :
  mbind m k s = (r, s2) ->
  (exists a s1, m s = (Ok a, s1) /\ k a s1 = (r, s2))
  \/ (exists e, m s = (Raise e, s2) /\ r = Raise e).
Proof.
  unfold mbind. destruct (m s) as [[a|e] s1]; intros H.
  - left. eauto.
  - right. exists e. inversion H. auto.
Qed.

Lemma lift_inv {S A} (x : result A) (s : S) r s' :
  lift x s = (r, s') -> r = x /\ s' = s.
Proof. unfold lift. intros [= <- <-]. auto. Qed.

Lemma for_each_inv {S X} (P : S -> Prop) (l : list X) (body : X -> M S unit) :
  (forall x s r s', In x l -> P s -> body x s = (r, s') -> P s') ->
  forall s r s', P s -> for_each l body s = (r, s') -> P s'.
Proof.
  induction l as [|x l IH]; intros Hbody s r s' HP H; simpl in H.
  - inversion H. subst. exact HP.
  - apply mbind_inv in H as [(a & s1 & Hx & Hrest) | (e & Hx & _)].
    + apply (fun Hb => IH Hb s1 r s'); [| | exact Hrest].
      * intros y s0 r0 s0' Hy. apply Hbody. right. exact Hy.
      * eapply Hbody; [left; reflexivity | exact HP | exact Hx].
    + eapply Hbody; [left; reflexivity | exact HP | exact Hx].
Qed.

Lemma for_fold_inv {S X A} (P : S -> Prop) (l : list X)
    (body : A -> X -> M S A) :
  (forall a x s r s', In x l -> P s -> body a x s = (r, s') -> P s') ->
  forall a s r s', P s -> for_fold l a body s = (r, s') -> P s'.
Proof.
  induction l as [|x l IH]; intros Hbody a s r s' HP H; simpl in H.
  - inversion H. subst. exact HP.
  - apply mbind_inv in H as [(a1 & s1 & Hx & Hrest) | (e & Hx & _)].
    + apply (fun Hb => IH Hb a1 s1 r s'); [| | exact Hrest].
      * intros b y s0 r0 s0' Hy. apply Hbody. right. exact Hy.
      * eapply Hbody; [left; reflexivity | exact HP | exact Hx].
    + eapply Hbody; [left; reflexivity | exact HP | exact Hx].
Qed.

(** ** Blocks and views of a flat buffer *)

Section Blocks.

Context {C : Type}.
Implicit Types buf blk : list C.

Lemma write_block_length buf off blk :
  (off + length blk <= length buf)%nat ->
  length (write_block buf off blk) = length buf.
Proof.
  intros H. unfold write_block.
  rewrite !length_app, length_take, length_drop. lia.
Qed.

Lemma write_block_lookup_outside buf off blk k :
  (off + length blk <= length buf)%nat ->
  (k < off \/ off + length blk <= k)%nat ->
  write_block buf off blk !! k = buf !! k.
Proof.
  intros H [Hk | Hk]; unfold write_block.
  - rewrite lookup_app_l by (rewrite length_take; lia).
    apply lookup_take_lt. exact Hk.
  - rewrite lookup_app_r by (rewrite length_take; lia).
    rewrite length_take, Nat.min_l by lia.
    rewrite lookup_app_r by lia.
    rewrite lookup_drop. f_equal. lia.
Qed.

Lemma write_block_agree buf off blk :
  (off + length blk <= length buf)%nat ->
  agree_outside off (off + length blk) buf (write_block buf off blk).
Proof.
  intros H. split; [apply write_block_length; exact H |].
  intros k Hk. apply write_block_lookup_outside; assumption.
Qed.

Lemma write_block_slice buf off blk :
  (off + length blk <= length buf)%nat ->
  py_slice (write_block buf off blk) off (off + length blk) = blk.
Proof.
  intros H. unfold py_slice, write_block.
  rewrite drop_app_length' by (rewrite length_take; lia).
  replace (off + length blk - off)%nat with (length blk) by lia.
  apply take_app_length.
Qed.

Lemma py_slice_length buf a b :
  (b <= length buf)%nat -> length (py_slice buf a b) = (b - a)%nat.
Proof.
  intros H. unfold py_slice. rewrite length_take, length_drop. lia.
Qed.

Lemma py_slice_agree lo hi buf buf' a b :
  agree_outside lo hi buf buf' -> (b <= lo \/ hi <= a)%nat ->
  py_slice buf' a b = py_slice buf a b.
Proof.
  intros [Hlen Hag] Hab. apply list_eq. intros k. unfold py_slice.
  destruct (Nat.lt_ge_cases k (b - a)) as [Hk | Hk].
  - rewrite !lookup_take_lt, !lookup_drop by lia. apply Hag. lia.
  - rewrite !lookup_take_ge by lia. reflexivity.
Qed.

Lemma agree_outside_refl lo hi buf : agree_outside lo hi buf buf.
Proof. split; auto. Qed.

Lemma agree_outside_weaken lo hi lo' hi' buf buf' :
  agree_outside lo hi buf buf' -> (lo' <= lo)%nat -> (hi <= hi')%nat ->
  agree_outside lo' hi' buf buf'.
Proof. intros [Hl Ha] H1 H2. split; [exact Hl |]. intros k Hk. apply Ha. lia. Qed.

Lemma agree_outside_trans lo hi buf1 buf2 buf3 :
  agree_outside lo hi buf1 buf2 -> agree_outside lo hi buf2 buf3 ->
  agree_outside lo hi buf1 buf3.
Proof.
  intros [Hl1 Ha1] [Hl2 Ha2]. split; [congruence |].
  intros k Hk. rewrite Ha2, Ha1 by assumption. reflexivity.
Qed.

Lemma np_index_lt n i j : np_index n i = Ok j -> (j < n)%nat.
Proof.
  unfold np_index.
  destruct (Z.leb_spec 0 i), (Z.ltb_spec i (Z.of_nat n)); simpl;
    try (intros [= <-]; lia);
    destruct (Z.leb_spec (- Z.of_nat n) i), (Z.ltb_spec i 0); simpl;
    try (intros [= <-]; lia); discriminate.
Qed.


Lemma view_offset_bounds (v : view) i off :
  view_offset v i = Ok off ->
  (v_off v <= off /\ off + v_stride v <= v_off v + v_nb v * v_stride v)%nat.
Proof.
  unfold view_offset. intros H. apply rbind_ok in H as (j & Hj & Hoff).
  injection Hoff as <-. apply np_index_lt in Hj. nia.
Qed.

Lemma view_read_length (v : view) i buf blk :
  view_fits v (length buf) -> view_read v i buf = Ok blk ->
  length blk = v_stride v.
Proof.
  unfold view_read, view_fits. intros Hfit H.
  apply rbind_ok in H as (off & Hoff & Hblk). injection Hblk as <-.
  apply view_offset_bounds in Hoff. rewrite py_slice_length; lia.
Qed.

Lemma view_read_agree (v : view) i lo hi buf buf' off :
  agree_outside lo hi buf buf' -> view_offset v i = Ok off ->
  (off + v_stride v <= lo \/ hi <= off)%nat ->
  view_read v i buf' = view_read v i buf.
Proof.
  intros Hag Hoff Hdis. unfold view_read. rewrite Hoff. cbn [rbind].
  f_equal. eapply py_slice_agree; eauto.
Qed.

End Blocks.

Section Views.

Context {C : Type}.
Variable cadd : C -> C -> C.
Implicit Types buf blk : list C.

Lemma slice_bound_le len i : (slice_bound len i <= len)%nat.
Proof. unfold slice_bound. destruct (Z.ltb_spec i 0); lia. Qed.


Lemma fold_left_mul l a : fold_left Z.mul l a = a * fold_left Z.mul l 1.
Proof.
  revert a. induction l as [|y l IH]; intros a; simpl; [lia |].
  rewrite (IH (a * y)), (IH (1 * y)). lia.
Qed.

Lemma product_cons x l : product (x :: l) = x * product l.
Proof. unfold product. simpl. rewrite fold_left_mul. lia. Qed.

Lemma product_nonneg l : forallb (fun d => 0 <=? d) l = true -> 0 <= product l.
Proof.
  induction l as [|x l IH]; simpl; intros H; [unfold product; simpl; lia |].
  apply andb_prop in H as [Hx Hl]. rewrite product_cons.
  apply Z.leb_le in Hx. specialize (IH Hl). nia.
Qed.

Lemma product_subst q dims :
  product (map (fun d => if d =? -1 then q else d) dims)
  = q ^ Z.of_nat (length (List.filter (fun d => d =? -1) dims))
    * product (List.filter (fun d => negb (d =? -1)) dims).
Proof.
  induction dims as [|d dims IH]; [reflexivity |].
  cbn [map List.filter]. rewrite product_cons, IH.
  destruct (d =? -1); cbn [negb length].
  - rewrite Nat2Z.inj_succ, Z.pow_succ_r by lia. lia.
  - rewrite product_cons. lia.
Qed.

Lemma product_filter_id (f : Z -> bool) dims :
  List.filter f dims = [] ->
  List.filter (fun d => negb (f d)) dims = dims.
Proof.
  induction dims as [|d dims IH]; [reflexivity |]. cbn [List.filter].
  destruct (f d); [discriminate |]. cbn [negb]. intros H. f_equal. auto.
Qed.

(** What [np_reshape] returns: the dimensions themselves when none is
    negative, and otherwise the dimensions with the one [-1] among them
    replaced. *)
Lemma np_reshape_cases size dims dims' :
  np_reshape size dims = Ok dims' ->
  List.Forall (fun d => -1 <= d) dims
  /\ ((List.filter (fun d => d =? -1) dims = []
       /\ dims' = dims /\ product dims = size)
      \/ (length (List.filter (fun d => d =? -1) dims) = 1%nat
          /\ 0 < product (List.filter (fun d => negb (d =? -1)) dims)
          /\ size
             = size / product (List.filter (fun d => negb (d =? -1)) dims)
               * product (List.filter (fun d => negb (d =? -1)) dims)
          /\ dims' = map (fun d =>
                       if d =? -1
                       then size / product (List.filter
                                              (fun d => negb (d =? -1)) dims)
                       else d) dims)).
Proof.
  unfold np_reshape.
  destruct (existsb (fun d => d <? -1) dims) eqn:Hneg; [discriminate |].
  assert (Hge : List.Forall (fun d => -1 <= d) dims).
  { apply List.Forall_forall. intros d Hd.
    destruct (Z.ltb_spec d (-1)) as [Hlt|]; [| assumption].
    assert (existsb (fun d => d <? -1) dims = true).
    { apply existsb_exists. exists d. split; [exact Hd |]. apply Z.ltb_lt, Hlt. }
    congruence. }
  intros H. split; [exact Hge |].
  destruct (List.filter (fun d => d =? -1) dims) as [|x [|y r]] eqn:Hw;
    [| | discriminate].
  - left. destruct (Z.eqb_spec (product dims) size); [| discriminate].
    injection H as <-. auto.
  - right.
    destruct (Z.ltb_spec 0 (product (List.filter (fun d => negb (d =? -1)) dims)))
      as [Hpos|]; [| discriminate].
    destruct (Z.eqb_spec
                (size mod product (List.filter (fun d => negb (d =? -1)) dims)) 0)
      as [Hmod|]; [| discriminate].
    cbn [andb] in H. injection H as <-.
    split; [reflexivity |]. split; [exact Hpos |]. split; [| reflexivity].
    pose proof (Z.div_mod size
                  (product (List.filter (fun d => negb (d =? -1)) dims))
                  ltac:(lia)) as Hdm.
    rewrite Hmod in Hdm. lia.
Qed.

Lemma np_reshape_spec size dims dims' :
  0 <= size -> np_reshape size dims = Ok dims' ->
  length dims' = length dims
  /\ List.Forall (fun d => 0 <= d) dims'
  /\ product dims' = size.
Proof.
  intros Hsize H.
  apply np_reshape_cases in H
    as (Hge & [(Hw & -> & Hp) | (Hw & Hpos & Hq & ->)]).
  - split; [reflexivity |]. split; [| exact Hp].
    rewrite List.Forall_forall in *. intros d Hd. specialize (Hge d Hd).
    destruct (Z.eq_dec d (-1)) as [-> | Hne]; [| lia].
    assert (Hin : In (-1) (List.filter (fun d => d =? -1) dims)).
    { apply filter_In. split; [exact Hd | reflexivity]. }
    rewrite Hw in Hin. destruct Hin.
  - split; [apply length_map |]. split.
    + rewrite List.Forall_forall in *. intros d Hd.
      apply in_map_iff in Hd as (d0 & <- & Hd0). specialize (Hge d0 Hd0).
      destruct (Z.eqb_spec d0 (-1)); [| lia].
      apply Z.div_pos; lia.
    + rewrite product_subst, Hw. cbn [length]. lia.
Qed.

(** With dimensions that are not negative there is nothing to infer. *)
Lemma np_reshape_nonneg size dims :
  List.Forall (fun d => 0 <= d) dims ->
  np_reshape size dims
  = if product dims =? size then Ok dims else Raise ValueError.
Proof.
  intros Hge. unfold np_reshape.
  assert (H1 : existsb (fun d => d <? -1) dims = false).
  { destruct (existsb (fun d => d <? -1) dims) eqn:E; [| reflexivity].
    apply existsb_exists in E as (d & Hd & Hlt). apply Z.ltb_lt in Hlt.
    rewrite List.Forall_forall in Hge. specialize (Hge d Hd). lia. }
  assert (H2 : List.filter (fun d => d =? -1) dims = []).
  { destruct (List.filter (fun d => d =? -1) dims) as [|x r] eqn:E;
      [reflexivity |].
    assert (Hin : In x (List.filter (fun d => d =? -1) dims))
      by (rewrite E; left; reflexivity).
    apply filter_In in Hin as [Hd Hx]. apply Z.eqb_eq in Hx.
    rewrite List.Forall_forall in Hge. specialize (Hge x Hd). lia. }
  rewrite H1, H2. reflexivity.
Qed.

Lemma reshape_view_spec len s e nb shape v :
  reshape_view len s e nb shape = Ok v ->
  v_off v = slice_bound len s
  /\ (v_off v + v_nb v * v_stride v
      = slice_bound len s + (slice_bound len e - slice_bound len s))%nat
  /\ view_fits v len.
Proof.
  unfold reshape_view, view_fits. intros H.
  apply rbind_ok in H as (dims & Hdims & H). injection H as <-.
  cbn [v_off v_nb v_stride].
  apply np_reshape_spec in Hdims as (Hlen & Hge & Hprod); [| lia].
  destruct dims as [|nb' shape']; [discriminate |]. cbn [hd tl].
  apply List.Forall_cons_iff in Hge as [Hnb Hshape].
  assert (Hsh : 0 <= product shape').
  { apply product_nonneg. apply forallb_forall. intros d Hd.
    apply Z.leb_le. rewrite List.Forall_forall in Hshape. auto. }
  rewrite product_cons in Hprod.
  assert (Hmul : (Z.to_nat nb' * Z.to_nat (product shape')
                  = slice_bound len e - slice_bound len s)%nat) by nia.
  pose proof (slice_bound_le len s). pose proof (slice_bound_le len e).
  split; [reflexivity |]. split; lia.
Qed.

Lemma unpack2_slice {A} (l : list A) i a b :
  unpack2 (py_slice l i (i + 2)) = Ok (a, b) ->
  l !! i = Some a /\ l !! (i + 1)%nat = Some b.
Proof.
  unfold py_slice. replace (i + 2 - i)%nat with 2%nat by lia. intros H.
  assert (Hd : drop i l !! 0%nat = Some a /\ drop i l !! 1%nat = Some b).
  { destruct (drop i l) as [|x [|y [|z r]]]; simpl in H; try discriminate;
      injection H as <- <-; auto. }
  rewrite !lookup_drop, Nat.add_0_r in Hd. exact Hd.
Qed.

Lemma expansions_view_inv (w : FMMLibExpansionWrangler C) starts0 len lev bs v :
  expansions_view w (Ok starts0) len lev = Ok (bs, v) ->
  exists b2 e1 e2 order shape,
    level_start_box_nrs (tree w) !! lev = Some bs
    /\ level_start_box_nrs (tree w) !! (lev + 1)%nat = Some b2
    /\ starts0 !! lev = Some e1 /\ starts0 !! (lev + 1)%nat = Some e2
    /\ level_nterms w !! lev = Some order
    /\ expansion_shape w order = Ok shape
    /\ reshape_view len e1 e2 (Z.of_nat b2 - Z.of_nat bs) shape = Ok v.
Proof.
  unfold expansions_view. intros H.
  apply rbind_ok in H as ([b1 b2] & Hb & H). apply unpack2_slice in Hb as [Hb1 Hb2].
  apply rbind_ok in H as (ls & Hls & H). injection Hls as <-.
  apply rbind_ok in H as ([e1 e2] & He & H). apply unpack2_slice in He as [He1 He2].
  apply rbind_ok in H as (order & Ho & H). apply py_index_inv in Ho.
  apply rbind_ok in H as (shape & Hs & H).
  apply rbind_ok in H as (v' & Hv & H). injection H as <- <-.
  exists b2, e1, e2, order, shape. auto 10.
Qed.

Lemma expansions_view_spec (w : FMMLibExpansionWrangler C) starts0 len lev bs v :
  expansions_view w (Ok starts0) len lev = Ok (bs, v) ->
  level_start_box_nrs (tree w) !! lev = Some bs
  /\ (lev + 1 < length starts0)%nat
  /\ v_off v = slice_bound len (nth lev starts0 0)
  /\ (v_off v + v_nb v * v_stride v
      = slice_bound len (nth lev starts0 0%Z)
        + (slice_bound len (nth (lev + 1) starts0 0%Z)
           - slice_bound len (nth lev starts0 0%Z)))%nat
  /\ view_fits v len.
Proof.
  unfold expansions_view. intros H.
  apply rbind_ok in H as ([b1 b2] & Hb & H). apply unpack2_slice in Hb as [Hb1 _].
  apply rbind_ok in H as (ls & Hls & H). injection Hls as <-.
  apply rbind_ok in H as ([e1 e2] & He & H). apply unpack2_slice in He as [He1 He2].
  apply rbind_ok in H as (order & _ & H).
  apply rbind_ok in H as (shape & _ & H).
  apply rbind_ok in H as (v' & Hv & H). injection H as <- <-.
  apply reshape_view_spec in Hv as (Hoff & Hend & Hfit).
  rewrite (nth_lookup_Some _ _ 0 _ He1), (nth_lookup_Some _ _ 0 _ He2).
  apply lookup_lt_Some in He2. auto.
Qed.

Lemma view_iadd_effect {L} (v : view) i blk buf (lg : L) r buf' lg' :
  view_fits v (length buf) ->
  view_iadd cadd v i blk (buf, lg) = (r, (buf', lg')) ->
  lg' = lg
  /\ ((exists e, r = Raise e /\ buf' = buf)
      \/ (exists off old,
            r = Ok tt /\ view_offset v i = Ok off
            /\ view_read v i buf = Ok old
            /\ view_read v i buf' = Ok (zip_with cadd old blk)
            /\ agree_outside off (off + v_stride v) buf buf')).
Proof.
  intros Hfit. unfold view_iadd.
  destruct (view_read v i buf) as [old|e] eqn:Hread; cbn [rbind].
  2: { intros [= <- <- <-]. split; [reflexivity |]. left. eauto. }
  unfold vec_add. destruct (Nat.eqb_spec (length old) (length blk)) as [Hlen|Hlen].
  2: { intros [= <- <- <-]. split; [reflexivity |]. left. eauto. }
  pose proof Hread as Hread'. unfold view_read in Hread'.
  destruct (view_offset v i) as [off|e] eqn:Hoff; [| discriminate].
  intros [= <- <- <-]. split; [reflexivity |]. right. exists off, old.
  pose proof (view_read_length v i buf old Hfit Hread) as Hold.
  pose proof (view_offset_bounds v i off Hoff) as [Hlo Hhi].
  assert (Hzl : length (zip_with cadd old blk) = v_stride v).
  { rewrite length_zip_with. lia. }
  unfold view_fits in Hfit.
  repeat split; try reflexivity.
  - unfold view_read. rewrite Hoff. cbn [rbind]. f_equal.
    rewrite <- Hzl at 1. apply write_block_slice. lia.
  - apply write_block_length. lia.
  - intros k Hk. apply write_block_lookup_outside; lia.
Qed.

Lemma view_assign_effect {L} (v : view) i blk buf (lg : L) r buf' lg' :
  view_fits v (length buf) ->
  view_assign v i blk (buf, lg) = (r, (buf', lg')) ->
  lg' = lg
  /\ ((exists e, r = Raise e /\ buf' = buf)
      \/ (exists off,
            r = Ok tt /\ view_offset v i = Ok off
            /\ view_read v i buf' = Ok blk
            /\ agree_outside off (off + v_stride v) buf buf')).
Proof.
  intros Hfit. unfold view_assign.
  destruct (view_offset v i) as [off|e] eqn:Hoff.
  2: { intros [= <- <- <-]. split; [reflexivity |]. left. eauto. }
  destruct (Nat.eqb_spec (length blk) (v_stride v)) as [Hlen|Hlen].
  2: { intros [= <- <- <-]. split; [reflexivity |]. left. eauto. }
  intros [= <- <- <-]. split; [reflexivity |]. right. exists off.
  pose proof (view_offset_bounds v i off Hoff) as [Hlo Hhi].
  unfold view_fits in Hfit.
  repeat split; try reflexivity.
  - unfold view_read. rewrite Hoff. cbn [rbind]. f_equal.
    rewrite <- Hlen at 1. apply write_block_slice. lia.
  - apply write_block_length. lia.
  - intros k Hk. apply write_block_lookup_outside; lia.
Qed.

Lemma translation_routine_kernel_only {X} get_routine
    (w : FMMLibExpansionWrangler C) name suffix
    (f : kcall C -> M (X * log C) (list C)) :
  get_translation_routine get_routine w name suffix = Ok f ->
  calls_kernel_only f.
Proof.
  unfold get_translation_routine. intros H.
  apply rbind_ok in H as (rout & _ & H).
  destruct (dim w =? 2)%nat; injection H as <-; intros k x lg;
    unfold mbind, invoke, mret, lift; cbn.
  - eauto.
  - destruct (k_ier (rout k) =? 0); eauto.
Qed.

End Views.

(** ** Rules for [preserves] *)

Section Preserves.

Context {S : Type}.
Variable P : S -> Prop.

Lemma pres_ret {A} (Q : A -> Prop) a : Q a -> preserves P Q (mret a).
Proof. intros HQ s r s' HP [= <- <-]. split; [exact HP | congruence]. Qed.

Lemma pres_lift {A} (Q : A -> Prop) (x : result A) :
  (forall a, x = Ok a -> Q a) -> preserves P Q (lift x).
Proof. intros HQ s r s' HP [= <- <-]. split; [exact HP | exact HQ]. Qed.

Lemma pres_bind {A B} (Q1 : A -> Prop) (Q : B -> Prop) (m : M S A)
    (k : A -> M S B) :
  preserves P Q1 m -> (forall a, Q1 a -> preserves P Q (k a)) ->
  preserves P Q (mbind m k).
Proof.
  intros Hm Hk s r s' HP H.
  apply mbind_inv in H as [(a & s1 & Hms & Hks) | (e & Hms & ->)].
  - destruct (Hm _ _ _ HP Hms) as [HP1 HQ1].
    apply (Hk a (HQ1 a eq_refl) s1 r s' HP1 Hks).
  - destruct (Hm _ _ _ HP Hms) as [HP1 _]. split; [exact HP1 | discriminate].
Qed.

Lemma pres_weaken {A} (Q Q' : A -> Prop) (m : M S A) :
  preserves P Q m -> (forall a, Q a -> Q' a) -> preserves P Q' m.
Proof.
  intros Hm HQ s r s' HP H. destruct (Hm _ _ _ HP H) as [HP' Hr].
  split; [exact HP' | intros a Ha; apply HQ, Hr, Ha].
Qed.

Lemma pres_for_each {X} (l : list X) (body : X -> M S unit) :
  (forall x, In x l -> preserves P (fun _ => True) (body x)) ->
  preserves P (fun _ => True) (for_each l body).
Proof.
  intros Hbody s r s' HP H. split; [| auto].
  apply (for_each_inv P l body) with (s := s) (r := r); [| exact HP | exact H].
  intros x s0 r0 s0' Hx HP0 H0. apply (Hbody x Hx s0 r0 s0' HP0 H0).
Qed.

Lemma pres_for_fold {X A} (l : list X) (a : A) (body : A -> X -> M S A) :
  (forall b x, In x l -> preserves P (fun _ => True) (body b x)) ->
  preserves P (fun _ => True) (for_fold l a body).
Proof.
  intros Hbody s r s' HP H. split; [| auto].
  apply (for_fold_inv P l body) with (a := a) (s := s) (r := r);
    [| exact HP | exact H].
  intros b x s0 r0 s0' Hx HP0 H0. apply (Hbody b x Hx s0 r0 s0' HP0 H0).
Qed.

End Preserves.

(** ** Where the views of a valid tree lie *)

Section Storage.

Context {C : Type}.
Variable w : FMMLibExpansionWrangler C.
Variable sz : nat -> Z.

Hypothesis Hboxes :
  (nlevels (tree w) + 1 <= length (level_start_box_nrs (tree w)))%nat.
Hypothesis Hsize : forall lev, (lev < nlevels (tree w))%nat ->
  exists order, level_nterms w !! lev = Some order
                /\ order_to_size w order = Ok (sz lev).
Hypothesis Hsz : forall lev, (lev < nlevels (tree w))%nat -> 0 <= sz lev.
Hypothesis Hnb : forall lev, (lev < nlevels (tree w))%nat ->
  0 <= level_nboxes (tree w) lev.

Lemma multipole_level_starts_eq :
  multipole_expansions_level_starts w = Ok (code_offsets w sz).
Proof. apply expansions_level_starts_eq; assumption. Qed.

Lemma code_offsets_length :
  length (code_offsets w sz) = S (nlevels (tree w)).
Proof. unfold code_offsets. rewrite length_map. apply level_offsets_length. Qed.

(** With coefficient counts and box counts that are not negative, no
    dimension of a view that exists is inferred: the slice has as many
    entries as the boxes of the level have coefficients. *)
Lemma view_dims len lev bs v :
  expansions_view w (Ok (code_offsets w sz)) len lev = Ok (bs, v) ->
  (lev < nlevels (tree w))%nat
  /\ exists order shape,
       level_nterms w !! lev = Some order
       /\ expansion_shape w order = Ok shape
       /\ List.Forall (fun d => 0 <= d) shape
       /\ sz lev = wrap32 (product shape)
       /\ level_nboxes (tree w) lev * product shape
          = Z.of_nat (slice_bound len (nth (lev + 1) (code_offsets w sz) 0)
                      - slice_bound len (nth lev (code_offsets w sz) 0)).
Proof.
  intros H.
  apply expansions_view_inv in H
    as (b2 & e1 & e2 & order & shape & Hb1 & Hb2 & He1 & He2 & Ho & Hs & Hv).
  assert (Hlev : (lev < nlevels (tree w))%nat).
  { apply lookup_lt_Some in He2. rewrite code_offsets_length in He2. lia. }
  split; [exact Hlev |]. exists order, shape.
  destruct (Hsize lev Hlev) as (order' & Ho' & Hsz').
  assert (order' = order) as -> by congruence.
  unfold order_to_size in Hsz'. rewrite Hs in Hsz'. cbn [rbind] in Hsz'.
  injection Hsz' as Hsz'. rewrite product32_wrap in Hsz'.
  pose proof (Hsz lev Hlev) as Hpos. pose proof (Hnb lev Hlev) as Hnbl.
  unfold level_nboxes in *.
  rewrite (nth_lookup_Some _ _ 0%nat _ Hb1), (nth_lookup_Some _ _ 0%nat _ Hb2)
    in *.
  rewrite (nth_lookup_Some _ _ 0 _ He1), (nth_lookup_Some _ _ 0 _ He2).
  unfold reshape_view in Hv. apply rbind_ok in Hv as (dims & Hdims & _).
  apply np_reshape_cases in Hdims
    as (Hge & [(Hw & -> & Hp) | (Hw & Hknown & _ & _)]).
  - assert (Hall : List.Forall (fun d => 0 <= d) (Z.of_nat b2 - Z.of_nat bs :: shape)).
    { rewrite List.Forall_forall in *. intros d Hd. specialize (Hge d Hd).
      destruct (Z.eq_dec d (-1)) as [-> | Hne]; [| lia].
      assert (Hin : In (-1) (List.filter (fun d => d =? -1)
                               (Z.of_nat b2 - Z.of_nat bs :: shape))).
      { apply filter_In. split; [exact Hd | reflexivity]. }
      rewrite Hw in Hin. destruct Hin. }
    apply List.Forall_cons_iff in Hall as [_ Hall].
    rewrite product_cons in Hp. auto.
  - exfalso. cbn [List.filter] in Hw, Hknown.
    destruct (Z.eqb_spec (Z.of_nat b2 - Z.of_nat bs) (-1)) as [|_]; [lia |].
    cbn [negb] in Hknown. rewrite product_cons in Hknown.
    apply List.Forall_cons_iff in Hge as [_ Hge].
    unfold expansion_shape in Hs.
    destruct ((dim w =? 2)%nat && eqn_eqb (eqn_letter w) letter_l);
      [| destruct ((dim w =? 2)%nat && eqn_eqb (eqn_letter w) letter_h);
         [| destruct (dim w =? 3)%nat; [| discriminate]]];
      injection Hs as <-; cbn [List.filter] in Hw, Hknown.
    + destruct (Z.eqb_spec (wrap32 (order + 1)) (-1)) as [E|_];
        [| discriminate].
      rewrite E in Hsz'. vm_compute in Hsz'. lia.
    + destruct (Z.eqb_spec (wrap32 (wrap32 (2 * order) + 1)) (-1)) as [E|_];
        [| discriminate].
      rewrite E in Hsz'. vm_compute in Hsz'. lia.
    + destruct (wrap32_spec (2 * order)) as [q0 E0].
      destruct (wrap32_spec (wrap32 (2 * order) + 1)) as [q1 E1].
      destruct (wrap32_spec (order + 1)) as [q2 E2].
      pose proof (wrap32_range (wrap32 (2 * order) + 1)) as R1.
      pose proof (wrap32_range (order + 1)) as R2.
      apply List.Forall_cons_iff in Hge as [Ha Hge].
      apply List.Forall_cons_iff in Hge as [Hb _].
      destruct (Z.eqb_spec (wrap32 (wrap32 (2 * order) + 1)) (-1)) as [Ea|Na];
        destruct (Z.eqb_spec (wrap32 (order + 1)) (-1)) as [Eb|Nb];
        cbn [negb length] in Hw, Hknown; try discriminate.
      * rewrite product_cons in Hknown.
        change (product []) with 1 in Hknown.
        assert (0 < wrap32 (order + 1)) by nia. lia.
      * lia.
Qed.

(** The views of successive levels follow one another in the buffer, as
    far as they exist. *)
Lemma view_advances len lev bs v :
  expansions_view w (Ok (code_offsets w sz)) len lev = Ok (bs, v) ->
  (slice_bound len (nth lev (code_offsets w sz) 0%Z)
   <= slice_bound len (nth (lev + 1) (code_offsets w sz) 0%Z))%nat.
Proof.
  intros H. apply view_dims in H
    as (Hlev & order & shape & _ & _ & _ & Hsz' & Hprod).
  destruct (Nat.le_gt_cases
              (slice_bound len (nth lev (code_offsets w sz) 0))
              (slice_bound len (nth (lev + 1) (code_offsets w sz) 0)))
    as [Hle | Hgt]; [exact Hle | exfalso].
  replace (slice_bound len (nth (lev + 1) (code_offsets w sz) 0%Z)
           - slice_bound len (nth lev (code_offsets w sz) 0%Z))%nat
    with 0%nat in Hprod by lia.
  assert (Hreg : region_size w sz lev = 0).
  { unfold region_size. rewrite Hsz'.
    apply Z.eq_mul_0 in Hprod as [-> | ->]; [lia |]. reflexivity. }
  revert Hgt. rewrite !nth_code_offsets by lia.
  replace (lev + 1)%nat with (S lev) by lia. cbn [sum_upto].
  rewrite Hreg, Z.add_0_r. lia.
Qed.

(** The view of level [lev] covers exactly the positions between the
    (clipped) offsets of the level and of the next. *)
Lemma multipole_view_location (buf : list C) lev bs v :
  multipole_expansions_view w buf lev = Ok (bs, v) ->
  (lev < nlevels (tree w))%nat
  /\ level_start_box_nrs (tree w) !! lev = Some bs
  /\ v_off v = slice_bound (length buf) (nth lev (code_offsets w sz) 0)
  /\ (v_off v + v_nb v * v_stride v)%nat
     = slice_bound (length buf) (nth (lev + 1) (code_offsets w sz) 0)
  /\ view_fits v (length buf).
Proof.
  unfold multipole_expansions_view. rewrite multipole_level_starts_eq.
  intros H. pose proof (view_advances _ _ _ _ H) as Hadv.
  apply expansions_view_spec in H as (Hbs & Hlt & Hoff & Hend & Hfit).
  rewrite code_offsets_length in Hlt.
  repeat split; try assumption; lia.
Qed.

Lemma local_view_location (buf : list C) lev bs v :
  local_expansions_view w buf lev = Ok (bs, v) ->
  (lev < nlevels (tree w))%nat
  /\ level_start_box_nrs (tree w) !! lev = Some bs
  /\ v_off v = slice_bound (length buf) (nth lev (code_offsets w sz) 0)
  /\ (v_off v + v_nb v * v_stride v)%nat
     = slice_bound (length buf) (nth (lev + 1) (code_offsets w sz) 0)
  /\ view_fits v (length buf).
Proof. apply multipole_view_location. Qed.

End Storage.

(** ** Views that exist lie within the buffer *)

Lemma multipole_view_fits {C} (w : FMMLibExpansionWrangler C) (buf : list C)
    lev bs v :
  multipole_expansions_view w buf lev = Ok (bs, v) -> view_fits v (length buf).
Proof.
  unfold multipole_expansions_view.
  destruct (multipole_expansions_level_starts w) as [starts0|e].
  - intros H. apply expansions_view_spec in H. tauto.
  - unfold expansions_view. destruct (unpack2 _) as [[a b]|e']; discriminate.
Qed.


Section StorageFit.

Context {C : Type}.
Variable w : FMMLibExpansionWrangler C.
Variable sz : nat -> Z.

Hypothesis Hboxes :
  (nlevels (tree w) + 1 <= length (level_start_box_nrs (tree w)))%nat.
Hypothesis Hsize : forall lev, (lev < nlevels (tree w))%nat ->
  exists order, level_nterms w !! lev = Some order
                /\ order_to_size w order = Ok (sz lev).
Hypothesis Hsz : forall lev, (lev < nlevels (tree w))%nat -> 0 <= sz lev.
Hypothesis Hnb : forall lev, (lev < nlevels (tree w))%nat ->
  0 <= level_nboxes (tree w) lev.
Hypothesis Hfit : offsets_fit w sz.


End StorageFit.

(** ** Translations traced through a pass *)

Lemma lift_ok {S A} (x : result A) (s : S) a s' :
  lift x s = (Ok a, s') -> x = Ok a /\ s' = s.
Proof. unfold lift. intros [= -> <-]. auto. Qed.

Ltac bind_ok H x s1 H1 :=
  apply mbind_inv in H as [(x & s1 & H1 & H) | (? & _ & ?)];
  [| discriminate].





Section TraceRules.

Context {C : Type}.
Variable cadd : C -> C -> C.
Variable w : FMMLibExpansionWrangler C.
Variable call_of : nat -> nat -> list C -> nat -> nat -> Z -> kcall C.
Variable xlat : kcall C -> M (list C * log C) (list C).

Hypothesis Hxlat : calls_kernel_only xlat.





End TraceRules.

(** ** [coarsen_multipoles] *)


Section Coarsen.

Context {C : Type}.
Variable cadd : C -> C -> C.
Variable get_routine :
  FMMLibExpansionWrangler C -> string -> string -> result (routine C).
Variable w : FMMLibExpansionWrangler C.
Variable sz : nat -> Z.

Hypothesis Hboxes :
  (nlevels (tree w) + 1 <= length (level_start_box_nrs (tree w)))%nat.
Hypothesis Hsize : forall lev, (lev < nlevels (tree w))%nat ->
  exists order, level_nterms w !! lev = Some order
                /\ order_to_size w order = Ok (sz lev).
Hypothesis Hsz : forall lev, (lev < nlevels (tree w))%nat -> 0 <= sz lev.
Hypothesis Hnb : forall lev, (lev < nlevels (tree w))%nat ->
  0 <= level_nboxes (tree w) lev.
Hypothesis Hfit : offsets_fit w sz.

Variable buf0 : list C.

(** First position of the region of level 2. *)
Let bound : nat := slice_bound (length buf0) (nth 2 (level_offsets w sz) 0).








End Coarsen.

Section CoarsenTrace.

Context {C : Type}.
Variable cadd : C -> C -> C.
Variable w : FMMLibExpansionWrangler C.
Variable mpmp : kcall C -> M (list C * log C) (list C).
Variables lssp spb : list nat.

Hypothesis Hk : calls_kernel_only mpmp.





End CoarsenTrace.



Lemma demo_wrangler_sizes :
  (nlevels (tree demo_wrangler) + 1
   <= length (level_start_box_nrs (tree demo_wrangler)))%nat
  /\ (forall lev, (lev < nlevels (tree demo_wrangler))%nat ->
        exists order, level_nterms demo_wrangler !! lev = Some order
                      /\ order_to_size demo_wrangler order = Ok 3)
  /\ (forall lev, (lev < nlevels (tree demo_wrangler))%nat ->
        0 <= level_nboxes (tree demo_wrangler) lev)
  /\ offsets_fit demo_wrangler (fun _ => 3).
Proof.
  split; [simpl; lia |]. split; [| split].
  - intros lev Hlev. exists 2. simpl in Hlev.
    destruct lev as [|[|[|[|lev]]]]; try lia; split; reflexivity.
  - intros lev Hlev. simpl in Hlev.
    destruct lev as [|[|[|[|lev]]]]; try lia; vm_compute; discriminate.
  - vm_compute. discriminate.
Defined.



(** C4 as stated fails when the expansions do not fit [np.int32]: on
    [wrapping_wrangler] the offset of level 2 wraps around to 0, the view of
    level 2 lies over the view of the root, and coarsening from level 3
    changes the coefficients of the root. *)
Lemma coarsen_multipoles_wraps :
  multipole_expansions_view wrapping_wrangler [1; 2; 3; 4; 5; 6; 7; 8; 9; 10] 0
  = Ok (0%nat, {| v_off := 0; v_nb := 1; v_stride := 4 |})
  /\ view_read {| v_off := 0; v_nb := 1; v_stride := 4 |} 0
       [1; 2; 3; 4; 5; 6; 7; 8; 9; 10] = Ok [1; 2; 3; 4]
  /\ coarsen_multipoles Z.add echo_routines wrapping_wrangler
       [0; 1; 3; 5; 5]%nat [0; 1; 2; 3; 4]%nat
       ([1; 2; 3; 4; 5; 6; 7; 8; 9; 10], [])
     = (Ok tt,
        ([13; 16; 12; 14; 5; 6; 7; 8; 9; 10],
         [call_mpmp 3 5 [5; 6] 2 3 1;
          call_mpmp 3 6 [7; 8] 2 3 1;
          call_mpmp 3 7 [9; 10] 2 4 1]))
  /\ view_read {| v_off := 0; v_nb := 1; v_stride := 4 |} 0
       [13; 16; 12; 14; 5; 6; 7; 8; 9; 10] = Ok [13; 16; 12; 14].
Proof. repeat split; vm_compute; reflexivity. Qed.

(** ** Boxes with an empty particle range *)

Section EmptyRanges.

Context {C : Type}.
Variable c0 : C.
Variable cadd : C -> C -> C.
Variable dipstr2 : C -> C -> C -> C.
Variable w : FMMLibExpansionWrangler C.









End EmptyRanges.

(** The writes of [form_multipoles] go through views and keep the length
    of the buffer. *)
Lemma form_multipoles_loop_length {C} (dipstr2 : C -> C -> C -> C)
    (w : FMMLibExpansionWrangler C)
    (level_start_source_box_nrs source_boxes : list nat) (buf0 : list C)
    formmp src_weights lg r buf' lg' :
  for_each (seq 0 (nlevels (tree w)))
    (form_multipoles_level dipstr2 w formmp level_start_source_box_nrs
       source_boxes src_weights) (buf0, lg) = (r, (buf', lg')) ->
  length buf' = length buf0.
Proof.
  intros Hrun.
  set (P := fun s : list C * log C => length (fst s) = length buf0).
  assert (Hget : preserves P (fun m : list C => length m = length buf0) get_buf).
  { intros s r0 s' HP [= <- <-]. split; [exact HP |]. intros a [= <-]. exact HP. }
  destruct (pres_for_each P (seq 0 (nlevels (tree w)))
              (form_multipoles_level dipstr2 w formmp
                 level_start_source_box_nrs source_boxes src_weights))
    with (s := (buf0, lg)) (r := r) (s' := (buf', lg')) as [Hl _];
    [| reflexivity | exact Hrun | exact Hl].
  intros l _. unfold form_multipoles_level.
  eapply pres_bind; [apply pres_lift; intros; exact I |].
  intros [start stop] _.
  destruct (start =? stop)%nat; [apply pres_ret; exact I |].
  eapply pres_bind; [exact Hget |]. intros mp Hmp. cbn beta in Hmp.
  eapply pres_bind.
  { apply (pres_lift _ (fun lv => view_fits (snd lv) (length buf0))).
    intros [bs' v'] Hv'. apply multipole_view_fits in Hv'.
    rewrite Hmp in Hv'. exact Hv'. }
  intros [bs' v'] Hvfit. cbn [snd] in Hvfit.
  apply pres_for_each. intros src _. unfold form_multipoles_box.
  eapply pres_bind; [apply pres_lift; intros; exact I |]. intros p _.
  destruct (slice_len p =? 0)%nat; [apply pres_ret; exact I |].
  eapply pres_bind; [apply pres_lift; intros; exact I |]. intros kw _.
  eapply pres_bind; [apply pres_lift; intros; exact I |]. intros cc _.
  eapply pres_bind; [apply pres_lift; intros; exact I |]. intros nt _.
  eapply pres_bind.
  { apply (pres_weaken P (fun _ : kernel_out C => True) (fun _ => True));
      [| auto].
    intros [bf lg0] r0 s' HP [= <- <-]. split; [exact HP | auto]. }
  intros o _.
  destruct (negb (k_ier o =? 0)); [apply pres_lift; intros; exact I |].
  intros [bf lg0] r0 [bf' lg0'] HP H. unfold P in *. cbn [fst] in *.
  split; [| auto]. rewrite <- HP in Hvfit.
  apply view_assign_effect in H
    as [_ [(e & _ & ->) | (off' & _ & _ & _ & [Hl _])]];
    [exact HP | congruence | exact Hvfit].
Qed.

Section FormMultipolesZero.

Context {C : Type}.
Variable c0 : C.
Variable dipstr2 : C -> C -> C -> C.
Variable w : FMMLibExpansionWrangler C.
Variable sz : nat -> Z.

Hypothesis Hboxes :
  (nlevels (tree w) + 1 <= length (level_start_box_nrs (tree w)))%nat.
Hypothesis Hsize : forall lev, (lev < nlevels (tree w))%nat ->
  exists order, level_nterms w !! lev = Some order
                /\ order_to_size w order = Ok (sz lev).
Hypothesis Hsz : forall lev, (lev < nlevels (tree w))%nat -> 0 <= sz lev.
Hypothesis Hnb : forall lev, (lev < nlevels (tree w))%nat ->
  0 <= level_nboxes (tree w) lev.
Hypothesis Hoffs : offsets_fit w sz.

Variables level_start_source_box_nrs source_boxes : list nat.

(** The boxes listed for a level are not numbered below the first box of
    the level. *)
Hypothesis Hlisted : forall lev start stop x first,
  unpack2 (py_slice level_start_source_box_nrs lev (lev + 2)) = Ok (start, stop) ->
  In x (py_slice source_boxes start stop) ->
  level_start_box_nrs (tree w) !! lev = Some first -> (first <= x)%nat.

Variable buf0 : list C.
Variables (b lev bs : nat) (v : view).
Hypothesis Hb : empty_source_box (tree w) b.
Hypothesis Hv : multipole_expansions_view w buf0 lev = Ok (bs, v).
Hypothesis Hin : (bs <= b < bs + v_nb v)%nat.

Let lo : nat := (v_off v + (b - bs) * v_stride v)%nat.
Let hi : nat := (lo + v_stride v)%nat.








End FormMultipolesZero.





(** C6 as stated fails when the expansions do not fit [np.int32]: on
    [wrapping_wrangler] the view of level 2 lies over the view of the root,
    and after [form_multipoles] the entry of the root, which has no
    sources, holds the expansion formed for box 4. *)
Lemma form_multipoles_wraps :
  empty_source_box (tree wrapping_wrangler) 0
  /\ form_multipoles 0 (fun _ _ _ => 0) echo_routines wrapping_wrangler
       [0; 0; 0; 1; 4]%nat [4; 5; 6; 7]%nat [1; 1; 1; 1; 1; 1] []
     = (Ok [0; 0; 1; 1; 1; 1; 1; 1; 1; 1],
        [call_formmp 2 (3, 4)%nat 4 1 (kw_charge [1]);
         call_formmp 3 (0, 2)%nat 5 1 (kw_charge [1; 1]);
         call_formmp 3 (2, 3)%nat 6 1 (kw_charge [1]);
         call_formmp 3 (4, 6)%nat 7 1 (kw_charge [1; 1])])
  /\ multipole_expansions_view wrapping_wrangler
       [0; 0; 1; 1; 1; 1; 1; 1; 1; 1] 0
     = Ok (0%nat, {| v_off := 0; v_nb := 1; v_stride := 4 |})
  /\ view_read {| v_off := 0; v_nb := 1; v_stride := 4 |} 0
       [0; 0; 1; 1; 1; 1; 1; 1; 1; 1] = Ok [0; 0; 1; 1].
Proof.
  split; [exists 0%nat; split; reflexivity |].
  repeat split; vm_compute; reflexivity.
Qed.

Example demo_traversal_checks :
  tree_ok demo_tree = true
  /\ traversal_ok demo_tree demo_traversal = true
  /\ complete demo_tree demo_traversal = true
  /\ drive_fmm demo_tree demo_traversal [1; 1; 1; 1; 1; 1]
     = Ok [6; 6; 6; 6; 6; 6].
Proof. vm_compute. auto. Qed.

(** ** Sums and arrays of numbers *)


Lemma np_sum_app l1 l2 : ConstantOne.np_sum (l1 ++ l2) = ConstantOne.np_sum l1 + ConstantOne.np_sum l2.
Proof. induction l1 as [|x l1 IH]; simpl; [reflexivity | rewrite IH; lia]. Qed.

Lemma np_sum_flat_map {X Y} (f : Y -> Z) (g : X -> list Y) (l : list X) :
  ConstantOne.np_sum (map f (flat_map g l)) = ConstantOne.np_sum (map (fun x => ConstantOne.np_sum (map f (g x))) l).
Proof.
  induction l as [|x l IH]; simpl; [reflexivity |].
  rewrite map_app, np_sum_app, IH. reflexivity.
Qed.

Lemma np_sum_map_ext {X} (f g : X -> Z) (l : list X) :
  (forall x, In x l -> f x = g x) -> ConstantOne.np_sum (map f l) = ConstantOne.np_sum (map g l).
Proof.
  induction l as [|x l IH]; intros H; [reflexivity |]. simpl.
  rewrite (H x) by (left; reflexivity).
  rewrite IH by (intros; apply H; right; assumption). reflexivity.
Qed.

Lemma np_sum_zero {X} (f : X -> Z) (l : list X) :
  (forall x, In x l -> f x = 0) -> ConstantOne.np_sum (map f l) = 0.
Proof.
  induction l as [|x l IH]; intros H; [reflexivity |]. simpl.
  rewrite (H x) by (left; reflexivity).
  rewrite IH by (intros; apply H; right; assumption). reflexivity.
Qed.

Lemma np_sum_repeat_one n : ConstantOne.np_sum (repeat 1 n) = Z.of_nat n.
Proof. induction n as [|n IH]; simpl repeat; simpl ConstantOne.np_sum; [reflexivity | lia]. Qed.

Lemma nth_insert_Z (a : list Z) i j v :
  (i < length a)%nat ->
  nth j (<[i := v]> a) 0 = if (j =? i)%nat then v else nth j a 0.
Proof.
  intros Hi. destruct (Nat.eqb_spec j i) as [-> | Hne].
  - apply nth_lookup_Some. apply list_lookup_insert_eq. exact Hi.
  - destruct (Nat.lt_ge_cases j (length a)) as [Hj | Hj].
    + apply nth_lookup_Some. rewrite list_lookup_insert_ne by auto.
      apply lookup_nth_lt. exact Hj.
    + rewrite !nth_overflow by (rewrite ?length_insert; lia). reflexivity.
Qed.

Lemma item_iadd_ok (a : list Z) i v :
  (i < length a)%nat -> ConstantOne.item_iadd a i v = Ok (<[i := nth i a 0 + v]> a).
Proof.
  intros Hi. unfold ConstantOne.item_iadd.
  rewrite (py_index_ok _ _ _ (lookup_nth_lt a i 0 Hi)). reflexivity.
Qed.

Lemma rfold_ext {A X} (f g : A -> X -> result A) (l : list X) a :
  (forall b x, In x l -> f b x = g b x) -> rfold f l a = rfold g l a.
Proof.
  revert a. induction l as [|x l IH]; intros a H; simpl; [reflexivity |].
  rewrite (H a x) by (left; reflexivity).
  destruct (g a x); simpl; [apply IH; intros; apply H; right; assumption |].
  reflexivity.
Qed.

(** A loop that adds up values read one by one. *)
Lemma rfold_sum {X} (f : X -> result Z) (g : X -> Z) (l : list X) acc :
  (forall x, In x l -> f x = Ok (g x)) ->
  rfold (fun c x => m <~ f x ;; Ok (c + m)) l acc
  = Ok (acc + ConstantOne.np_sum (map g l)).
Proof.
  revert acc. induction l as [|x l IH]; intros acc H; simpl.
  - f_equal. lia.
  - rewrite (H x) by (left; reflexivity). cbn [rbind].
    rewrite IH by (intros; apply H; right; assumption). f_equal. lia.
Qed.

(** A loop of [a[tgt x] += val x]. *)
Lemma rfold_scatter {X} (tgt : X -> nat) (val : X -> Z) (l : list X) arr :
  (forall x, In x l -> (tgt x < length arr)%nat) ->
  exists arr',
    rfold (fun a x => ConstantOne.item_iadd a (tgt x) (val x)) l arr = Ok arr'
    /\ length arr' = length arr
    /\ forall b, nth b arr' 0
                 = nth b arr 0
                   + ConstantOne.np_sum (map val (List.filter (fun x => (tgt x =? b)%nat) l)).
Proof.
  revert arr. induction l as [|x l IH]; intros arr H.
  - exists arr. simpl. repeat split; intros; lia.
  - simpl. rewrite item_iadd_ok by (apply H; left; reflexivity). cbn [rbind].
    destruct (IH (<[tgt x := nth (tgt x) arr 0 + val x]> arr))
      as (arr' & Hrun & Hlen & Hval).
    { intros y Hy. rewrite length_insert. apply H. right. exact Hy. }
    exists arr'. split; [exact Hrun |]. rewrite length_insert in Hlen.
    split; [exact Hlen |]. intros b.
    rewrite Hval, nth_insert_Z by (apply H; left; reflexivity).
    rewrite (Nat.eqb_sym b).
    destruct (tgt x =? b)%nat eqn:E; simpl; [| lia].
    apply Nat.eqb_eq in E. subst b. lia.
Qed.

Lemma in_range_spec i p :
  in_range i p = true <-> (fst p <= i < snd p)%nat.
Proof.
  unfold in_range. rewrite andb_true_iff, Nat.leb_le, Nat.ltb_lt. tauto.
Qed.

Lemma slice_map_length (f : Z -> Z) (a : list Z) (p : pslice) :
  length (write_block a (fst p) (map f (py_slice a (fst p) (snd p))))
  = length a.
Proof.
  unfold write_block, py_slice.
  rewrite !length_app, length_drop, !length_map, !length_take, length_drop.
  lia.
Qed.

Lemma slice_map_nth (f : Z -> Z) (a : list Z) (p : pslice) i :
  nth i (write_block a (fst p) (map f (py_slice a (fst p) (snd p)))) 0
  = if in_range i p && (i <? length a)%nat then f (nth i a 0) else nth i a 0.
Proof.
  destruct (Nat.ltb_spec i (length a)) as [Hi | Hi].
  2: { rewrite andb_false_r.
       rewrite !nth_overflow by (rewrite ?slice_map_length; lia). reflexivity. }
  rewrite andb_true_r. apply nth_lookup_Some.
  destruct p as [lo hi]. unfold write_block, py_slice, in_range. cbn [fst snd].
  pose proof (lookup_nth_lt a i 0 Hi) as Hai.
  destruct (Nat.leb_spec lo i) as [Hlo | Hlo]; cbn [andb].
  - rewrite lookup_app_r by (rewrite length_take; lia).
    rewrite length_take, Nat.min_l by lia.
    destruct (Nat.ltb_spec i hi) as [Hhi | Hhi].
    + rewrite lookup_app_l
        by (rewrite length_map, length_take, length_drop; lia).
      rewrite list_lookup_fmap, lookup_take_lt, lookup_drop by lia.
      replace (lo + (i - lo))%nat with i by lia. rewrite Hai. reflexivity.
    + rewrite lookup_app_r
        by (rewrite length_map, length_take, length_drop; lia).
      rewrite length_map, length_take, length_drop, lookup_drop.
      rewrite <- Hai. f_equal. lia.
  - rewrite lookup_app_l by (rewrite length_take; lia).
    rewrite lookup_take_lt by lia. exact Hai.
Qed.

Lemma slice_iadd_nth (a : list Z) p v i :
  nth i (ConstantOne.slice_iadd a p v) 0
  = if in_range i p && (i <? length a)%nat then nth i a 0 + v else nth i a 0.
Proof. apply (slice_map_nth (fun x => x + v)). Qed.

Lemma slice_assign_nth (a : list Z) p v i :
  nth i (ConstantOne.slice_assign a p v) 0
  = if in_range i p && (i <? length a)%nat then v else nth i a 0.
Proof. apply (slice_map_nth (fun _ => v)). Qed.

(** A loop of [a[rng x] += val x]. *)
Lemma rfold_slice_iadd {X} (rng : X -> pslice) (val : X -> Z) (l : list X) arr :
  exists arr',
    rfold (fun a x => Ok (ConstantOne.slice_iadd a (rng x) (val x))) l arr = Ok arr'
    /\ length arr' = length arr
    /\ forall i, (i < length arr)%nat ->
         nth i arr' 0
         = nth i arr 0
           + ConstantOne.np_sum (map val (List.filter (fun x => in_range i (rng x)) l)).
Proof.
  revert arr. induction l as [|x l IH]; intros arr.
  - exists arr. simpl. repeat split; intros; lia.
  - simpl. destruct (IH (ConstantOne.slice_iadd arr (rng x) (val x)))
      as (arr' & Hrun & Hlen & Hval).
    exists arr'. split; [exact Hrun |].
    unfold ConstantOne.slice_iadd in Hlen at 1. rewrite slice_map_length in Hlen.
    split; [exact Hlen |]. intros i Hi.
    rewrite Hval by (unfold ConstantOne.slice_iadd; rewrite slice_map_length; exact Hi).
    rewrite slice_iadd_nth.
    destruct (Nat.ltb_spec i (length arr)); [| lia]. rewrite andb_true_r.
    destruct (in_range i (rng x)); simpl; lia.
Qed.

(** A loop of [a[rng x] = val x], where each position is written by
    exactly one round. *)
Lemma rfold_slice_assign {X} (rng : X -> pslice) (val : X -> Z) (l : list X)
    arr :
  exists arr',
    rfold (fun a x => Ok (ConstantOne.slice_assign a (rng x) (val x))) l arr = Ok arr'
    /\ length arr' = length arr
    /\ forall i, (i < length arr)%nat ->
         nth i arr' 0
         = match last (List.filter (fun x => in_range i (rng x)) l) with
           | Some x => val x
           | None => nth i arr 0
           end.
Proof.
  revert arr. induction l as [|x l IH]; intros arr.
  - exists arr. simpl. repeat split; intros; lia.
  - simpl. destruct (IH (ConstantOne.slice_assign arr (rng x) (val x)))
      as (arr' & Hrun & Hlen & Hval).
    exists arr'. split; [exact Hrun |].
    unfold ConstantOne.slice_assign in Hlen at 1. rewrite slice_map_length in Hlen.
    split; [exact Hlen |]. intros i Hi.
    rewrite Hval by (unfold ConstantOne.slice_assign; rewrite slice_map_length; exact Hi).
    rewrite slice_assign_nth.
    destruct (Nat.ltb_spec i (length arr)); [| lia]. rewrite andb_true_r.
    destruct (in_range i (rng x)); simpl.
    + rewrite last_cons. destruct (last (List.filter _ l)); reflexivity.
    + reflexivity.
Qed.

(** ** Accumulation in place *)

Lemma for_each_app {S X} (l1 l2 : list X) (body : X -> M S unit) s :
  for_each (l1 ++ l2) body s
  = match for_each l1 body s with
    | (Ok _, s1) => for_each l2 body s1
    | (Raise e, s1) => (Raise e, s1)
    end.
Proof.
  revert s. induction l1 as [|x l1 IH]; intros s; [reflexivity |].
  simpl. unfold mbind. destruct (body x s) as [[[]|e] s1]; [apply IH |].
  reflexivity.
Qed.

Lemma item_iadd_item_ok (a : list Z) i j :
  (i < length a)%nat -> (j < length a)%nat ->
  ConstantOne.item_iadd_item i j a = (Ok tt, <[i := nth i a 0 + nth j a 0]> a).
Proof.
  intros Hi Hj. unfold ConstantOne.item_iadd_item.
  rewrite (py_index_ok _ _ _ (lookup_nth_lt a i 0 Hi)). cbn [rbind].
  rewrite (py_index_ok _ _ _ (lookup_nth_lt a j 0 Hj)). reflexivity.
Qed.

(** [for c in cs: a[b] += a[c]]. *)
Lemma iadd_items (cs : list nat) b (arr : list Z) :
  (b < length arr)%nat ->
  (forall c, In c cs -> (c < length arr)%nat /\ c <> b) ->
  for_each cs (ConstantOne.item_iadd_item b) arr
  = (Ok tt,
     <[b := nth b arr 0 + ConstantOne.np_sum (map (fun c => nth c arr 0) cs)]> arr).
Proof.
  revert arr. induction cs as [|c cs IH]; intros arr Hb Hcs.
  - simpl. unfold mret. f_equal. rewrite Z.add_0_r.
    symmetry. apply list_insert_id. apply lookup_nth_lt. exact Hb.
  - destruct (Hcs c ltac:(left; reflexivity)) as [Hc Hne].
    simpl for_each. unfold mbind. rewrite item_iadd_item_ok by assumption.
    rewrite IH.
    + rewrite list_insert_insert_eq. f_equal. f_equal.
      rewrite nth_insert_Z, Nat.eqb_refl by exact Hb. simpl.
      rewrite (np_sum_map_ext
                 (fun c0 => nth c0 (<[b:=nth b arr 0 + nth c arr 0]> arr) 0)
                 (fun c0 => nth c0 arr 0)).
      * lia.
      * intros c0 Hc0. rewrite nth_insert_Z by exact Hb.
        destruct (Hcs c0 ltac:(right; exact Hc0)) as [_ Hne0].
        destruct (Nat.eqb_spec c0 b); [contradiction | reflexivity].
    + rewrite length_insert. exact Hb.
    + intros c0 Hc0. rewrite length_insert. apply Hcs. right. exact Hc0.
Qed.

(** One level of an accumulation: every box of [r] receives the sum of
    the entries of its sources, which are boxes outside [r]. *)
Lemma accumulate_level (r : list nat) (srcs : nat -> list nat)
    (body : nat -> M (list Z) unit) (n : nat) :
  List.NoDup r ->
  (forall b, In b r ->
     (b < n)%nat /\ forall c, In c (srcs b) -> (c < n)%nat /\ ~ In c r) ->
  (forall b arr, In b r -> length arr = n ->
     body b arr
     = (Ok tt,
        <[b := nth b arr 0 + ConstantOne.np_sum (map (fun c => nth c arr 0) (srcs b))]>
          arr)) ->
  forall arr, length arr = n ->
  exists arr',
    for_each r body arr = (Ok tt, arr')
    /\ length arr' = n
    /\ (forall x, In x r ->
          nth x arr' 0
          = nth x arr 0 + ConstantOne.np_sum (map (fun c => nth c arr 0) (srcs x)))
    /\ (forall x, ~ In x r -> nth x arr' 0 = nth x arr 0).
Proof.
  intros Hnd. induction Hnd as [|b r Hnotin Hnd IH]; intros Hr Hbody arr Hlen.
  - exists arr. simpl. unfold mret. repeat split; auto. intros x [].
  - destruct (Hr b ltac:(left; reflexivity)) as [Hb Hsrc].
    simpl for_each. unfold mbind.
    rewrite Hbody by (auto; left; reflexivity).
    set (arr1 := <[b := _]> arr).
    assert (Hlen1 : length arr1 = n) by (unfold arr1; rewrite length_insert; exact Hlen).
    assert (Hother : forall x, x <> b -> nth x arr1 0 = nth x arr 0).
    { intros x Hx. unfold arr1. rewrite nth_insert_Z by lia.
      destruct (Nat.eqb_spec x b); [contradiction | reflexivity]. }
    destruct (IH ltac:(intros b' Hb'; destruct (Hr b' ltac:(right; exact Hb'))
                         as [H1 H2]; split; [exact H1 |];
                       intros c Hc; destruct (H2 c Hc) as [H3 H4];
                       split; [exact H3 |]; intros Hin; apply H4; right; exact Hin)
                ltac:(intros b' a' Hb' Ha'; apply Hbody; [right; exact Hb' | exact Ha'])
                arr1 Hlen1)
      as (arr' & Hrun & Hlen' & Hin & Hout).
    exists arr'. split; [exact Hrun |]. split; [exact Hlen' |]. split.
    + intros x [<- | Hx].
      * rewrite (Hout b Hnotin). unfold arr1.
        rewrite nth_insert_Z, Nat.eqb_refl by lia. reflexivity.
      * rewrite (Hin x Hx).
        assert (x <> b) by (intros ->; contradiction).
        rewrite Hother by assumption. f_equal.
        apply np_sum_map_ext. intros c Hc. apply Hother.
        destruct (Hr x ltac:(right; exact Hx)) as [_ H2].
        destruct (H2 c Hc) as [_ H4]. intros ->. apply H4. left. reflexivity.
    + intros x Hx. rewrite Hout by (intros Hin'; apply Hx; right; exact Hin').
      apply Hother. intros ->. apply Hx. left. reflexivity.
Qed.

Lemma unpack2_slice_ok {A} (l : list A) i d :
  (i + 1 < length l)%nat ->
  unpack2 (py_slice l i (i + 2)) = Ok (nth i l d, nth (i + 1) l d).
Proof.
  intros H. unfold py_slice. replace (i + 2 - i)%nat with 2%nat by lia.
  pose proof (lookup_nth_lt l i d ltac:(lia)) as H0.
  pose proof (lookup_nth_lt l (i + 1) d H) as H1.
  rewrite <- (Nat.add_0_r i) in H0 at 1.
  rewrite <- lookup_drop in H0, H1.
  destruct (drop i l) as [|x [|y r]]; simpl in H0, H1; try discriminate.
  injection H0 as <-. injection H1 as <-. reflexivity.
Qed.

(** ** [ConstantOne.refine_locals] of the reference wrangler *)

Section RefineRef.

Variable t : Tree.
Variables lst totp : list nat.
Variable loc : list Z.

Hypothesis Hstarts : (nlevels t + 1 <= length lst)%nat.
Hypothesis Hparents : (length loc <= length (box_parent_ids t))%nat.
Hypothesis Hrange : forall lev, (1 <= lev < nlevels t)%nat ->
  List.NoDup (level_range lst totp lev)
  /\ forall b, In b (level_range lst totp lev) ->
       (b < length loc)%nat /\ box_level t b = lev
       /\ (parent t b < length loc)%nat
       /\ (box_level t (parent t b) + 1)%nat = lev.
Hypothesis Hclosed : forall lev b, (2 <= lev < nlevels t)%nat ->
  In b (level_range lst totp lev) ->
  In (parent t b) (level_range lst totp (lev - 1)).

Let listed := listed_on_level t lst totp.
Let anc_sum (b : nat) : Z := sum_over loc (ancestors_of t b).

Let inv (upto : nat) (arr : list Z) : Prop :=
  length arr = length loc
  /\ forall b, (listed upto b -> nth b arr 0 = anc_sum b)
               /\ (~ listed upto b -> nth b arr 0 = nth b loc 0).

Lemma refine_locals_box_ok b arr :
  (b < length loc)%nat -> (parent t b < length loc)%nat ->
  length arr = length loc ->
  ConstantOne.refine_locals_box t b arr
  = (Ok tt,
     <[b := nth b arr 0
            + ConstantOne.np_sum (map (fun c => nth c arr 0) [parent t b])]> arr).
Proof.
  intros Hb Hp Hlen. unfold ConstantOne.refine_locals_box, mbind, lift.
  rewrite (py_index_ok _ _ _
             (lookup_nth_lt (box_parent_ids t) b 0%nat ltac:(lia))).
  fold (parent t b). rewrite item_iadd_item_ok by lia.
  simpl. rewrite Z.add_0_r. reflexivity.
Qed.

Lemma refine_level_step upto arr :
  (upto + 1 < nlevels t)%nat -> inv upto arr ->
  exists arr',
    ConstantOne.refine_locals_level t lst totp (upto + 1) arr = (Ok tt, arr')
    /\ inv (upto + 1) arr'.
Proof.
  intros Hlev [Hlen Hinv].
  destruct (Hrange (upto + 1)%nat ltac:(lia)) as [Hnd Hboxes].
  unfold ConstantOne.refine_locals_level, mbind, lift.
  rewrite (unpack2_slice_ok lst (upto + 1) 0%nat) by lia.
  fold (level_range lst totp (upto + 1)).
  destruct (accumulate_level (level_range lst totp (upto + 1))
              (fun b => [parent t b]) (ConstantOne.refine_locals_box t) (length loc) Hnd)
    with (arr := arr) as (arr' & Hrun & Hlen' & Hin & Hout).
  { intros b Hb. destruct (Hboxes b Hb) as (H1 & H2 & H3 & H4).
    split; [exact H1 |]. intros c [<- | []]. split; [exact H3 |].
    intros Hc. destruct (Hboxes _ Hc) as (_ & H5 & _). lia. }
  { intros b a Hb Ha. destruct (Hboxes b Hb) as (H1 & _ & H3 & _).
    apply refine_locals_box_ok; assumption. }
  { exact Hlen. }
  exists arr'. split; [exact Hrun |]. split; [exact Hlen' |].
  intros b.
  destruct (in_dec Nat.eq_dec b (level_range lst totp (upto + 1))) as [Hb | Hb].
  - destruct (Hboxes b Hb) as (H1 & H2 & H3 & H4).
    assert (Hl : listed (upto + 1)%nat b).
    { split; [lia |]. rewrite H2. exact Hb. }
    split; [| intros Hn; contradiction]. intros _.
    rewrite (Hin b Hb). simpl. rewrite Z.add_0_r.
    assert (Hnl : ~ listed upto b) by (intros [Hle _]; lia).
    rewrite (proj2 (Hinv b) Hnl).
    unfold anc_sum, ancestors_of, sum_over. rewrite H2.
    replace (upto + 1)%nat with (S upto) by lia. simpl.
    f_equal. fold (parent t b).
    assert (Hpl : box_level t (parent t b) = upto) by lia.
    destruct (Nat.eq_dec upto 0%nat) as [-> | Hpos].
    + rewrite (proj2 (Hinv (parent t b))) by (intros [Hle _]; lia).
      simpl. lia.
    + rewrite (proj1 (Hinv (parent t b))).
      * unfold anc_sum, ancestors_of, sum_over. rewrite Hpl. reflexivity.
      * split; [lia |]. rewrite Hpl.
        pose proof (Hclosed (upto + 1)%nat b ltac:(lia) Hb) as Hc.
        replace (upto + 1 - 1)%nat with upto in Hc by lia. exact Hc.
  - rewrite (Hout b Hb). split.
    + intros [Hle Hin']. apply (proj1 (Hinv b)). split; [| exact Hin'].
      destruct (Nat.eq_dec (box_level t b) (upto + 1)%nat) as [E | E]; [| lia].
      rewrite E in Hin'. contradiction.
    + intros Hn. apply (proj2 (Hinv b)). intros [Hle Hin'].
      apply Hn. split; [lia | exact Hin'].
Qed.

Lemma refine_levels_prefix k :
  (k < nlevels t)%nat ->
  exists arr,
    for_each (seq 1 k) (ConstantOne.refine_locals_level t lst totp) loc = (Ok tt, arr)
    /\ inv k arr.
Proof.
  induction k as [|k IH]; intros Hk.
  - exists loc. split; [reflexivity |]. split; [reflexivity |].
    intros b. split; [intros [Hle _]; lia | reflexivity].
  - destruct (IH ltac:(lia)) as (arr & Hrun & Hinv).
    destruct (refine_level_step k arr ltac:(lia) Hinv) as (arr' & Hstep & Hinv').
    exists arr'. rewrite seq_S.
    replace (1 + k)%nat with (k + 1)%nat by lia.
    rewrite for_each_app, Hrun. cbn [for_each]. unfold mbind.
    rewrite Hstep. split; [reflexivity |].
    replace (S k) with (k + 1)%nat by lia. exact Hinv'.
Qed.

Lemma refine_locals_spec :
  exists final,
    ConstantOne.refine_locals t lst totp loc = (Ok tt, final)
    /\ length final = length loc
    /\ forall b,
         (listed_on_level t lst totp (nlevels t - 1) b ->
          nth b final 0 = sum_over loc (ancestors_of t b))
         /\ (~ listed_on_level t lst totp (nlevels t - 1) b ->
             nth b final 0 = nth b loc 0).
Proof.
  unfold ConstantOne.refine_locals, ConstantOne.refine_target_levels.
  destruct (Nat.eq_dec (nlevels t) 0%nat) as [E | E].
  - rewrite E. exists loc. split; [reflexivity |]. split; [reflexivity |].
    intros b. split; [intros [Hle _]; lia | reflexivity].
  - destruct (refine_levels_prefix (nlevels t - 1) ltac:(lia))
      as (arr & Hrun & Hlen & Hinv).
    exists arr. auto.
Qed.

End RefineRef.

(** ** From the boolean checks to facts *)

Ltac split_andb :=
  repeat match goal with
         | H : _ && _ = true |- _ => apply andb_prop in H as [? ?]
         end.

Lemma memb_In x l : memb x l = true <-> In x l.
Proof.
  unfold memb. rewrite existsb_exists. split.
  - intros (y & Hy & E). apply Nat.eqb_eq in E. subst. exact Hy.
  - intros H. exists x. split; [exact H | apply Nat.eqb_refl].
Qed.

Lemma nodupb_NoDup l : nodupb l = true -> List.NoDup l.
Proof.
  induction l as [|x l IH]; simpl; intros H; [constructor |].
  apply andb_prop in H as [Hx Hl]. constructor; [| auto].
  intros Hin. apply memb_In in Hin. rewrite Hin in Hx. discriminate.
Qed.

Lemma all_below_In n l x : all_below n l = true -> In x l -> (x < n)%nat.
Proof.
  unfold all_below. rewrite forallb_forall. intros H Hx.
  apply Nat.ltb_lt. apply H. exact Hx.
Qed.

Lemma forallb_seq (f : nat -> bool) a n i :
  forallb f (seq a n) = true -> (a <= i < a + n)%nat -> f i = true.
Proof.
  rewrite forallb_forall. intros H Hi. apply H. apply in_seq. exact Hi.
Qed.

Section TreeFacts.

Variable t : Tree.
Hypothesis Hok : tree_ok t = true.

Lemma tree_ok_lengths :
  length (box_source_starts t) = nboxes t
  /\ length (box_source_counts_nonchild t) = nboxes t
  /\ length (box_target_starts t) = nboxes t
  /\ length (box_target_counts_nonchild t) = nboxes t
  /\ length (box_parent_ids t) = nboxes t
  /\ forall r, In r (box_child_ids t) -> length r = nboxes t.
Proof.
  pose proof Hok as H. unfold tree_ok in H. split_andb.
  repeat match goal with
         | H : (_ =? _)%nat = true |- _ => apply Nat.eqb_eq in H
         end.
  repeat split; try assumption.
  intros r Hr.
  match goal with
  | H : forallb _ (box_child_ids t) = true |- _ =>
    rewrite forallb_forall in H; apply Nat.eqb_eq, H, Hr
  end.
Qed.

Lemma tree_ok_box b :
  (b < nboxes t)%nat ->
  (box_level t b < nlevels t)%nat
  /\ (forall c, In c (children t b) ->
        (c < nboxes t)%nat /\ box_level t c = (box_level t b + 1)%nat)
  /\ (box_level t b = 0%nat
      \/ ((parent t b < nboxes t)%nat
          /\ (box_level t (parent t b) + 1)%nat = box_level t b))
  /\ (snd (source_range t b) <= nsources t)%nat.
Proof.
  intros Hb. pose proof Hok as H. unfold tree_ok in H. split_andb.
  match goal with
  | H : forallb _ (boxes t) = true |- _ =>
    apply (fun H' => forallb_seq _ 0 (nboxes t) b H') in H; [| lia];
      cbv beta in H
  end.
  split_andb.
  split; [apply Nat.ltb_lt; assumption |].
  split.
  { intros c Hc.
    match goal with
    | H : forallb _ (children t b) = true |- _ =>
      rewrite forallb_forall in H; specialize (H c Hc);
        apply andb_prop in H as [Hc1 Hc2]
    end.
    split; [apply Nat.ltb_lt; exact Hc1 | apply Nat.eqb_eq; exact Hc2]. }
  split.
  { match goal with
    | H : _ || _ = true |- _ => apply orb_prop in H as [Hl | Hr]
    end.
    - left. apply Nat.eqb_eq. exact Hl.
    - right. apply andb_prop in Hr as [Hp1 Hp2].
      split; [apply Nat.ltb_lt; exact Hp1 | apply Nat.eqb_eq; exact Hp2]. }
  apply Nat.leb_le. assumption.
Qed.

Lemma tree_ok_sources i :
  (i < nsources t)%nat ->
  length (List.filter (fun b => in_range i (source_range t b)) (boxes t)) = 1%nat.
Proof.
  intros Hi. pose proof Hok as H. unfold tree_ok in H. split_andb.
  match goal with
  | H : forallb _ (seq 0 (nsources t)) = true |- _ =>
    apply (fun H' => forallb_seq _ 0 (nsources t) i H') in H; [| lia];
      cbv beta in H; apply Nat.eqb_eq in H; exact H
  end.
Qed.

Lemma get_source_slice_ok b :
  (b < nboxes t)%nat ->
  ConstantOne._get_source_slice t b = Ok (source_range t b).
Proof.
  intros Hb. destruct tree_ok_lengths as (H1 & H2 & _).
  unfold ConstantOne._get_source_slice, source_range.
  rewrite (py_index_ok _ _ _ (lookup_nth_lt (box_source_starts t) b 0%nat
                               ltac:(lia))). cbn [rbind].
  rewrite (py_index_ok _ _ _ (lookup_nth_lt (box_source_counts_nonchild t) b
                               0%nat ltac:(lia))). reflexivity.
Qed.

Lemma get_target_slice_ok b :
  (b < nboxes t)%nat ->
  ConstantOne._get_target_slice t b = Ok (target_range t b).
Proof.
  intros Hb. destruct tree_ok_lengths as (_ & _ & H1 & H2 & _).
  unfold ConstantOne._get_target_slice, target_range.
  rewrite (py_index_ok _ _ _ (lookup_nth_lt (box_target_starts t) b 0%nat
                               ltac:(lia))). cbn [rbind].
  rewrite (py_index_ok _ _ _ (lookup_nth_lt (box_target_counts_nonchild t) b
                               0%nat ltac:(lia))). reflexivity.
Qed.

End TreeFacts.

Section TraversalFacts.

Variable t : Tree.
Variable trav : Traversal.
Hypothesis Htree : tree_ok t = true.
Hypothesis Htotp : target_or_target_parent_boxes_ok t trav = true.

Let lst := level_start_target_or_target_parent_box_nrs trav.
Let totp := target_or_target_parent_boxes trav.

Lemma totp_starts : (nlevels t + 1 <= length lst)%nat.
Proof.
  pose proof Htotp as H. unfold target_or_target_parent_boxes_ok in H.
  split_andb. apply Nat.leb_le. assumption.
Qed.

Lemma totp_level lev :
  (1 <= lev < nlevels t)%nat ->
  nodupb (level_range lst totp lev) = true
  /\ (forall b, In b (level_range lst totp lev) ->
        (b < nboxes t)%nat /\ box_level t b = lev)
  /\ ((2 <= lev)%nat -> forall b, In b (level_range lst totp lev) ->
        In (parent t b) (level_range lst totp (lev - 1))).
Proof.
  intros Hlev. pose proof Htotp as H.
  unfold target_or_target_parent_boxes_ok in H. split_andb.
  match goal with
  | H : forallb _ (seq 1 (nlevels t - 1)) = true |- _ =>
    apply (fun H' => forallb_seq _ 1 (nlevels t - 1) lev H') in H; [| lia];
      cbv beta zeta in H
  end.
  split_andb. split; [assumption |]. split.
  - intros b Hb.
    match goal with
    | H : forallb (fun b => (b <? nboxes t)%nat && _) _ = true |- _ =>
      rewrite forallb_forall in H; specialize (H b Hb);
        apply andb_prop in H as [Hb1 Hb2]
    end.
    split; [apply Nat.ltb_lt; exact Hb1 | apply Nat.eqb_eq; exact Hb2].
  - intros Hlev2 b Hb.
    match goal with
    | H : _ || _ = true |- _ => apply orb_prop in H as [Hl | Hr]
    end.
    + apply Nat.ltb_lt in Hl. lia.
    + rewrite forallb_forall in Hr. apply memb_In, Hr, Hb.
Qed.

Lemma totp_range_facts lev :
  (1 <= lev < nlevels t)%nat ->
  List.NoDup (level_range lst totp lev)
  /\ forall b, In b (level_range lst totp lev) ->
       (b < nboxes t)%nat /\ box_level t b = lev
       /\ (parent t b < nboxes t)%nat
       /\ (box_level t (parent t b) + 1)%nat = lev.
Proof.
  intros Hlev. destruct (totp_level lev Hlev) as (Hnd & Hb & _).
  split; [apply nodupb_NoDup; exact Hnd |].
  intros b Hin. destruct (Hb b Hin) as [H1 H2].
  destruct (tree_ok_box t Htree b H1) as (_ & _ & [H0 | [H3 H4]] & _); [lia |].
  rewrite H2 in H4. auto.
Qed.

End TraversalFacts.

Section RefineTrace.

Context {C : Type}.
Variable cadd : C -> C -> C.
Variable w : FMMLibExpansionWrangler C.
Variable locloc : kcall C -> M (list C * log C) (list C).
Variables lst totp : list nat.

Hypothesis Hk : calls_kernel_only locloc.





End RefineTrace.





(** ** [coarsen_multipoles] of the reference wrangler *)

Lemma flat_map_ext_In {A B} (f g : A -> list B) (l : list A) :
  (forall x, In x l -> f x = g x) -> flat_map f l = flat_map g l.
Proof.
  induction l as [|x l IH]; intros H; [reflexivity |]. simpl.
  rewrite (H x) by (left; reflexivity).
  rewrite IH by (intros; apply H; right; assumption). reflexivity.
Qed.

Lemma column_ok (m : list (list nat)) (j n : nat) :
  (forall r, In r m -> length r = n) -> (j < n)%nat ->
  column m j = Ok (map (fun r => nth j r 0%nat) m).
Proof.
  intros Hrows Hj. unfold column. induction m as [|r m IH]; [reflexivity |].
  simpl.
  rewrite (py_index_ok _ _ _
             (lookup_nth_lt r j 0%nat
                ltac:(rewrite (Hrows r ltac:(left; reflexivity)); exact Hj))).
  cbn [rbind]. rewrite IH by (intros; apply Hrows; right; assumption).
  reflexivity.
Qed.

Lemma for_each_skip_zero (l : list nat) b (arr : list Z) :
  for_each l (fun child => if (child =? 0)%nat then mret tt
                           else ConstantOne.item_iadd_item b child) arr
  = for_each (List.filter (fun c => negb (c =? 0)%nat) l)
      (ConstantOne.item_iadd_item b) arr.
Proof.
  revert arr. induction l as [|c l IH]; intros arr; [reflexivity |].
  simpl. destruct (c =? 0)%nat; simpl.
  - unfold mbind, mret. apply IH.
  - unfold mbind. destruct (ConstantOne.item_iadd_item b c arr) as [[[]|e] s];
      [apply IH | reflexivity].
Qed.

Section CoarsenRef.

Variable t : Tree.
Variables lssp spb : list nat.
Variable arr0 : list Z.

Hypothesis Htree : tree_ok t = true.
Hypothesis Hlen0 : length arr0 = nboxes t.
Hypothesis Hstarts : (nlevels t <= length lssp)%nat.
Hypothesis Hrange : forall lev, (2 <= lev)%nat -> (lev + 2 <= nlevels t)%nat ->
  List.NoDup (level_range lssp spb lev)
  /\ forall b, In b (level_range lssp spb lev) ->
       (b < nboxes t)%nat /\ box_level t b = lev.
Hypothesis Hlisted : forall b, (b < nboxes t)%nat -> (2 <= box_level t b)%nat ->
  children t b <> [] -> In b (level_range lssp spb (box_level t b)).

Let total (b : nat) : Z := sum_over arr0 (subtree_of t b).

Let inv (lev : nat) (arr : list Z) : Prop :=
  length arr = nboxes t
  /\ forall b, (b < nboxes t)%nat ->
       ((lev <= box_level t b)%nat -> nth b arr 0 = total b)
       /\ ((box_level t b < lev)%nat -> nth b arr 0 = nth b arr0 0).

Lemma coarsen_box_ok b arr :
  (b < nboxes t)%nat -> length arr = nboxes t ->
  ConstantOne.coarsen_multipoles_box t b arr
  = (Ok tt,
     <[b := nth b arr 0
            + ConstantOne.np_sum (map (fun c => nth c arr 0) (children t b))]>
       arr).
Proof.
  intros Hb Hlen. unfold ConstantOne.coarsen_multipoles_box, mbind, lift.
  destruct (tree_ok_lengths t Htree) as (_ & _ & _ & _ & _ & Hrows).
  rewrite (column_ok _ b (nboxes t) Hrows Hb).
  rewrite for_each_skip_zero. fold (children t b).
  apply iadd_items; [lia |].
  intros c Hc. destruct (tree_ok_box t Htree b Hb) as (_ & Hch & _).
  destruct (Hch c Hc) as [H1 H2]. split; [lia |]. intros ->. lia.
Qed.

Lemma subtree_of_step b :
  (b < nboxes t)%nat -> (box_level t b + 2 <= nlevels t)%nat ->
  subtree_of t b = b :: flat_map (subtree_of t) (children t b).
Proof.
  intros Hb Hlev. unfold subtree_of.
  replace (nlevels t - 1 - box_level t b)%nat
    with (S (nlevels t - 2 - box_level t b)) by lia.
  simpl. f_equal. apply flat_map_ext_In. intros c Hc.
  destruct (tree_ok_box t Htree b Hb) as (_ & Hch & _).
  destruct (Hch c Hc) as [_ H2]. rewrite H2. f_equal. lia.
Qed.

Lemma subtree_of_leaf b : children t b = [] -> subtree_of t b = [b].
Proof.
  intros H. unfold subtree_of.
  destruct (nlevels t - 1 - box_level t b)%nat; simpl; [reflexivity |].
  rewrite H. reflexivity.
Qed.

Lemma coarsen_level_step lev arr :
  (2 <= lev)%nat -> (lev + 2 <= nlevels t)%nat -> inv (lev + 1) arr ->
  exists arr',
    ConstantOne.coarsen_multipoles_level t lssp spb (lev + 1) arr = (Ok tt, arr')
    /\ inv lev arr'.
Proof.
  intros H2 Hlev [Hlen Hinv].
  destruct (Hrange lev H2 Hlev) as [Hnd Hboxes].
  unfold ConstantOne.coarsen_multipoles_level, mbind, lift.
  replace (lev + 1 - 1)%nat with lev by lia.
  rewrite (unpack2_slice_ok lssp lev 0%nat) by lia.
  fold (level_range lssp spb lev).
  destruct (accumulate_level (level_range lssp spb lev) (children t)
              (ConstantOne.coarsen_multipoles_box t) (nboxes t) Hnd)
    with (arr := arr) as (arr' & Hrun & Hlen' & Hin & Hout).
  { intros b Hb. destruct (Hboxes b Hb) as [H1 H3]. split; [exact H1 |].
    intros c Hc. destruct (tree_ok_box t Htree b H1) as (_ & Hch & _).
    destruct (Hch c Hc) as [H4 H5]. split; [exact H4 |].
    intros Hc'. destruct (Hboxes c Hc') as [_ H6]. lia. }
  { intros b a Hb Ha. destruct (Hboxes b Hb) as [H1 _].
    apply coarsen_box_ok; assumption. }
  { exact Hlen. }
  exists arr'. split; [exact Hrun |]. split; [exact Hlen' |].
  intros b Hb.
  destruct (in_dec Nat.eq_dec b (level_range lssp spb lev)) as [Hbin | Hbin].
  - destruct (Hboxes b Hbin) as [_ Hbl]. split; [| intros; lia]. intros _.
    rewrite (Hin b Hbin). unfold total, sum_over.
    rewrite subtree_of_step by lia. simpl.
    rewrite (proj2 (Hinv b Hb)) by lia. f_equal.
    rewrite np_sum_flat_map. apply np_sum_map_ext. intros c Hc.
    destruct (tree_ok_box t Htree b Hb) as (_ & Hch & _).
    destruct (Hch c Hc) as [H4 H5].
    apply (proj1 (Hinv c H4)). lia.
  - rewrite (Hout b Hbin). split.
    + intros Hle.
      destruct (Nat.eq_dec (box_level t b) lev) as [E | E].
      * assert (Hnil : children t b = []).
        { destruct (children t b) eqn:Ech; [reflexivity |].
          exfalso. apply Hbin. rewrite <- E. apply Hlisted; [exact Hb | lia |].
          rewrite Ech. discriminate. }
        rewrite (proj2 (Hinv b Hb)) by lia.
        unfold total, sum_over. rewrite (subtree_of_leaf b Hnil). simpl. lia.
      * apply (proj1 (Hinv b Hb)). lia.
    + intros Hlt. apply (proj2 (Hinv b Hb)). lia.
Qed.

Lemma coarsen_levels_loop m :
  (m + 3 <= nlevels t)%nat -> forall arr, inv (m + 2) arr ->
  exists arr',
    for_each (rev (seq 3 m))
      (ConstantOne.coarsen_multipoles_level t lssp spb) arr = (Ok tt, arr')
    /\ inv 2 arr'.
Proof.
  induction m as [|m IH]; intros Hm arr Hinv.
  - exists arr. split; [reflexivity | exact Hinv].
  - rewrite seq_S, rev_app_distr.
    replace (3 + m)%nat with (m + 2 + 1)%nat by lia.
    change (rev [(m + 2 + 1)%nat] ++ rev (seq 3 m))
      with ((m + 2 + 1)%nat :: rev (seq 3 m)).
    destruct (coarsen_level_step (m + 2) arr ltac:(lia) ltac:(lia))
      as (arr1 & Hstep & Hinv1).
    { replace (m + 2 + 1)%nat with (S m + 2)%nat by lia. exact Hinv. }
    destruct (IH ltac:(lia) arr1 Hinv1) as (arr' & Hrun & Hinv').
    exists arr'. split; [| exact Hinv'].
    cbn [for_each]. unfold mbind. rewrite Hstep. exact Hrun.
Qed.

Lemma coarsen_multipoles_spec :
  exists final,
    ConstantOne.coarsen_multipoles t lssp spb arr0 = (Ok tt, final)
    /\ length final = nboxes t
    /\ forall b, (b < nboxes t)%nat ->
         ((2 <= box_level t b)%nat ->
          nth b final 0 = sum_over arr0 (subtree_of t b))
         /\ ((box_level t b < 2)%nat -> nth b final 0 = nth b arr0 0).
Proof.
  unfold ConstantOne.coarsen_multipoles, range_down.
  destruct (le_lt_dec 3 (nlevels t)) as [Hn | Hn].
  - destruct (coarsen_levels_loop (nlevels t - 3) ltac:(lia) arr0)
      as (final & Hrun & Hlen & Hinv).
    { split; [exact Hlen0 |]. intros b Hb. split; [| reflexivity].
      intros Hle. unfold total, sum_over, subtree_of.
      destruct (tree_ok_box t Htree b Hb) as (Hlt & _).
      replace (nlevels t - 1 - box_level t b)%nat with 0%nat by lia.
      simpl. lia. }
    exists final. replace (2 + 1)%nat with 3%nat by lia.
    replace (nlevels t - 1 - 2)%nat with (nlevels t - 3)%nat by lia.
    auto.
  - exists arr0. replace (nlevels t - 1 - 2)%nat with 0%nat by lia.
    split; [reflexivity |]. split; [exact Hlen0 |].
    intros b Hb. split; [| reflexivity]. intros Hle.
    destruct (tree_ok_box t Htree b Hb) as (Hlt & _). lia.
Qed.

End CoarsenRef.

(** ** The passes of the reference wrangler on a valid traversal *)

Lemma In_py_slice {A} (l : list A) a b x : In x (py_slice l a b) -> In x l.
Proof.
  unfold py_slice. intros H. apply list_elem_of_In in H.
  apply elem_of_take in H as (i & Hi & _). rewrite lookup_drop in Hi.
  apply list_elem_of_In. eapply list_elem_of_lookup_2. exact Hi.
Qed.

Lemma In_enumerate {X} (l : list X) k x :
  In (k, x) (enumerate l) -> (k < length l)%nat /\ In x l.
Proof.
  unfold enumerate. intros H. split.
  - apply in_combine_l in H. apply in_seq in H. lia.
  - apply in_combine_r in H. exact H.
Qed.

Lemma nth_repeat_Z n b : nth b (repeat 0 n) 0 = 0.
Proof.
  revert b. induction n as [|n IH]; intros [|b]; simpl; auto.
Qed.

Lemma filter_eq_NoDup (l : list nat) b :
  List.NoDup l ->
  List.filter (fun x => (x =? b)%nat) l = if memb b l then [b] else [].
Proof.
  intros Hnd. induction Hnd as [|x l Hnotin Hnd IH]; [reflexivity |].
  simpl. unfold memb in *. simpl. rewrite (Nat.eqb_sym b x).
  destruct (Nat.eqb_spec x b) as [-> | Hne]; simpl.
  - rewrite IH. destruct (existsb (Nat.eqb b) l) eqn:E; [| reflexivity].
    exfalso. apply Hnotin. apply memb_In. exact E.
  - exact IH.
Qed.

Lemma array_add_ok (a b : list Z) :
  length a = length b ->
  array_add a b = Ok (zip_with Z.add a b).
Proof. intros H. unfold array_add. rewrite H, Nat.eqb_refl. reflexivity. Qed.

Lemma nth_zip_add (a b : list Z) i :
  length a = length b ->
  nth i (zip_with Z.add a b) 0 = nth i a 0 + nth i b 0.
Proof.
  revert b i. induction a as [|x a IH]; intros [|y b] [|i] H; simpl in *;
    try discriminate; try reflexivity.
  apply IH. lia.
Qed.

(** A loop that adds up a function of values read one by one. *)
Lemma rfold_sum_of {X Y} (f : X -> result Y) (g : X -> Y) (h : Y -> Z)
    (l : list X) acc :
  (forall x, In x l -> f x = Ok (g x)) ->
  rfold (fun c x => m <~ f x ;; Ok (c + h m)) l acc
  = Ok (acc + ConstantOne.np_sum (map (fun x => h (g x)) l)).
Proof.
  revert acc. induction l as [|x l IH]; intros acc H; simpl.
  - f_equal. lia.
  - rewrite (H x) by (left; reflexivity). cbn [rbind].
    rewrite IH by (intros; apply H; right; assumption). f_equal. lia.
Qed.

(** A loop whose rounds each add a known amount to every position. *)
Lemma rfold_additive {X} (body : list Z -> X -> result (list Z))
    (delta : X -> nat -> Z) (l : list X) (n : nat) :
  (forall x a, In x l -> length a = n ->
     exists a', body a x = Ok a' /\ length a' = n
                /\ forall i, (i < n)%nat -> nth i a' 0 = nth i a 0 + delta x i) ->
  forall arr, length arr = n ->
  exists arr',
    rfold body l arr = Ok arr' /\ length arr' = n
    /\ forall i, (i < n)%nat ->
         nth i arr' 0
         = nth i arr 0 + ConstantOne.np_sum (map (fun x => delta x i) l).
Proof.
  induction l as [|x l IH]; intros Hbody arr Hlen.
  - exists arr. simpl. repeat split; auto. intros; lia.
  - destruct (Hbody x arr ltac:(left; reflexivity) Hlen) as (a1 & H1 & Hl1 & Hv1).
    destruct (IH ltac:(intros y a Hy; apply Hbody; right; exact Hy) a1 Hl1)
      as (arr' & Hrun & Hlen' & Hval).
    exists arr'. simpl. rewrite H1. cbn [rbind].
    split; [exact Hrun |]. split; [exact Hlen' |].
    intros i Hi. rewrite Hval, Hv1 by exact Hi. lia.
Qed.

Lemma np_sum_filter {X} (val : X -> Z) (P : X -> bool) (l : list X) :
  ConstantOne.np_sum (map val (List.filter P l))
  = ConstantOne.np_sum (map (fun x => if P x then val x else 0) l).
Proof.
  induction l as [|x l IH]; [reflexivity |]. simpl.
  destruct (P x); simpl; rewrite IH; reflexivity.
Qed.

Lemma In_row (c : csr) k s : In s (row c k) -> In s (lists c).
Proof. apply In_py_slice. Qed.

Lemma combine_seq_lookup {X} (l : list X) a k x :
  In (k, x) (combine (seq a (length l)) l) ->
  (a <= k)%nat /\ l !! (k - a)%nat = Some x.
Proof.
  revert a. induction l as [|y l IH]; intros a Hin; simpl in Hin; [easy |].
  destruct Hin as [[= <- <-] | Hin].
  - rewrite Nat.sub_diag. split; [lia | reflexivity].
  - apply IH in Hin as [Hle Hl]. split; [lia |].
    replace (k - a)%nat with (S (k - S a)) by lia. exact Hl.
Qed.

Lemma enumerate_lookup {X} (l : list X) k x :
  In (k, x) (enumerate l) -> l !! k = Some x.
Proof.
  intros H. apply combine_seq_lookup in H as [_ H].
  rewrite Nat.sub_0_r in H. exact H.
Qed.

Lemma In_combine_lookup {A B} (l1 : list A) (l2 : list B) k a b :
  l1 !! k = Some a -> l2 !! k = Some b -> In (a, b) (combine l1 l2).
Proof.
  revert l2 k. induction l1 as [|x l1 IH]; intros [|y l2] [|k] H1 H2;
    simpl in *; try discriminate.
  - left. congruence.
  - right. eapply IH; eauto.
Qed.

Lemma filter_combine_seq_length {X} (P : X -> bool) (l : list X) a :
  length (List.filter (fun kx => P (snd kx)) (combine (seq a (length l)) l))
  = length (List.filter P l).
Proof.
  revert a. induction l as [|y l IH]; intros a; [reflexivity |]. simpl.
  destruct (P y); simpl; rewrite IH; reflexivity.
Qed.

Lemma np_sum_map_add {X} (f g : X -> Z) (l : list X) :
  ConstantOne.np_sum (map (fun x => f x + g x) l)
  = ConstantOne.np_sum (map f l) + ConstantOne.np_sum (map g l).
Proof. induction l as [|x l IH]; simpl; [reflexivity | rewrite IH; lia]. Qed.

Lemma np_sum_guard {X} (own : X -> Z) (c : bool) (l : list X) :
  ConstantOne.np_sum (map own (if c then l else []))
  = if c then ConstantOne.np_sum (map own l) else 0.
Proof. destruct c; reflexivity. Qed.

(** ** Counting *)

Lemma np_sum_swap {X Y} (f : X -> Y -> Z) (lx : list X) (ly : list Y) :
  ConstantOne.np_sum (map (fun x => ConstantOne.np_sum (map (f x) ly)) lx)
  = ConstantOne.np_sum
      (map (fun y => ConstantOne.np_sum (map (fun x => f x y) lx)) ly).
Proof.
  induction lx as [|x lx IH]; simpl.
  - symmetry. apply np_sum_zero. reflexivity.
  - rewrite IH. symmetry. apply np_sum_map_add.
Qed.

Lemma np_sum_indicator (f : nat -> Z) (x a n : nat) :
  ConstantOne.np_sum (map (fun s => if (x =? s)%nat then f s else 0) (seq a n))
  = if ((a <=? x)%nat && (x <? a + n)%nat)%bool then f x else 0.
Proof.
  revert a. induction n as [|n IH]; intros a; simpl.
  - destruct (Nat.leb_spec a x), (Nat.ltb_spec x (a + 0)); simpl;
      reflexivity || lia.
  - rewrite IH.
    destruct (Nat.eqb_spec x a) as [E | Hne];
      destruct (Nat.leb_spec (S a) x), (Nat.ltb_spec x (S a + n)),
               (Nat.leb_spec a x), (Nat.ltb_spec x (a + S n));
      simpl; try subst x; lia.
Qed.

(** A sum over a list of boxes, regrouped by box. *)
Lemma np_sum_count (f : nat -> Z) (l : list nat) (n : nat) :
  (forall x, (n <= x)%nat -> f x = 0) ->
  ConstantOne.np_sum (map f l)
  = ConstantOne.np_sum
      (map (fun s => Z.of_nat (count_occ Nat.eq_dec l s) * f s) (seq 0 n)).
Proof.
  intros Hout. induction l as [|x l IH].
  - simpl. symmetry. apply np_sum_zero. reflexivity.
  - cbn [map ConstantOne.np_sum fold_right]. fold (ConstantOne.np_sum (map f l)).
    rewrite IH.
    rewrite (np_sum_map_ext
               (fun s => Z.of_nat (count_occ Nat.eq_dec (x :: l) s) * f s)
               (fun s => (if (x =? s)%nat then f s else 0)
                         + Z.of_nat (count_occ Nat.eq_dec l s) * f s)).
    2: { intros s _. simpl.
         destruct (Nat.eq_dec x s) as [-> | Hne].
         - rewrite Nat.eqb_refl. lia.
         - apply Nat.eqb_neq in Hne. rewrite Hne. lia. }
    rewrite np_sum_map_add, np_sum_indicator. f_equal.
    destruct (Nat.leb_spec 0 x), (Nat.ltb_spec x (0 + n)); simpl;
      try reflexivity; apply Hout; lia.
Qed.

(** The sum of a slice, as a sum over all positions. *)
Lemma slice_sum_indicator (wts : list Z) (a b : nat) :
  ConstantOne.slice_sum wts (a, b)
  = ConstantOne.np_sum
      (map (fun i => if in_range i (a, b) then nth i wts 0 else 0)
         (seq 0 (length wts))).
Proof.
  unfold ConstantOne.slice_sum, py_slice. cbn [fst snd].
  revert a b. induction wts as [|x l IH]; intros a b.
  - rewrite drop_nil, take_nil. reflexivity.
  - cbn [length]. rewrite <- cons_seq, <- seq_shift, map_cons, map_map.
    destruct a as [|a], b as [|b].
    + simpl. symmetry. apply np_sum_zero. reflexivity.
    + pose proof (IH 0%nat b) as IH0. rewrite Nat.sub_0_r in IH0.
      change (drop 0 l) with l in IH0. rewrite Nat.sub_0_r.
      change (drop 0 (x :: l)) with (x :: l). cbn [take].
      cbn [ConstantOne.np_sum fold_right].
      fold (ConstantOne.np_sum (take b l)). rewrite IH0. reflexivity.
    + simpl. symmetry. apply np_sum_zero. intros i _. unfold in_range.
      simpl. rewrite andb_false_r. reflexivity.
    + cbn [drop Nat.sub]. rewrite IH. reflexivity.
Qed.

(** The sums of ranges that partition an array add up to the sum of the
    array. *)
Lemma partition_sum (wts : list Z) (rng : nat -> pslice) (bs : list nat) :
  (forall i, (i < length wts)%nat ->
     length (List.filter (fun b => in_range i (rng b)) bs) = 1%nat) ->
  ConstantOne.np_sum (map (fun b => ConstantOne.slice_sum wts (rng b)) bs)
  = ConstantOne.np_sum wts.
Proof.
  intros Hone.
  rewrite (np_sum_map_ext _
             (fun b => ConstantOne.np_sum
                         (map (fun i => if in_range i (rng b)
                                        then nth i wts 0 else 0)
                            (seq 0 (length wts)))))
    by (intros b _; destruct (rng b); apply slice_sum_indicator).
  rewrite (np_sum_swap (fun b i => if in_range i (rng b) then nth i wts 0 else 0)).
  rewrite (np_sum_map_ext _ (fun i => nth i wts 0)).
  2: { intros i Hi. apply in_seq in Hi.
       rewrite <- (np_sum_filter (fun _ => nth i wts 0)
                     (fun b => in_range i (rng b))).
       specialize (Hone i ltac:(lia)).
       destruct (List.filter _ bs) as [|b [|b' r]]; simpl in Hone;
         try discriminate.
       simpl. lia. }
  clear Hone. induction wts as [|x l IH]; [reflexivity |].
  cbn [length]. rewrite <- cons_seq, <- seq_shift, map_cons, map_map.
  simpl. f_equal. exact IH.
Qed.

Lemma zip_add_length (a b : list Z) :
  length a = length b -> length (zip_with Z.add a b) = length a.
Proof.
  revert b. induction a as [|x a IH]; intros [|y b] H; simpl in *;
    try discriminate; [reflexivity |]. f_equal. apply IH. lia.
Qed.

Section Passes.

Variable t : Tree.
Variable trav : Traversal.
Variable wts : list Z.

Hypothesis Htree : tree_ok t = true.
Hypothesis Htrav : traversal_ok t trav = true.

(** Sum of the weights of the sources that a box owns. *)
Let own (b : nat) : Z := ConstantOne.slice_sum wts (source_range t b).

Lemma traversal_ok_parts :
  source_boxes_ok t trav = true /\ source_parent_boxes_ok t trav = true
  /\ target_boxes_ok t trav = true
  /\ target_or_target_parent_boxes_ok t trav = true
  /\ interaction_lists_ok t trav = true.
Proof.
  pose proof Htrav as H. unfold traversal_ok in H. split_andb. auto.
Qed.

Lemma own_empty b :
  nth b (box_source_counts_nonchild t) 0%nat = 0%nat -> own b = 0.
Proof.
  intros H. unfold own, ConstantOne.slice_sum, source_range, py_slice.
  cbn [fst snd]. rewrite H, Nat.add_0_r, Nat.sub_diag. reflexivity.
Qed.

Lemma subtree_below fuel b :
  (b < nboxes t)%nat -> forall d, In d (subtree t fuel b) -> (d < nboxes t)%nat.
Proof.
  revert b. induction fuel as [|f IH]; intros b Hb d Hd; simpl in Hd.
  - destruct Hd as [<- | []]. exact Hb.
  - destruct Hd as [<- | Hd]; [exact Hb |].
    apply in_flat_map in Hd as (c & Hc & Hd).
    destruct (tree_ok_box t Htree b Hb) as (_ & Hch & _).
    apply (IH c); [apply Hch; exact Hc | exact Hd].
Qed.

(** *** form_multipoles *)

Lemma form_multipoles_spec :
  exists mp0,
    ConstantOne.form_multipoles t (level_start_source_box_nrs trav)
      (source_boxes trav) wts = Ok mp0
    /\ length mp0 = nboxes t
    /\ forall b, (b < nboxes t)%nat -> nth b mp0 0 = own b.
Proof.
  destruct traversal_ok_parts as (Hsb & _).
  unfold source_boxes_ok in Hsb. split_andb.
  unfold ConstantOne.form_multipoles.
  rewrite (rfold_ext _ (fun a x => ConstantOne.item_iadd a x (own x))).
  2: { intros a x Hx.
       rewrite (get_source_slice_ok t Htree x)
         by (eapply all_below_In; eauto).
       reflexivity. }
  destruct (rfold_scatter (fun x => x) own (source_boxes trav)
              (ConstantOne.multipole_expansion_zeros t))
    as (mp0 & Hrun & Hlen & Hval).
  { intros x Hx. unfold ConstantOne.multipole_expansion_zeros.
    rewrite repeat_length. eapply all_below_In; eauto. }
  exists mp0. split; [exact Hrun |].
  unfold ConstantOne.multipole_expansion_zeros in Hlen.
  rewrite repeat_length in Hlen. split; [exact Hlen |].
  intros b Hb. rewrite Hval.
  unfold ConstantOne.multipole_expansion_zeros. rewrite nth_repeat_Z.
  rewrite filter_eq_NoDup by (apply nodupb_NoDup; assumption).
  destruct (memb b (source_boxes trav)) eqn:E; simpl; [lia |].
  match goal with
  | H : forallb _ (boxes t) = true |- _ =>
    apply (fun H' => forallb_seq _ 0 (nboxes t) b H') in H; [| lia];
      cbv beta in H; rewrite E, orb_false_r in H; apply Nat.eqb_eq in H
  end.
  rewrite own_empty by assumption. reflexivity.
Qed.


(** *** coarsen_multipoles *)

Lemma coarsened_multipoles_spec :
  exists mp0 mp,
    ConstantOne.form_multipoles t (level_start_source_box_nrs trav)
      (source_boxes trav) wts = Ok mp0
    /\ run_on (ConstantOne.coarsen_multipoles t
                 (level_start_source_parent_box_nrs trav)
                 (source_parent_boxes trav)) mp0 = Ok mp
    /\ length mp = nboxes t
    /\ forall s, (s < nboxes t)%nat -> (2 <= box_level t s)%nat ->
         nth s mp 0 = ConstantOne.np_sum (map own (subtree_of t s)).
Proof.
  destruct form_multipoles_spec as (mp0 & Hform & Hlen0 & Hval0).
  destruct traversal_ok_parts as (_ & Hspb & _).
  unfold source_parent_boxes_ok in Hspb. split_andb.
  destruct (coarsen_multipoles_spec t (level_start_source_parent_box_nrs trav)
              (source_parent_boxes trav) mp0 Htree Hlen0)
    as (mp & Hrun & Hlen & Hval).
  { apply Nat.leb_le. assumption. }
  { intros lev H2 Hlev.
    match goal with
    | H : forallb _ (seq 2 (nlevels t - 3)) = true |- _ =>
      apply (fun H' => forallb_seq _ 2 (nlevels t - 3) lev H') in H; [| lia];
        cbv beta zeta in H; apply andb_prop in H as [Hnd Hall]
    end.
    split; [apply nodupb_NoDup; exact Hnd |].
    intros b Hb. rewrite forallb_forall in Hall. specialize (Hall b Hb).
    apply andb_prop in Hall as [Hb1 Hb2].
    split; [apply Nat.ltb_lt; exact Hb1 | apply Nat.eqb_eq; exact Hb2]. }
  { intros b Hb H2 Hch.
    match goal with
    | H : forallb _ (boxes t) = true |- _ =>
      apply (fun H' => forallb_seq _ 0 (nboxes t) b H') in H; [| lia];
        cbv beta in H; apply orb_prop in H as [Hl | Hr]
    end.
    - apply Nat.ltb_lt in Hl. lia.
    - destruct (children t b); [contradiction |]. apply memb_In. exact Hr. }
  exists mp0, mp. split; [exact Hform |].
  split; [unfold run_on; rewrite Hrun; reflexivity |].
  split; [exact Hlen |].
  intros s Hs H2. rewrite (proj1 (Hval s Hs) H2). unfold sum_over.
  apply np_sum_map_ext. intros d Hd. apply Hval0.
  apply (subtree_below _ s Hs d Hd).
Qed.

(** *** Loops over the rows of an interaction list *)

Lemma scatter_rows (sts : list nat) (inner : nat -> nat -> result Z)
    (val : nat -> Z) (l : list nat) :
  (length l + 1 <= length sts)%nat -> all_below (nboxes t) l = true ->
  (forall k, (k < length l)%nat ->
     inner (nth k sts 0%nat) (nth (k + 1) sts 0%nat) = Ok (val k)) ->
  exists arr,
    rfold (fun local_exps it =>
             let '(itgt_box, tgt_ibox) := it in
             bind2 (start, stop) <~
               unpack2 (py_slice sts itgt_box (itgt_box + 2)) ;;
             contrib <~ inner start stop ;;
             ConstantOne.item_iadd local_exps tgt_ibox contrib)
      (enumerate l) (repeat 0 (nboxes t)) = Ok arr
    /\ length arr = nboxes t
    /\ forall a, nth a arr 0
                 = ConstantOne.np_sum
                     (map (fun qa => val (fst qa))
                        (List.filter (fun qa => (snd qa =? a)%nat)
                           (enumerate l))).
Proof.
  intros Hsts Hl Hinner.
  rewrite (rfold_ext _ (fun a it => ConstantOne.item_iadd a (snd it)
                                      (val (fst it)))).
  2: { intros a [k x] Hkx. apply In_enumerate in Hkx as [Hk _].
       rewrite (unpack2_slice_ok sts k 0%nat) by lia. cbn [rbind].
       rewrite Hinner by exact Hk. reflexivity. }
  destruct (rfold_scatter (fun it : nat * nat => snd it)
              (fun it => val (fst it)) (enumerate l) (repeat 0 (nboxes t)))
    as (arr & Hrun & Hlen & Hval).
  { intros [k x] Hkx. apply In_enumerate in Hkx as [_ Hx].
    rewrite repeat_length. eapply all_below_In; eauto. }
  exists arr. split; [exact Hrun |]. rewrite repeat_length in Hlen.
  split; [exact Hlen |]. intros a. rewrite Hval, nth_repeat_Z. lia.
Qed.

Lemma slice_rows (sts : list nat) (inner : nat -> nat -> result Z)
    (val : nat -> Z) (l : list nat) (pot : list Z) :
  (length l + 1 <= length sts)%nat -> all_below (nboxes t) l = true ->
  (forall k, (k < length l)%nat ->
     inner (nth k sts 0%nat) (nth (k + 1) sts 0%nat) = Ok (val k)) ->
  exists pot',
    rfold (fun pot it =>
             let '(itgt_box, tgt_ibox) := it in
             tgt_pslice <~ ConstantOne._get_target_slice t tgt_ibox ;;
             bind2 (start, stop) <~
               unpack2 (py_slice sts itgt_box (itgt_box + 2)) ;;
             contrib <~ inner start stop ;;
             Ok (ConstantOne.slice_iadd pot tgt_pslice contrib))
      (enumerate l) pot = Ok pot'
    /\ length pot' = length pot
    /\ forall i, (i < length pot)%nat ->
         nth i pot' 0
         = nth i pot 0
           + ConstantOne.np_sum
               (map (fun jt => val (fst jt))
                  (List.filter (fun jt => in_range i (target_range t (snd jt)))
                     (enumerate l))).
Proof.
  intros Hsts Hl Hinner.
  rewrite (rfold_ext _ (fun a it =>
             Ok (ConstantOne.slice_iadd a (target_range t (snd it))
                   (val (fst it))))).
  2: { intros a [k x] Hkx. apply In_enumerate in Hkx as [Hk Hx].
       rewrite (get_target_slice_ok t Htree x)
         by (eapply all_below_In; eauto). cbn [rbind].
       rewrite (unpack2_slice_ok sts k 0%nat) by lia. cbn [rbind].
       rewrite Hinner by exact Hk. reflexivity. }
  apply rfold_slice_iadd.
Qed.


Lemma interaction_lists_facts :
  (forall s, In s (lists (from_sep_siblings trav)) ->
     (s < nboxes t)%nat /\ (2 <= box_level t s)%nat)
  /\ (forall c s, In c (from_sep_smaller_by_level trav) -> In s (lists c) ->
        (s < nboxes t)%nat /\ (2 <= box_level t s)%nat)
  /\ all_below (nboxes t) (lists (from_sep_bigger trav)) = true
  /\ (length (from_sep_smaller_by_level trav)
      <= length (target_boxes_sep_smaller_by_source_level trav))%nat
  /\ (forall tbs c,
        In (tbs, c) (combine (target_boxes_sep_smaller_by_source_level trav)
                       (from_sep_smaller_by_level trav)) ->
        all_below (nboxes t) tbs = true
        /\ (length tbs + 1 <= length (starts c))%nat).
Proof.
  destruct traversal_ok_parts as (_ & _ & _ & _ & H).
  unfold interaction_lists_ok in H. split_andb.
  split.
  { intros s Hs.
    match goal with
    | H : forallb _ (lists (from_sep_siblings trav)) = true |- _ =>
      rewrite forallb_forall in H; specialize (H s Hs);
        apply andb_prop in H as [Hs1 Hs2]
    end.
    split; [apply Nat.ltb_lt; exact Hs1 | apply Nat.leb_le; exact Hs2]. }
  split.
  { intros c s Hc Hs.
    match goal with
    | H : forallb _ (from_sep_smaller_by_level trav) = true |- _ =>
      rewrite forallb_forall in H; specialize (H c Hc);
        rewrite forallb_forall in H; specialize (H s Hs);
        apply andb_prop in H as [Hs1 Hs2]
    end.
    split; [apply Nat.ltb_lt; exact Hs1 | apply Nat.leb_le; exact Hs2]. }
  split; [assumption |].
  split; [apply Nat.leb_le; assumption |].
  intros tbs c Hin.
  match goal with
  | H : forallb _ (combine _ _) = true |- _ =>
    rewrite forallb_forall in H; specialize (H (tbs, c) Hin);
      cbn [fst snd] in H; apply andb_prop in H as [Hc1 Hc2]
  end.
  split; [exact Hc1 | apply Nat.leb_le; exact Hc2].
Qed.

Lemma totp_facts :
  all_below (nboxes t) (target_or_target_parent_boxes trav) = true
  /\ (length (target_or_target_parent_boxes trav) + 1
      <= length (starts (from_sep_siblings trav)))%nat
  /\ (length (target_or_target_parent_boxes trav) + 1
      <= length (starts (from_sep_bigger trav)))%nat.
Proof.
  destruct traversal_ok_parts as (_ & _ & _ & H & _).
  unfold target_or_target_parent_boxes_ok in H. split_andb.
  repeat split; try assumption; apply Nat.leb_le; assumption.
Qed.

(** What reaches a box of the target or target parent list from the
    well-separated boxes and from the boxes forming locals directly. *)
Let far_boxes (q : nat) : list nat :=
  flat_map (subtree_of t) (row (from_sep_siblings trav) q).
Let bigger_boxes (q : nat) : list nat := row (from_sep_bigger trav) q.

(** *** multipole_to_local and form_locals *)

Lemma multipole_to_local_spec mp :
  length mp = nboxes t ->
  (forall s, (s < nboxes t)%nat -> (2 <= box_level t s)%nat ->
     nth s mp 0 = ConstantOne.np_sum (map own (subtree_of t s))) ->
  exists loc1,
    ConstantOne.multipole_to_local t
      (level_start_target_or_target_parent_box_nrs trav)
      (target_or_target_parent_boxes trav)
      (starts (from_sep_siblings trav)) (lists (from_sep_siblings trav)) mp
    = Ok loc1
    /\ length loc1 = nboxes t
    /\ forall a, nth a loc1 0
                 = ConstantOne.np_sum
                     (map (fun qa => ConstantOne.np_sum
                                       (map own (far_boxes (fst qa))))
                        (List.filter (fun qa => (snd qa =? a)%nat)
                           (enumerate (target_or_target_parent_boxes trav)))).
Proof.
  intros Hlen Hmp. destruct totp_facts as (Hbelow & Hst2 & _).
  destruct interaction_lists_facts as (Hl2 & _).
  apply (scatter_rows (starts (from_sep_siblings trav))
           (fun start stop =>
              rfold (fun contrib src_ibox =>
                       m <~ py_index mp src_ibox ;; Ok (contrib + m))
                (py_slice (lists (from_sep_siblings trav)) start stop) 0)
           (fun k => ConstantOne.np_sum (map own (far_boxes k)))
           (target_or_target_parent_boxes trav) Hst2 Hbelow).
  intros k Hk. fold (row (from_sep_siblings trav) k).
  rewrite (rfold_sum _ (fun s => nth s mp 0)).
  2: { intros s Hs. apply In_row in Hs. destruct (Hl2 s Hs) as [Hs1 _].
       apply py_index_ok, lookup_nth_lt. lia. }
  f_equal. rewrite Z.add_0_l. unfold far_boxes. rewrite np_sum_flat_map.
  apply np_sum_map_ext. intros s Hs. apply In_row in Hs.
  destruct (Hl2 s Hs) as [Hs1 Hs2]. apply Hmp; assumption.
Qed.

Lemma form_locals_spec :
  exists loc2,
    ConstantOne.form_locals t
      (level_start_target_or_target_parent_box_nrs trav)
      (target_or_target_parent_boxes trav)
      (starts (from_sep_bigger trav)) (lists (from_sep_bigger trav)) wts
    = Ok loc2
    /\ length loc2 = nboxes t
    /\ forall a, nth a loc2 0
                 = ConstantOne.np_sum
                     (map (fun qa => ConstantOne.np_sum
                                       (map own (bigger_boxes (fst qa))))
                        (List.filter (fun qa => (snd qa =? a)%nat)
                           (enumerate (target_or_target_parent_boxes trav)))).
Proof.
  destruct totp_facts as (Hbelow & _ & Hst4).
  destruct interaction_lists_facts as (_ & _ & Hl4 & _).
  apply (scatter_rows (starts (from_sep_bigger trav))
           (fun start stop =>
              rfold (fun contrib src_ibox =>
                       src_pslice <~ ConstantOne._get_source_slice t src_ibox ;;
                       Ok (contrib + ConstantOne.slice_sum wts src_pslice))
                (py_slice (lists (from_sep_bigger trav)) start stop) 0)
           (fun k => ConstantOne.np_sum (map own (bigger_boxes k)))
           (target_or_target_parent_boxes trav) Hst4 Hbelow).
  intros k Hk. fold (row (from_sep_bigger trav) k).
  rewrite (rfold_sum_of _ (source_range t) (ConstantOne.slice_sum wts)).
  2: { intros s Hs. apply In_row in Hs. apply get_source_slice_ok; [exact Htree |].
       eapply all_below_In; eauto. }
  f_equal.
Qed.


(** *** refine_locals *)

Lemma target_boxes_facts :
  all_below (nboxes t) (target_boxes trav) = true
  /\ (length (target_boxes trav) + 1
      <= length (starts (neighbor_source_boxes trav)))%nat
  /\ all_below (nboxes t) (lists (neighbor_source_boxes trav)) = true
  /\ forall i, (i < ntargets t)%nat ->
       length (List.filter (fun tb => in_range i (target_range t tb))
                 (target_boxes trav)) = 1%nat.
Proof.
  destruct traversal_ok_parts as (_ & _ & H & _).
  unfold target_boxes_ok in H. split_andb.
  split; [assumption |]. split; [apply Nat.leb_le; assumption |].
  split; [assumption |]. intros i Hi.
  match goal with
  | H : forallb _ (seq 0 (ntargets t)) = true |- _ =>
    apply (fun H' => forallb_seq _ 0 (ntargets t) i H') in H; [| lia];
      cbv beta in H; apply Nat.eqb_eq in H; exact H
  end.
Qed.

Lemma refined_locals_spec loc :
  length loc = nboxes t ->
  exists loc',
    run_on (ConstantOne.refine_locals t
              (level_start_target_or_target_parent_box_nrs trav)
              (target_or_target_parent_boxes trav)) loc = Ok loc'
    /\ length loc' = nboxes t
    /\ forall tb, In tb (target_boxes trav) ->
         nth tb loc' 0 = sum_over loc (ancestors_of t tb).
Proof.
  intros Hlen. destruct traversal_ok_parts as (_ & _ & _ & Htotp & _).
  destruct (tree_ok_lengths t Htree) as (_ & _ & _ & _ & Hpar & _).
  destruct (refine_locals_spec t
              (level_start_target_or_target_parent_box_nrs trav)
              (target_or_target_parent_boxes trav) loc)
    as (loc' & Hrun & Hlen' & Hval).
  { apply (totp_starts t trav Htotp). }
  { lia. }
  { intros lev Hlev. rewrite Hlen.
    apply (totp_range_facts t trav Htree Htotp lev Hlev). }
  { intros lev b Hlev.
    apply (totp_level t trav Htotp lev); lia. }
  exists loc'. split; [unfold run_on; rewrite Hrun; reflexivity |].
  split; [lia |]. intros tb Htb.
  destruct target_boxes_facts as (Hbelow & _).
  pose proof (all_below_In _ _ _ Hbelow Htb) as Htbn.
  destruct (tree_ok_box t Htree tb Htbn) as (Hlev & _).
  pose proof Htotp as H. unfold target_or_target_parent_boxes_ok in H.
  split_andb.
  match goal with
  | H : forallb _ (target_boxes trav) = true |- _ =>
    rewrite forallb_forall in H; specialize (H tb Htb);
      apply orb_prop in H as [Hl | Hr]
  end.
  - apply Nat.eqb_eq in Hl.
    rewrite (proj2 (Hval tb)) by (intros [Hle _]; lia).
    unfold sum_over, ancestors_of. rewrite Hl. simpl. lia.
  - apply memb_In in Hr.
    destruct (Nat.eq_dec (box_level t tb) 0%nat) as [E | E].
    + rewrite (proj2 (Hval tb)) by (intros [Hle _]; lia).
      unfold sum_over, ancestors_of. rewrite E. simpl. lia.
    + apply (proj1 (Hval tb)). split; [lia | exact Hr].
Qed.

(** *** The evaluation passes *)

Lemma eval_multipoles_spec mp :
  length mp = nboxes t ->
  (forall s, (s < nboxes t)%nat -> (2 <= box_level t s)%nat ->
     nth s mp 0 = ConstantOne.np_sum (map own (subtree_of t s))) ->
  exists pot,
    ConstantOne.eval_multipoles t
      (target_boxes_sep_smaller_by_source_level trav)
      (from_sep_smaller_by_level trav) mp = Ok pot
    /\ length pot = ntargets t
    /\ forall i, (i < ntargets t)%nat ->
         nth i pot 0
         = ConstantOne.np_sum
             (map own
                (flat_map (fun ls =>
                   flat_map (fun jt =>
                       if in_range i (target_range t (snd jt))
                       then flat_map (subtree_of t) (row (snd ls) (fst jt))
                       else [])
                     (enumerate
                        (nth (fst ls)
                           (target_boxes_sep_smaller_by_source_level trav) [])))
                   (enumerate (from_sep_smaller_by_level trav)))).
Proof.
  intros Hlen Hmp.
  destruct interaction_lists_facts as (_ & Hl3 & _ & Hlen3 & Hcomb).
  unfold ConstantOne.eval_multipoles.
  destruct (rfold_additive
              (fun pot ls =>
                 let '(level, ssn) := ls in
                 tbs <~ py_index (target_boxes_sep_smaller_by_source_level trav)
                          level ;;
                 rfold (fun pot it =>
                          let '(itgt_box, tgt_ibox) := it in
                          tgt_pslice <~ ConstantOne._get_target_slice t tgt_ibox ;;
                          bind2 (start, stop) <~
                            unpack2 (py_slice (starts ssn) itgt_box
                                       (itgt_box + 2)) ;;
                          contrib <~ rfold (fun contrib src_ibox =>
                                              m <~ py_index mp src_ibox ;;
                                              Ok (contrib + m))
                                       (py_slice (lists ssn) start stop) 0 ;;
                          Ok (ConstantOne.slice_iadd pot tgt_pslice contrib))
                   (enumerate tbs) pot)
              (fun ls i =>
                 ConstantOne.np_sum
                   (map (fun jt =>
                           ConstantOne.np_sum
                             (map own (flat_map (subtree_of t)
                                         (row (snd ls) (fst jt)))))
                      (List.filter
                         (fun jt => in_range i (target_range t (snd jt)))
                         (enumerate
                            (nth (fst ls)
                               (target_boxes_sep_smaller_by_source_level trav)
                               [])))))
              (enumerate (from_sep_smaller_by_level trav)) (ntargets t))
    with (arr := ConstantOne.potential_zeros t)
    as (pot & Hrun & Hlenp & Hval).
  { intros [lev ssn] a Hin Ha. cbn [fst snd].
    pose proof (In_enumerate _ _ _ Hin) as [Hlev Hssn].
    apply enumerate_lookup in Hin.
    pose proof (lookup_nth_lt (target_boxes_sep_smaller_by_source_level trav)
                  lev [] ltac:(lia)) as Htbs.
    rewrite (py_index_ok _ _ _ Htbs). cbn [rbind].
    destruct (Hcomb _ _ (In_combine_lookup _ _ _ _ _ Htbs Hin)) as [Hb Hst].
    destruct (slice_rows (starts ssn)
                (fun start stop =>
                   rfold (fun contrib src_ibox =>
                            m <~ py_index mp src_ibox ;; Ok (contrib + m))
                     (py_slice (lists ssn) start stop) 0)
                (fun k => ConstantOne.np_sum
                            (map own (flat_map (subtree_of t) (row ssn k))))
                (nth lev (target_boxes_sep_smaller_by_source_level trav) [])
                a Hst Hb) as (a' & Hrun' & Hlen' & Hval').
    { intros k Hk. fold (row ssn k).
      rewrite (rfold_sum _ (fun s => nth s mp 0)).
      2: { intros s Hs. apply In_row in Hs.
           destruct (Hl3 ssn s Hssn Hs) as [Hs1 _].
           apply py_index_ok, lookup_nth_lt. lia. }
      f_equal. rewrite Z.add_0_l, np_sum_flat_map.
      apply np_sum_map_ext. intros s Hs. apply In_row in Hs.
      destruct (Hl3 ssn s Hssn Hs) as [Hs1 Hs2]. apply Hmp; assumption. }
    exists a'. split; [exact Hrun' |]. split; [lia |].
    intros i Hi. apply Hval'. lia. }
  { unfold ConstantOne.potential_zeros. apply repeat_length. }
  exists pot. split; [exact Hrun |]. split; [exact Hlenp |].
  intros i Hi. rewrite (Hval i Hi).
  unfold ConstantOne.potential_zeros. rewrite nth_repeat_Z, Z.add_0_l.
  rewrite np_sum_flat_map. apply np_sum_map_ext. intros ls _.
  rewrite np_sum_flat_map, np_sum_filter.
  apply np_sum_map_ext. intros jt _. rewrite np_sum_guard. reflexivity.
Qed.

Lemma eval_locals_spec loc' :
  length loc' = nboxes t ->
  exists pot,
    ConstantOne.eval_locals t (level_start_target_box_nrs trav)
      (target_boxes trav) loc' = Ok pot
    /\ length pot = ntargets t
    /\ forall i, (i < ntargets t)%nat ->
         nth i pot 0
         = ConstantOne.np_sum
             (map (fun tb => nth tb loc' 0)
                (List.filter (fun tb => in_range i (target_range t tb))
                   (target_boxes trav))).
Proof.
  intros Hlen. destruct target_boxes_facts as (Hbelow & _).
  unfold ConstantOne.eval_locals.
  rewrite (rfold_ext _ (fun a tb =>
             Ok (ConstantOne.slice_iadd a (target_range t tb)
                   (nth tb loc' 0)))).
  2: { intros a tb Htb. pose proof (all_below_In _ _ _ Hbelow Htb) as Hn.
       rewrite (get_target_slice_ok t Htree tb Hn). cbn [rbind].
       rewrite (py_index_ok _ _ _ (lookup_nth_lt loc' tb 0 ltac:(lia))).
       reflexivity. }
  destruct (rfold_slice_iadd (target_range t) (fun tb => nth tb loc' 0)
              (target_boxes trav) (ConstantOne.potential_zeros t))
    as (pot & Hrun & Hlenp & Hval).
  unfold ConstantOne.potential_zeros in Hlenp, Hval.
  rewrite repeat_length in Hlenp, Hval.
  exists pot. split; [exact Hrun |]. split; [exact Hlenp |].
  intros i Hi. rewrite (Hval i Hi), nth_repeat_Z. lia.
Qed.

Lemma eval_direct_spec :
  exists pot,
    ConstantOne.eval_direct t (target_boxes trav)
      (starts (neighbor_source_boxes trav))
      (lists (neighbor_source_boxes trav)) wts = Ok pot
    /\ length pot = ntargets t
    /\ forall i, (i < ntargets t)%nat ->
         nth i pot 0
         = ConstantOne.np_sum
             (map own
                (flat_map (fun kt =>
                    if in_range i (target_range t (snd kt))
                    then row (neighbor_source_boxes trav) (fst kt) else [])
                   (enumerate (target_boxes trav)))).
Proof.
  destruct target_boxes_facts as (Hbelow & Hst & Hl1 & Hone).
  unfold ConstantOne.eval_direct.
  rewrite (rfold_ext _ (fun a kt =>
             Ok (ConstantOne.slice_assign a (target_range t (snd kt))
                   (ConstantOne.np_sum
                      (map own (row (neighbor_source_boxes trav) (fst kt))))))).
  2: { intros a [k tb] Hin. apply In_enumerate in Hin as [Hk Htb].
       rewrite (get_target_slice_ok t Htree tb)
         by (exact (all_below_In _ _ _ Hbelow Htb)). cbn [rbind].
       rewrite (unpack2_slice_ok _ k 0%nat) by lia. cbn [rbind].
       fold (row (neighbor_source_boxes trav) k).
       rewrite (rfold_sum_of _ (source_range t) (ConstantOne.slice_sum wts)).
       2: { intros s Hs. apply In_row in Hs.
            apply get_source_slice_ok; [exact Htree |].
            exact (all_below_In _ _ _ Hl1 Hs). }
       cbn [rbind fst snd]. rewrite Z.add_0_l. reflexivity. }
  destruct (rfold_slice_assign (fun kt : nat * nat => target_range t (snd kt))
              (fun kt => ConstantOne.np_sum
                           (map own (row (neighbor_source_boxes trav) (fst kt))))
              (enumerate (target_boxes trav)) (ConstantOne.potential_zeros t))
    as (pot & Hrun & Hlenp & Hval).
  unfold ConstantOne.potential_zeros in Hlenp, Hval.
  rewrite repeat_length in Hlenp, Hval.
  exists pot. split; [exact Hrun |]. split; [exact Hlenp |].
  intros i Hi. rewrite (Hval i Hi).
  rewrite np_sum_flat_map.
  rewrite (np_sum_map_ext _
             (fun kt => if in_range i (target_range t (snd kt))
                        then ConstantOne.np_sum
                               (map own (row (neighbor_source_boxes trav)
                                           (fst kt)))
                        else 0))
    by (intros; apply np_sum_guard).
  rewrite <- (np_sum_filter
                (fun kt => ConstantOne.np_sum
                             (map own (row (neighbor_source_boxes trav)
                                         (fst kt))))
                (fun kt => in_range i (target_range t (snd kt)))).
  pose proof (filter_combine_seq_length
                (fun tb => in_range i (target_range t tb))
                (target_boxes trav) 0) as Hf.
  rewrite (Hone i Hi) in Hf. fold (enumerate (target_boxes trav)) in Hf.
  destruct (List.filter _ (enumerate (target_boxes trav))) as [|kt [|kt' r]];
    simpl in Hf; try discriminate.
  simpl. lia.
Qed.


(** *** The whole run *)

Lemma locals_at_ancestors loc1 loc2 a :
  length loc1 = length loc2 ->
  (forall a, nth a loc1 0
             = ConstantOne.np_sum
                 (map (fun qa => ConstantOne.np_sum
                                   (map own (far_boxes (fst qa))))
                    (List.filter (fun qa => (snd qa =? a)%nat)
                       (enumerate (target_or_target_parent_boxes trav))))) ->
  (forall a, nth a loc2 0
             = ConstantOne.np_sum
                 (map (fun qa => ConstantOne.np_sum
                                   (map own (bigger_boxes (fst qa))))
                    (List.filter (fun qa => (snd qa =? a)%nat)
                       (enumerate (target_or_target_parent_boxes trav))))) ->
  nth a (zip_with Z.add loc1 loc2) 0
  = ConstantOne.np_sum
      (map own
         (flat_map (fun qa =>
             if (snd qa =? a)%nat
             then flat_map (subtree_of t) (row (from_sep_siblings trav) (fst qa))
                  ++ row (from_sep_bigger trav) (fst qa)
             else [])
            (enumerate (target_or_target_parent_boxes trav)))).
Proof.
  intros Hlen H1 H2. rewrite nth_zip_add by exact Hlen.
  rewrite H1, H2, !np_sum_filter, <- np_sum_map_add, np_sum_flat_map.
  apply np_sum_map_ext. intros qa _. rewrite np_sum_guard.
  destruct (snd qa =? a)%nat; [| reflexivity].
  rewrite map_app, np_sum_app. reflexivity.
Qed.

Lemma drive_fmm_covering :
  exists pot,
    drive_fmm t trav wts = Ok pot
    /\ length pot = ntargets t
    /\ forall i, (i < ntargets t)%nat ->
         nth i pot 0 = ConstantOne.np_sum (map own (covering t trav i)).
Proof.
  destruct coarsened_multipoles_spec as (mp0 & mp & Hform & Hco & Hlen & Hmp).
  destruct (multipole_to_local_spec mp Hlen Hmp) as (loc1 & Hm2l & Hlen1 & Hv1).
  destruct form_locals_spec as (loc2 & Hfl & Hlen2 & Hv2).
  assert (Hlen12 : length loc1 = length loc2) by lia.
  destruct (refined_locals_spec (zip_with Z.add loc1 loc2))
    as (loc' & Href & Hlen' & Hv').
  { rewrite zip_add_length; assumption. }
  destruct (eval_multipoles_spec mp Hlen Hmp) as (p3 & Hem & Hlen3 & Hv3).
  destruct (eval_locals_spec loc' Hlen') as (pl & Hel & Hlenl & Hvl).
  destruct eval_direct_spec as (pd & Hed & Hlend & Hvd).
  assert (Hlen3l : length p3 = length pl) by lia.
  assert (Hlen3d : length (zip_with Z.add p3 pl) = length pd)
    by (rewrite zip_add_length; lia).
  exists (zip_with Z.add (zip_with Z.add p3 pl) pd).
  split; [| split].
  - unfold drive_fmm. rewrite Hform. cbn [rbind]. rewrite Hco. cbn [rbind].
    rewrite Hm2l. cbn [rbind]. rewrite Hfl. cbn [rbind].
    rewrite (array_add_ok _ _ Hlen12). cbn [rbind]. rewrite Href.
    cbn [rbind]. rewrite Hem. cbn [rbind]. rewrite Hel. cbn [rbind].
    rewrite (array_add_ok _ _ Hlen3l). cbn [rbind]. rewrite Hed.
    cbn [rbind]. rewrite (array_add_ok _ _ Hlen3d). reflexivity.
  - rewrite !zip_add_length; lia.
  - intros i Hi. rewrite !nth_zip_add by assumption.
    rewrite (Hv3 i Hi), (Hvl i Hi), (Hvd i Hi).
    unfold covering. rewrite !map_app, !np_sum_app.
    match goal with
    | |- ?a + ?b + ?c = ?c' + (?a' + ?b') =>
      assert (Hb : b = b'); [| rewrite Hb; lia]
    end.
    rewrite np_sum_flat_map, np_sum_filter.
    apply np_sum_map_ext. intros tb Htb. rewrite np_sum_guard.
    destruct (in_range i (target_range t tb)); [| reflexivity].
    rewrite (Hv' tb Htb). unfold sum_over. rewrite np_sum_flat_map.
    apply np_sum_map_ext. intros a _.
    apply locals_at_ancestors; assumption.
Qed.

(** Every box with sources is covered once, so the sum over the covering
    boxes is the sum over all boxes. *)
Lemma covering_sum i :
  complete t trav = true -> (i < ntargets t)%nat ->
  ConstantOne.np_sum (map own (covering t trav i))
  = ConstantOne.np_sum (map own (boxes t)).
Proof.
  intros Hcomplete Hi.
  destruct (tree_ok_lengths t Htree) as (_ & Hcounts & _).
  rewrite (np_sum_count own (covering t trav i) (nboxes t)).
  2: { intros x Hx. apply own_empty. apply nth_overflow. lia. }
  apply np_sum_map_ext. intros s Hs.
  unfold complete in Hcomplete.
  apply (fun H' => forallb_seq _ 0 (ntargets t) i H') in Hcomplete; [| lia].
  cbv beta in Hcomplete. rewrite forallb_forall in Hcomplete.
  specialize (Hcomplete s Hs). apply orb_prop in Hcomplete as [H0 | H1].
  - apply Nat.eqb_eq in H0. rewrite (own_empty s H0). lia.
  - apply Nat.eqb_eq in H1. rewrite H1. lia.
Qed.

(** With a complete traversal every target receives the sum of all the
    weights. *)
Lemma drive_fmm_total :
  complete t trav = true -> length wts = nsources t ->
  exists pot,
    drive_fmm t trav wts = Ok pot
    /\ length pot = ntargets t
    /\ forall i, (i < ntargets t)%nat -> nth i pot 0 = ConstantOne.np_sum wts.
Proof.
  intros Hcomplete Hwts.
  destruct drive_fmm_covering as (pot & Hrun & Hlen & Hval).
  exists pot. split; [exact Hrun |]. split; [exact Hlen |].
  intros i Hi. rewrite (Hval i Hi), (covering_sum i Hcomplete Hi).
  apply partition_sum. intros j Hj. apply (tree_ok_sources t Htree). lia.
Qed.

End Passes.

Lemma repeat_ext (l : list Z) (v : Z) (n : nat) :
  length l = n -> (forall i, (i < n)%nat -> nth i l 0 = v) -> l = repeat v n.
Proof.
  revert n. induction l as [|x l IH]; intros [|n] Hlen Hval; simpl in *;
    try discriminate; [reflexivity |].
  f_equal.
  - apply (Hval 0%nat). lia.
  - apply IH; [lia |]. intros i Hi. apply (Hval (S i)). lia.
Qed.

(** ** Conservation *)

(** C1.  On a valid tree with a valid and complete traversal (every box
    that owns sources is covered exactly once for every target) the nine
    operations of the constant-kernel reference wrangler, run in the order
    of the driver on unit source weights, return without an error, and the
    potential at every target index is exactly the number of sources. *)
Theorem constant_one_conservation (t : Tree) (trav : Traversal) :
  tree_ok t = true ->
  traversal_ok t trav = true ->
  complete t trav = true ->
  drive_fmm t trav (repeat 1 (nsources t))
  = Ok (repeat (Z.of_nat (nsources t)) (ntargets t)).
Proof.
  intros Htree Htrav Hcomplete.
  destruct (drive_fmm_total t trav (repeat 1 (nsources t)) Htree Htrav
              Hcomplete (repeat_length _ _))
    as (pot & Hrun & Hlen & Hval).
  rewrite Hrun. f_equal. apply repeat_ext; [exact Hlen |].
  intros i Hi. rewrite (Hval i Hi). apply np_sum_repeat_one.
Qed.

Lemma constant_one_conservation_witness :
  tree_ok demo_tree = true
  /\ traversal_ok demo_tree demo_traversal = true
  /\ complete demo_tree demo_traversal = true
  /\ drive_fmm demo_tree demo_traversal (repeat 1 6) = Ok (repeat 6 6).
Proof.
  split; [reflexivity |]. split; [reflexivity |]. split; [reflexivity |].
  exact (constant_one_conservation demo_tree demo_traversal
           eq_refl eq_refl eq_refl).
Defined.

(** * Further properties of the reference wrangler *)


Lemma py_index_raises {A} (a : list A) i e :
  py_index a i = Raise e -> e = IndexError.
Proof. unfold py_index. destruct (a !! i); congruence. Qed.

















(** * Further properties of the driver *)





(** * Further properties of the pyfmmlib wrangler *)

(** ** Writes through views stay within a region of the buffer *)

Section Region.

Context {C : Type}.
Variable cadd : C -> C -> C.
Variable buf0 : list C.
Variables lo hi : nat.

(** The buffer of the state agrees with [buf0] outside [lo .. hi-1]. *)
Let region (s : list C * log C) : Prop :=
  agree_outside lo hi buf0 (fst s).

Lemma region_get_buf :
  preserves region (fun b : list C => length b = length buf0) get_buf.
Proof.
  intros s r s' HP [= <- <-]. split; [exact HP |].
  intros a [= <-]. apply HP.
Qed.

Lemma region_invoke rout k :
  preserves region (fun _ : kernel_out C => True) (invoke rout k).
Proof.
  intros [buf lg] r s' HP [= <- <-]. split; [exact HP | auto].
Qed.

Lemma region_kernel {A} (f : kcall C -> M (list C * log C) A) k :
  calls_kernel_only f -> preserves region (fun _ => True) (f k).
Proof.
  intros Hf [buf lg] r s' HP H. destruct (Hf k buf lg) as [r' Hr].
  rewrite Hr in H. injection H as <- <-. split; [exact HP | auto].
Qed.

Lemma region_view_iadd (v : view) i blk :
  view_fits v (length buf0) -> (lo <= v_off v)%nat ->
  (v_off v + v_nb v * v_stride v <= hi)%nat ->
  preserves region (fun _ => True) (view_iadd cadd v i blk).
Proof.
  intros Hfit Hlo Hhi [buf lg] r [buf' lg'] HP H. split; [| auto].
  unfold region in *. cbn [fst] in *.
  assert (Hlen : length buf = length buf0) by apply HP.
  rewrite <- Hlen in Hfit.
  apply (view_iadd_effect cadd) in H
    as [_ [(e & _ & ->) | (off & old & _ & Hoff & _ & _ & Hag)]];
    [exact HP | | exact Hfit].
  apply (agree_outside_trans _ _ buf0 buf buf'); [exact HP |].
  apply view_offset_bounds in Hoff as [H1 H2].
  eapply agree_outside_weaken; [exact Hag | lia | lia].
Qed.

Lemma region_view_assign (v : view) i blk :
  view_fits v (length buf0) -> (lo <= v_off v)%nat ->
  (v_off v + v_nb v * v_stride v <= hi)%nat ->
  preserves region (fun _ => True) (view_assign v i blk).
Proof.
  intros Hfit Hlo Hhi [buf lg] r [buf' lg'] HP H. split; [| auto].
  unfold region in *. cbn [fst] in *.
  assert (Hlen : length buf = length buf0) by apply HP.
  rewrite <- Hlen in Hfit.
  apply view_assign_effect in H
    as [_ [(e & _ & ->) | (off & _ & Hoff & _ & Hag)]];
    [exact HP | | exact Hfit].
  apply (agree_outside_trans _ _ buf0 buf buf'); [exact HP |].
  apply view_offset_bounds in Hoff as [H1 H2].
  eapply agree_outside_weaken; [exact Hag | lia | lia].
Qed.

End Region.

(** ** [refine_locals] leaves the root level alone *)

Section RefineFrame.

Context {C : Type}.
Variable cadd : C -> C -> C.
Variable get_routine :
  FMMLibExpansionWrangler C -> string -> string -> result (routine C).
Variable w : FMMLibExpansionWrangler C.
Variable sz : nat -> Z.

Hypothesis Hboxes :
  (nlevels (tree w) + 1 <= length (level_start_box_nrs (tree w)))%nat.
Hypothesis Hsize : forall lev, (lev < nlevels (tree w))%nat ->
  exists order, level_nterms w !! lev = Some order
                /\ order_to_size w order = Ok (sz lev).
Hypothesis Hsz : forall lev, (lev < nlevels (tree w))%nat -> 0 <= sz lev.
Hypothesis Hnb : forall lev, (lev < nlevels (tree w))%nat ->
  0 <= level_nboxes (tree w) lev.

Variable buf0 : list C.

(** Where the view of a level begins, and the first position of the
    region of level 1. *)
Let first (lev : nat) : nat :=
  slice_bound (length buf0) (nth lev (code_offsets w sz) 0).

Let bound : nat := first 1.

Let below (s : list C * log C) : Prop :=
  agree_outside bound (length buf0) buf0 (fst s).

Lemma refine_level_below locloc lst totp tl :
  calls_kernel_only locloc -> (bound <= first tl)%nat ->
  preserves below (fun _ => True)
    (refine_locals_level cadd w locloc lst totp tl).
Proof.
  intros Hk Htl. unfold refine_locals_level.
  eapply pres_bind; [apply pres_lift; intros; exact I |].
  intros [start stop] _.
  eapply pres_bind; [apply region_get_buf |]. intros le Hle.
  eapply pres_bind; [apply pres_lift; intros; exact I |]. intros sv _.
  eapply pres_bind.
  { apply (pres_lift _ (fun tv => view_fits (snd tv) (length buf0)
                                  /\ (bound <= v_off (snd tv))%nat)).
    intros [ts tv] Htv.
    apply (local_view_location w sz Hboxes Hsize Hsz Hnb) in Htv
      as (Hlev & _ & Hoff & _ & Hfit).
    rewrite Hle in Hfit, Hoff. cbn [snd]. split; [exact Hfit |].
    rewrite Hoff. exact Htl. }
  intros tv [Hfit Hlo].
  apply pres_for_each. intros tgt _. unfold refine_locals_box.
  eapply pres_bind; [apply pres_lift; intros; exact I |]. intros tc _.
  eapply pres_bind; [apply pres_lift; intros; exact I |]. intros src _.
  eapply pres_bind; [apply pres_lift; intros; exact I |]. intros sc _.
  eapply pres_bind; [apply region_get_buf |]. intros le' _.
  eapply pres_bind; [apply pres_lift; intros; exact I |]. intros expn1 _.
  eapply pres_bind; [apply pres_lift; intros; exact I |]. intros nt _.
  eapply pres_bind; [apply region_kernel; exact Hk |]. intros tmp _.
  apply region_view_iadd; [exact Hfit | exact Hlo |].
  unfold view_fits in Hfit. exact Hfit.
Qed.

(** A round that returns has taken the view of its target level. *)
Lemma refine_level_view locloc lst totp tl s s' :
  refine_locals_level cadd w locloc lst totp tl s = (Ok tt, s') ->
  exists ts tv, local_expansions_view w (fst s) tl = Ok (ts, tv).
Proof.
  intros H. unfold refine_locals_level in H.
  bind_ok H bnd s1 H1. apply lift_ok in H1 as [_ ->]. destruct bnd as [start stop].
  bind_ok H bf s1 H1. injection H1 as <- <-.
  bind_ok H sv s1 H1. apply lift_ok in H1 as [_ ->].
  bind_ok H tv s1 H1. apply lift_ok in H1 as [Htv ->].
  destruct tv as [ts tv]. eauto.
Qed.

(** The views of the levels that the rounds have taken follow one another,
    so that every round writes behind the region of level 0. *)
Lemma refine_levels_below locloc lst totp k :
  calls_kernel_only locloc ->
  forall a s r s', below s -> (bound <= first a)%nat ->
    for_each (seq a k) (refine_locals_level cadd w locloc lst totp) s
    = (r, s') ->
    below s'.
Proof.
  intros Hk. induction k as [|k IH]; intros a s r s' Hs Ha H; simpl in H.
  - injection H as <- <-. exact Hs.
  - apply mbind_inv in H as [(u & s1 & Hx & Hrest) | (e & Hx & _)].
    + destruct u.
      destruct (refine_level_below locloc lst totp a Hk Ha s _ s1 Hs Hx)
        as [Hs1 _].
      apply (IH (S a) s1 r s' Hs1); [| exact Hrest].
      destruct (refine_level_view _ _ _ _ _ _ Hx) as (ts & tv & Htv).
      apply (local_view_location w sz Hboxes Hsize Hsz Hnb) in Htv
        as (_ & _ & Hoff & Hend & _).
      assert (Hlen : length (fst s) = length buf0) by apply Hs.
      rewrite Hlen in Hoff, Hend. replace (a + 1)%nat with (S a) in Hend by lia.
      fold (first a) in Hoff. fold (first (S a)) in Hend. lia.
    + exact (proj1 (refine_level_below locloc lst totp a Hk Ha s _ s' Hs Hx)).
Qed.

Lemma refine_locals_below lst totp :
  preserves below (fun _ => True)
    (refine_locals cadd get_routine w lst totp).
Proof.
  unfold refine_locals, refine_target_levels. intros s r s' Hs H.
  split; [| auto].
  apply mbind_inv in H as [(locloc & s1 & Hx & Hrest) | (e & Hx & _)].
  - apply lift_ok in Hx as [Hf ->].
    apply (refine_levels_below locloc lst totp _
             (translation_routine_kernel_only get_routine w _ _ locloc Hf)
             1%nat s r s' Hs (Nat.le_refl _) Hrest).
  - apply lift_inv in Hx as [_ ->]. exact Hs.
Qed.

End RefineFrame.

(** X10.  [refine_locals] writes to the target levels 1 and deeper only:
    on a tree with non-decreasing level starts and non-negative
    coefficient counts it leaves the length of the buffer and every
    coefficient of the view of level 0 as they were, whatever the box
    lists and the kernel, and whether it returns or raises. *)
Theorem refine_locals_root_unchanged {C} (cadd : C -> C -> C)
    (get_routine :
       FMMLibExpansionWrangler C -> string -> string -> result (routine C))
    (w : FMMLibExpansionWrangler C) (sz : nat -> Z) :
  (nlevels (tree w) + 1 <= length (level_start_box_nrs (tree w)))%nat ->
  (forall lev, (lev < nlevels (tree w))%nat ->
     exists order, level_nterms w !! lev = Some order
                   /\ order_to_size w order = Ok (sz lev)) ->
  (forall lev, (lev < nlevels (tree w))%nat -> 0 <= sz lev) ->
  (forall lev, (lev < nlevels (tree w))%nat -> 0 <= level_nboxes (tree w) lev) ->
  forall lst totp buf lg,
    let s' := snd (refine_locals cadd get_routine w lst totp (buf, lg)) in
    length (fst s') = length buf
    /\ forall bs v i,
         local_expansions_view w buf 0 = Ok (bs, v) ->
         view_read v i (fst s') = view_read v i buf.
Proof.
  intros Hboxes Hsize Hsz Hnb lst totp buf lg s'.
  destruct (refine_locals cadd get_routine w lst totp (buf, lg))
    as [r s1] eqn:Hrun. subst s'. cbn [snd].
  destruct (refine_locals_below cadd get_routine w sz Hboxes Hsize Hsz Hnb buf
              lst totp (buf, lg) r s1) as [[Hlen Hag] _];
    [apply agree_outside_refl | exact Hrun |].
  split; [exact Hlen |].
  intros bs v i Hv.
  apply (local_view_location w sz Hboxes Hsize Hsz Hnb) in Hv
    as (Hlt & _ & Hoff & Hend & Hfit).
  destruct (view_offset v i) as [off|e] eqn:Ho.
  2: { unfold view_read. rewrite Ho. reflexivity. }
  apply (view_read_agree v i _ _ buf (fst s1) off (conj Hlen Hag) Ho).
  left. apply view_offset_bounds in Ho as [_ Ho]. rewrite Hend in Ho.
  exact Ho.
Qed.

Lemma refine_locals_root_unchanged_witness :
  let s' := snd (refine_locals Z.add echo_routines demo_wrangler
                   [0; 1; 3; 5; 8]%nat [0; 1; 2; 3; 4; 5; 6; 7]%nat
                   (demo_mpoles, [])) in
  length (fst s') = 24%nat
  /\ view_read {| v_off := 0; v_nb := 1; v_stride := 3 |} 0 (fst s')
     = Ok [1; 2; 3].
Proof.
  destruct demo_wrangler_sizes as (Hb & Hs & Hn & Hf).
  destruct (refine_locals_root_unchanged Z.add echo_routines demo_wrangler
              (fun _ => 3) Hb Hs ltac:(intros; lia) Hn
              [0; 1; 3; 5; 8]%nat [0; 1; 2; 3; 4; 5; 6; 7]%nat demo_mpoles [])
    as [Hlen Hviews].
  split; [exact Hlen |].
  apply (Hviews 0%nat {| v_off := 0; v_nb := 1; v_stride := 3 |} 0).
  reflexivity.
Defined.

(** ** The buffers that [form_multipoles] and [form_locals] return *)

Section FormLocalsLength.

Context {C : Type}.
Variable c0 : C.
Variable cadd : C -> C -> C.
Variable dipstr2 : C -> C -> C -> C.
Variable w : FMMLibExpansionWrangler C.
Variable sz : nat -> Z.

Hypothesis Hboxes :
  (nlevels (tree w) + 1 <= length (level_start_box_nrs (tree w)))%nat.
Hypothesis Hsize : forall lev, (lev < nlevels (tree w))%nat ->
  exists order, level_nterms w !! lev = Some order
                /\ order_to_size w order = Ok (sz lev).
Hypothesis Hsz : forall lev, (lev < nlevels (tree w))%nat -> 0 <= sz lev.
Hypothesis Hnb : forall lev, (lev < nlevels (tree w))%nat ->
  0 <= level_nboxes (tree w) lev.

Variable buf0 : list C.

Let sized (s : list C * log C) : Prop :=
  agree_outside 0 (length buf0) buf0 (fst s).

Lemma form_locals_source_sized formta wts lev tgt contrib src :
  preserves sized (fun _ => True)
    (form_locals_source c0 cadd dipstr2 w formta wts lev tgt contrib src).
Proof.
  unfold form_locals_source.
  eapply pres_bind; [apply pres_lift; intros; exact I |]. intros p _.
  eapply pres_bind; [apply pres_lift; intros; exact I |]. intros tc _.
  destruct (slice_len p =? 0)%nat; [apply pres_ret; exact I |].
  eapply pres_bind; [apply pres_lift; intros; exact I |]. intros kw _.
  eapply pres_bind; [apply pres_lift; intros; exact I |]. intros nt _.
  eapply pres_bind; [apply region_invoke |]. intros o _.
  destruct (negb (k_ier o =? 0)); apply pres_lift; intros; exact I.
Qed.

Lemma form_locals_level_sized formta lst totp sts lsts wts lev :
  preserves sized (fun _ => True)
    (form_locals_level c0 cadd dipstr2 w formta lst totp sts lsts wts lev).
Proof.
  unfold form_locals_level.
  eapply pres_bind; [apply pres_lift; intros; exact I |].
  intros [lev_start lev_stop] _.
  destruct (lev_start =? lev_stop)%nat; [apply pres_ret; exact I |].
  eapply pres_bind; [apply region_get_buf |]. intros le Hle.
  eapply pres_bind.
  { apply (pres_lift _ (fun tv => view_fits (snd tv) (length buf0))).
    intros [ts tv] Htv.
    apply (local_view_location w sz Hboxes Hsize Hsz Hnb) in Htv
      as (_ & _ & _ & _ & Hfit).
    rewrite Hle in Hfit. exact Hfit. }
  intros tv Hfit.
  apply pres_for_each. intros [itgt tgt] _. unfold form_locals_target.
  eapply pres_bind; [apply pres_lift; intros; exact I |].
  intros [start stop] _.
  eapply pres_bind.
  { apply pres_for_fold. intros a x _. apply form_locals_source_sized. }
  intros contrib _.
  apply region_view_assign; [exact Hfit | lia | exact Hfit].
Qed.

Lemma form_locals_loop_length formta lst totp sts lsts wts lg r buf' lg' :
  for_each (seq 0 (nlevels (tree w)))
    (form_locals_level c0 cadd dipstr2 w formta lst totp sts lsts wts)
    (buf0, lg) = (r, (buf', lg')) ->
  length buf' = length buf0.
Proof.
  intros Hrun.
  destruct (pres_for_each sized (seq 0 (nlevels (tree w)))
              (form_locals_level c0 cadd dipstr2 w formta lst totp sts lsts
                 wts)
              (fun lev _ => form_locals_level_sized formta lst totp sts lsts
                              wts lev)
              (buf0, lg) r (buf', lg')) as [[Hlen _] _];
    [apply agree_outside_refl | exact Hrun | exact Hlen].
Qed.

End FormLocalsLength.

(** X11.  The writes of [form_multipoles] and of [form_locals] go through
    the views of the levels and never resize the buffer: on a tree with
    non-decreasing level starts and non-negative coefficient counts, a
    buffer that one of these passes returns has the length of the buffer
    that [multipole_expansion_zeros] or [local_expansion_zeros]
    allocates. *)
Theorem form_passes_allocated_size {C} (c0 : C) (cadd : C -> C -> C)
    (dipstr2 : C -> C -> C -> C)
    (get_routine :
       FMMLibExpansionWrangler C -> string -> string -> result (routine C))
    (w : FMMLibExpansionWrangler C) (sz : nat -> Z) :
  (nlevels (tree w) + 1 <= length (level_start_box_nrs (tree w)))%nat ->
  (forall lev, (lev < nlevels (tree w))%nat ->
     exists order, level_nterms w !! lev = Some order
                   /\ order_to_size w order = Ok (sz lev)) ->
  (forall lev, (lev < nlevels (tree w))%nat -> 0 <= sz lev) ->
  (forall lev, (lev < nlevels (tree w))%nat -> 0 <= level_nboxes (tree w) lev) ->
  (forall lssb sb wts lg mpoles lg',
     form_multipoles c0 dipstr2 get_routine w lssb sb wts lg
     = (Ok mpoles, lg') ->
     exists z, multipole_expansion_zeros c0 w = Ok z
               /\ length mpoles = length (arr_data z))
  /\ (forall lst totp sts lsts wts lg loc lg',
        form_locals c0 cadd dipstr2 get_routine w lst totp sts lsts wts lg
        = (Ok loc, lg') ->
        exists z, local_expansion_zeros c0 w = Ok z
                  /\ length loc = length (arr_data z)).
Proof.
  intros Hboxes Hsize Hsz Hnb. split.
  - intros lssb sb wts lg mpoles lg' Hrun. unfold form_multipoles in Hrun.
    apply mbind_inv in Hrun as [(formmp & s1 & H1 & Hrun) | (e & _ & He)];
      [| discriminate].
    apply lift_inv in H1 as [_ ->].
    apply mbind_inv in Hrun as [(z & s1 & H1 & Hrun) | (e & _ & He)];
      [| discriminate].
    apply lift_inv in H1 as [Hz ->].
    unfold with_local in Hrun.
    destruct (for_each _ _ _) as [[[]|e] [buf' lg'']] eqn:Hloop;
      [| discriminate].
    injection Hrun as <- <-. exists z. split; [congruence |].
    exact (form_multipoles_loop_length dipstr2 w lssb sb (arr_data z) formmp
             wts lg _ _ _ Hloop).
  - intros lst totp sts lsts wts lg loc lg' Hrun. unfold form_locals in Hrun.
    apply mbind_inv in Hrun as [(z & s1 & H1 & Hrun) | (e & _ & He)];
      [| discriminate].
    apply lift_inv in H1 as [Hz ->].
    apply mbind_inv in Hrun as [(formta & s1 & H1 & Hrun) | (e & _ & He)];
      [| discriminate].
    apply lift_inv in H1 as [_ ->].
    unfold with_local in Hrun.
    destruct (for_each _ _ _) as [[[]|e] [buf' lg'']] eqn:Hloop;
      [| discriminate].
    injection Hrun as <- <-. exists z. split; [congruence |].
    exact (form_locals_loop_length c0 cadd dipstr2 w sz Hboxes Hsize Hsz Hnb
             (arr_data z) formta lst totp sts lsts wts lg _ _ _ Hloop).
Qed.

Lemma form_passes_allocated_size_witness :
  exists z,
    multipole_expansion_zeros 0 demo_wrangler = Ok z
    /\ length [0; 0; 0; 0; 0; 0; 0; 0; 0; 0; 0; 0; 1; 1; 1;
               1; 1; 1; 1; 1; 1; 1; 1; 1] = length (arr_data z).
Proof.
  destruct demo_wrangler_sizes as (Hb & Hs & Hn & Hf).
  destruct (form_passes_allocated_size 0 Z.add (fun _ _ _ => 0) echo_routines
              demo_wrangler (fun _ => 3) Hb Hs ltac:(intros; lia) Hn)
    as [Hmp _].
  apply (Hmp [0; 0; 0; 1; 4]%nat [4; 5; 6; 7]%nat [1; 1; 1; 1; 1; 1] []
           _ [call_formmp 2 (3, 4)%nat 4 2 (kw_charge [1]);
              call_formmp 3 (0, 2)%nat 5 2 (kw_charge [1; 1]);
              call_formmp 3 (2, 3)%nat 6 2 (kw_charge [1]);
              call_formmp 3 (4, 6)%nat 7 2 (kw_charge [1; 1])]).
  vm_compute. reflexivity.
Defined.

(** ** The shape of the output of the evaluation passes *)

Lemma rmapM_Forall {A B} (f : A -> result B) (P : A -> Prop) (Q : B -> Prop)
    (l : list A) (l' : list B) :
  (forall x y, P x -> f x = Ok y -> Q y) -> Forall P l ->
  rmapM f l = Ok l' -> Forall Q l' /\ length l' = length l.
Proof.
  intros Hf. revert l'. induction l as [|x l IH]; intros l' HP H; simpl in H.
  - injection H as <-. split; [constructor | reflexivity].
  - apply rbind_ok in H as (y & Hy & H). apply rbind_ok in H as (ys & Hys & H).
    injection H as <-. inversion HP as [|? ? Hx Hl]; subst.
    destruct (IH ys Hl Hys) as [HQ Hlen]. split.
    + constructor; [eapply Hf; eauto | exact HQ].
    + simpl. congruence.
Qed.

Section OutputShape.

Context {C : Type}.
Variable c0 : C.
Variable cadd : C -> C -> C.
Variable dipstr2 : C -> C -> C -> C.
Variable get_routine :
  FMMLibExpansionWrangler C -> string -> string -> result (routine C).
Variable cneg : C -> C.
Variable w : FMMLibExpansionWrangler C.












End OutputShape.



(** ** A wrangler of unsupported dimensionality *)

Section Unsupported.

Context {C : Type}.
Variable c0 : C.
Variable cadd : C -> C -> C.
Variable dipstr2 : C -> C -> C -> C.
Variable get_routine :
  FMMLibExpansionWrangler C -> string -> string -> result (routine C).
Variable cneg : C -> C.
Variable w : FMMLibExpansionWrangler C.

Hypothesis Hdim2 : dim w <> 2%nat.
Hypothesis Hdim3 : dim w <> 3%nat.














End Unsupported.



(** ** One round of [form_multipoles] *)

(** X14.  The round of [form_multipoles] for a box with sources calls the
    routine once, with the level, the source range and the centre of the
    box, the order of the level and the source strengths of the range.
    When the routine reports a nonzero status the round raises
    [RuntimeError] and the buffer is as before; otherwise a round that
    returns has assigned the expansion of the routine to the entry of the
    box in the view of the level and changed nothing else, and a round
    that raises has changed nothing. *)
Theorem form_multipoles_box_effect {C} (dipstr2 : C -> C -> C -> C)
    (w : FMMLibExpansionWrangler C) (formmp : routine C) (wts : list C)
    (lev ls : nat) (v : view) (src : nat) (p : pslice)
    (kw : source_kwargs C) (nt : Z) (buf : list C) (lg : log C) :
  view_fits v (length buf) ->
  _get_source_slice w src = Ok p -> slice_len p <> 0%nat ->
  get_source_kwargs dipstr2 w wts p = Ok kw ->
  (src < nboxes (tree w))%nat ->
  level_nterms w !! lev = Some nt ->
  let call := call_formmp lev p src nt kw in
  let i := Z.of_nat src - Z.of_nat ls in
  exists r buf',
    form_multipoles_box dipstr2 w formmp wts lev ls v src (buf, lg)
    = (r, (buf', lg ++ [call]))
    /\ (k_ier (formmp call) <> 0 -> r = Raise RuntimeError /\ buf' = buf)
    /\ (k_ier (formmp call) = 0 -> r = Ok tt ->
        view_read v i buf' = Ok (k_val (formmp call))
        /\ exists off, view_offset v i = Ok off
                       /\ agree_outside off (off + v_stride v) buf buf')
    /\ (r <> Ok tt -> buf' = buf).
Proof.
  intros Hfit Hp Hlen Hkw Hsrc Hnt call i. subst i.
  unfold form_multipoles_box, mbind, lift. rewrite Hp.
  destruct (Nat.eqb_spec (slice_len p) 0) as [|_]; [contradiction |].
  rewrite Hkw. unfold box_center.
  destruct (Nat.ltb_spec src (nboxes (tree w))) as [_|]; [| lia].
  rewrite (py_index_ok _ _ _ Hnt). unfold invoke. fold call.
  destruct (Z.eqb_spec (k_ier (formmp call)) 0) as [E | E]; cbn [negb].
  - match goal with
    | |- exists r buf', ?lhs = _ /\ _ =>
      destruct lhs as [r [buf' lg']] eqn:Hrun
    end.
    apply view_assign_effect in Hrun
      as [-> [(e & -> & ->) | (off & -> & Hoff & Hread & Hag)]];
      [| | exact Hfit].
    + exists (Raise e), buf. split; [reflexivity |].
      split; [intros; contradiction |].
      split; [intros; discriminate | reflexivity].
    + exists (Ok tt), buf'. split; [reflexivity |].
      split; [intros; contradiction |].
      split; [intros; split; [exact Hread | eauto] |].
      intros Hne. contradiction Hne. reflexivity.
  - exists (Raise RuntimeError), buf. split; [reflexivity |].
    split; [auto |]. split; [intros; contradiction | reflexivity].
Qed.

Lemma form_multipoles_box_effect_witness :
  exists r buf',
    form_multipoles_box (fun _ _ _ => 0) demo_wrangler echo_kernel
      [1; 1; 1; 1; 1; 1] 2 3 {| v_off := 9; v_nb := 2; v_stride := 3 |} 4
      (demo_mpoles, [])
    = (r, (buf', [call_formmp 2 (3, 4)%nat 4 2 (kw_charge [1])])).
Proof.
  destruct (form_multipoles_box_effect (fun _ _ _ => 0) demo_wrangler
              echo_kernel [1; 1; 1; 1; 1; 1] 2 3
              {| v_off := 9; v_nb := 2; v_stride := 3 |} 4 (3, 4)%nat
              (kw_charge [1]) 2 demo_mpoles [])
    as (r & buf' & Hrun & _).
  - unfold view_fits. simpl. lia.
  - reflexivity.
  - unfold slice_len. simpl. lia.
  - reflexivity.
  - simpl. lia.
  - reflexivity.
  - exists r, buf'. exact Hrun.
Defined.

(** ** Views that cannot be taken *)

Section ViewErrors.

Context {C : Type}.
Variable w : FMMLibExpansionWrangler C.
Variable sz : nat -> Z.

Hypothesis Hboxes :
  (nlevels (tree w) + 1 <= length (level_start_box_nrs (tree w)))%nat.
Hypothesis Hsize : forall lev, (lev < nlevels (tree w))%nat ->
  exists order, level_nterms w !! lev = Some order
                /\ order_to_size w order = Ok (sz lev).




Hypothesis Hsz : forall lev, (lev < nlevels (tree w))%nat -> 0 <= sz lev.
Hypothesis Hnb : forall lev, (lev < nlevels (tree w))%nat ->
  0 <= level_nboxes (tree w) lev.
Hypothesis Hoffs : offsets_fit w sz.


End ViewErrors.



(** ** Construction with dipoles *)




(** * Further properties: filtered targets in tree order *)

Lemma np_put_loop (ids : list nat) :
  forall (vals a : list Z),
    length vals = length ids ->
    (forall j, In j ids -> (j < length a)%nat) ->
    exists a',
      rfold (fun a iv =>
               _ <~ py_index a (fst iv) ;; Ok (<[fst iv := snd iv]> a))
        (combine ids vals) a = Ok a'
      /\ length a' = length a
      /\ (forall j, ~ In j ids -> a' !! j = a !! j)
      /\ (List.NoDup ids ->
          forall k j, ids !! k = Some j -> a' !! j = vals !! k).
Proof.
  induction ids as [|i ids IH]; intros vals a Hlen Hin.
  - exists a. simpl. repeat split; auto. intros _ k j H. discriminate.
  - destruct vals as [|v vals]; [discriminate |]. simpl in Hlen.
    pose proof (Hin i (or_introl eq_refl)) as Hi.
    destruct (IH vals (<[i := v]> a)) as (a' & Hrun & Hlen' & Hout & Hget).
    { lia. }
    { intros j Hj. rewrite length_insert. apply Hin. right. exact Hj. }
    exists a'. cbn [combine rfold fst snd].
    rewrite (py_index_ok _ _ _ (lookup_nth_lt a i 0 Hi)). cbn [rbind].
    split; [exact Hrun |]. rewrite length_insert in Hlen'.
    split; [exact Hlen' |]. split.
    + intros j Hj. rewrite Hout by (intros H; apply Hj; right; exact H).
      apply list_lookup_insert_ne. intros ->. apply Hj. left. reflexivity.
    + intros Hnd k j Hk. inversion Hnd as [|? ? Hnotin Hnd']; subst.
      destruct k as [|k]; simpl in Hk |- *.
      * injection Hk as <-. rewrite (Hout i Hnotin).
        apply list_lookup_insert_eq. exact Hi.
      * apply Hget; assumption.
Qed.

(** X17.  [reorder_potentials] of the wrangler for filtered targets in
    tree order, given one potential per filtered target, when the
    filtered targets are distinct targets of the tree and the target
    permutation names targets of the tree: the result has one entry per
    target in user order; the entry of a user target is the potential of
    the filtered target that it is, and zero when it was filtered out. *)
Theorem filtered_reorder_potentials (t : Tree)
    (ft : FilteredTargetsInTreeOrder.FilteredTargets) (pot : list Z) :
  let idx :=
    FilteredTargetsInTreeOrder.unfiltered_from_filtered_target_indices ft in
  length pot = length idx ->
  List.NoDup idx ->
  (forall j, In j idx -> (j < ntargets t)%nat) ->
  (forall j, In j (sorted_target_ids t) -> (j < ntargets t)%nat) ->
  exists y,
    FilteredTargetsInTreeOrder.reorder_potentials t ft pot = Ok y
    /\ length y = length (sorted_target_ids t)
    /\ forall u j, sorted_target_ids t !! u = Some j ->
         (forall k, idx !! k = Some j -> y !! u = pot !! k)
         /\ (~ In j idx -> y !! u = Some 0).
Proof.
  intros idx Hlen Hnd Hidx Hsti.
  unfold FilteredTargetsInTreeOrder.reorder_potentials,
    FilteredTargetsInTreeOrder.np_put.
  fold idx. rewrite Hlen, Nat.eqb_refl. cbn [rbind].
  destruct (np_put_loop idx pot (repeat 0 (ntargets t)) Hlen)
    as (a' & Hrun & Hlen' & Hout & Hget).
  { intros j Hj. rewrite repeat_length. apply Hidx, Hj. }
  rewrite Hrun. cbn [rbind]. rewrite repeat_length in Hlen'.
  destruct (np_take_spec a' (sorted_target_ids t)) as (y & Hy & Hleny & Hgety).
  { intros u j Hu. rewrite Hlen'. apply Hsti.
    apply list_elem_of_In. eapply list_elem_of_lookup_2; eauto. }
  exists y. split; [exact Hy |]. split; [exact Hleny |].
  intros u j Hu. rewrite (Hgety u j Hu). split.
  - intros k Hk. apply (Hget Hnd k j Hk).
  - intros Hnot. rewrite (Hout j Hnot). apply lookup_repeat.
    apply Hsti. apply list_elem_of_In. eapply list_elem_of_lookup_2; eauto.
Qed.

Lemma filtered_reorder_potentials_witness :
  exists y,
    FilteredTargetsInTreeOrder.reorder_potentials demo_tree
      {| FilteredTargetsInTreeOrder.nfiltered_targets := 3;
         FilteredTargetsInTreeOrder.box_target_starts := [];
         FilteredTargetsInTreeOrder.box_target_counts_nonchild := [];
         FilteredTargetsInTreeOrder.unfiltered_from_filtered_target_indices :=
           [0; 2; 5]%nat |}
      [10; 20; 30] = Ok y
    /\ y !! 2%nat = Some 10 /\ y !! 0%nat = Some 0.
Proof.
  destruct (filtered_reorder_potentials demo_tree
              {| FilteredTargetsInTreeOrder.nfiltered_targets := 3;
                 FilteredTargetsInTreeOrder.box_target_starts := [];
                 FilteredTargetsInTreeOrder.box_target_counts_nonchild := [];
                 FilteredTargetsInTreeOrder.unfiltered_from_filtered_target_indices :=
                   [0; 2; 5]%nat |}
              [10; 20; 30] eq_refl)
    as (y & Hrun & _ & Hval).
  - repeat constructor; simpl; intuition lia.
  - intros j Hj. simpl in Hj |- *. intuition lia.
  - intros j Hj. simpl in Hj |- *. intuition lia.
  - exists y. split; [exact Hrun |]. split.
    + rewrite (proj1 (Hval 2%nat 0%nat eq_refl) 0%nat eq_refl). reflexivity.
    + apply (proj2 (Hval 0%nat 1%nat eq_refl)). simpl. intuition lia.
Defined.

(** * Further properties of [finalize_potentials] and of reordering *)

(** X18.  [finalize_potentials] returns in two and in three dimensions
    and raises [NotImplementedError] in every other dimensionality.  What
    it returns has as many entries as the potential it is given; it is an
    array of real numbers for the Laplace kernel in two dimensions, and
    of the kind of the given array otherwise. *)
Theorem finalize_potentials_result {C} (w : FMMLibExpansionWrangler C)
    (potential : potential_array) :
  (dim w = 2%nat \/ dim w = 3%nat ->
   exists q,
     finalize_potentials w potential = Ok q
     /\ potential_length q = potential_length potential
     /\ is_real_array q
        = (is_real_array potential
           || (eqn_eqb (eqn_letter w) letter_l && (dim w =? 2)%nat))%bool)
  /\ (dim w <> 2%nat -> dim w <> 3%nat ->
      finalize_potentials w potential = Raise NotImplementedError).
Proof.
  split.
  - intros Hdim. unfold finalize_potentials, scale_factor.
    destruct (eqn_letter w), (Nat.eqb_spec (dim w) 2) as [E2 | E2];
      cbn [eqn_eqb andb rbind];
      try (destruct (Nat.eqb_spec (dim w) 3) as [E3 | E3]; [| lia]);
      cbn [rbind]; eexists; (split; [reflexivity |]);
      destruct potential as [a | a];
      cbn [np_real np_scale potential_length is_real_array orb];
      rewrite ?length_map; split; reflexivity.
  - intros H2 H3. unfold finalize_potentials, scale_factor.
    destruct (Nat.eqb_spec (dim w) 2); [contradiction |].
    destruct (Nat.eqb_spec (dim w) 3); [contradiction |].
    rewrite !andb_false_r. reflexivity.
Qed.

Lemma finalize_potentials_result_witness :
  (exists q,
     finalize_potentials demo_wrangler (complex_array [(1, 2); (3, 4)]%R)
     = Ok q
     /\ potential_length q = 2%nat /\ is_real_array q = true)
  /\ finalize_potentials line_wrangler (real_array [1%R])
     = Raise NotImplementedError.
Proof.
  split.
  - destruct (finalize_potentials_result demo_wrangler
                (complex_array [(1, 2); (3, 4)]%R)) as [Hok _].
    destruct (Hok (or_introl eq_refl)) as (q & Hq & Hlen & Hreal).
    exists q. auto.
  - destruct (finalize_potentials_result line_wrangler (real_array [1%R]))
      as [_ Herr].
    apply Herr; simpl; lia.
Defined.

Lemma np_take_out_of_range {A} (a : list A) (ids : list nat) :
  (exists i, In i ids /\ (length a <= i)%nat) ->
  np_take a ids = Raise IndexError.
Proof.
  unfold np_take. induction ids as [|i ids IH]; intros (j & Hj & Hge).
  - destruct Hj.
  - simpl. destruct (py_index a i) as [x|e] eqn:Hx; cbn [rbind].
    + destruct Hj as [-> | Hj].
      * apply py_index_inv in Hx. apply lookup_lt_Some in Hx. lia.
      * rewrite IH by eauto. reflexivity.
    + apply py_index_raises in Hx. subst. reflexivity.
Qed.

(** X19.  [reorder_sources] and [reorder_potentials] index by the
    permutations of the tree: when every index names an entry of the
    array, the result has one entry per index and entry [k] of the result
    is the entry of the array that index [k] names; when some index does
    not, they raise [IndexError]. *)
Theorem reorder_indexing {A} (t : Tree) (x : list A) :
  ((forall i, In i (user_source_ids t) -> (i < length x)%nat) ->
   exists y, reorder_sources t x = Ok y
             /\ length y = length (user_source_ids t)
             /\ forall k i, user_source_ids t !! k = Some i ->
                  y !! k = x !! i)
  /\ ((exists i, In i (user_source_ids t) /\ (length x <= i)%nat) ->
      reorder_sources t x = Raise IndexError)
  /\ ((forall i, In i (sorted_target_ids t) -> (i < length x)%nat) ->
      exists y, reorder_potentials t x = Ok y
                /\ length y = length (sorted_target_ids t)
                /\ forall k i, sorted_target_ids t !! k = Some i ->
                     y !! k = x !! i)
  /\ ((exists i, In i (sorted_target_ids t) /\ (length x <= i)%nat) ->
      reorder_potentials t x = Raise IndexError).
Proof.
  unfold reorder_sources, reorder_potentials.
  split; [| split; [| split]].
  - intros H. apply np_take_spec. intros k i Hk. apply H.
    apply list_elem_of_In. eapply list_elem_of_lookup_2; eauto.
  - apply np_take_out_of_range.
  - intros H. apply np_take_spec. intros k i Hk. apply H.
    apply list_elem_of_In. eapply list_elem_of_lookup_2; eauto.
  - apply np_take_out_of_range.
Qed.

Lemma reorder_indexing_witness :
  (exists y, reorder_sources demo_tree [10; 20; 30; 40; 50; 60] = Ok y
             /\ y !! 0%nat = Some 30)
  /\ reorder_potentials demo_tree [10; 20; 30] = Raise IndexError.
Proof.
  destruct (reorder_indexing demo_tree [10; 20; 30; 40; 50; 60])
    as (Hs & _).
  destruct (reorder_indexing demo_tree [10; 20; 30]) as (_ & _ & _ & Hp).
  split.
  - destruct Hs as (y & Hy & _ & Hget).
    + intros i Hi. simpl in Hi |- *. intuition lia.
    + exists y. split; [exact Hy |].
      rewrite (Hget 0%nat 2%nat eq_refl). reflexivity.
  - apply Hp. exists 3%nat. simpl. split; [auto | lia].
Defined.

(** * Further properties: [form_locals] assigns *)

Section FormLocalsAssign.

Context {C : Type}.
Variable c0 : C.
Variable cadd : C -> C -> C.
Variable dipstr2 : C -> C -> C -> C.
Variable w : FMMLibExpansionWrangler C.
Variable formta : routine C.
Variable wts : list C.
Variables lev tgt : nat.

(** A round over a source box reads and writes no expansion. *)
Lemma form_locals_source_pure contrib src lg :
  exists r lg', forall buf : list C,
    form_locals_source c0 cadd dipstr2 w formta wts lev tgt contrib src
      (buf, lg) = (r, (buf, lg')).
Proof.
  unfold form_locals_source, mbind, lift, mret, invoke.
  destruct (_get_source_slice w src) as [p|e]; [| eauto].
  destruct (box_center w tgt) as [tc|e]; [| eauto].
  destruct (slice_len p =? 0)%nat; [eauto |].
  destruct (get_source_kwargs dipstr2 w wts p) as [kw|e]; [| eauto].
  destruct (py_index (level_nterms w) lev) as [nt|e]; [| eauto].
  destruct (negb (k_ier (formta (call_formta lev p tc nt kw)) =? 0)); eauto.
Qed.

Lemma form_locals_sources_pure l contrib lg :
  exists r lg', forall buf : list C,
    for_fold l contrib
      (form_locals_source c0 cadd dipstr2 w formta wts lev tgt) (buf, lg)
    = (r, (buf, lg')).
Proof.
  revert contrib lg. induction l as [|src l IH]; intros contrib lg.
  - exists (Ok contrib), lg. reflexivity.
  - destruct (form_locals_source_pure contrib src lg) as ([a|e] & lg1 & H1).
    + destruct (IH a lg1) as (r & lg' & H2). exists r, lg'. intros buf.
      cbn [for_fold]. unfold mbind. rewrite H1. apply H2.
    + exists (Raise e), lg1. intros buf.
      cbn [for_fold]. unfold mbind. rewrite H1. reflexivity.
Qed.

End FormLocalsAssign.

(** X20.  A round of [form_locals] for a target box assigns to the entry
    of the box, it does not add to it.  Whatever the buffer holds, the
    round makes the same kernel calls, and either it raises the same
    exception and leaves the buffer as it is, or it returns, the entry of
    the box in the view of the level then holds the same block of
    coefficients, and nothing else in the buffer has changed. *)
Theorem form_locals_target_assigns {C} (c0 : C) (cadd : C -> C -> C)
    (dipstr2 : C -> C -> C -> C) (w : FMMLibExpansionWrangler C)
    (formta : routine C) (sts lsts : list nat) (wts : list C)
    (lev lev_start ts : nat) (tv : view) (itgt tgt : nat) (lg : log C) :
  exists lg',
    (exists e, forall buf : list C,
        form_locals_target c0 cadd dipstr2 w formta sts lsts wts lev lev_start
          ts tv (itgt, tgt) (buf, lg) = (Raise e, (buf, lg')))
    \/ (exists blk, forall buf : list C,
          view_fits tv (length buf) ->
          exists buf' off,
            form_locals_target c0 cadd dipstr2 w formta sts lsts wts lev
              lev_start ts tv (itgt, tgt) (buf, lg) = (Ok tt, (buf', lg'))
            /\ view_read tv (Z.of_nat tgt - Z.of_nat ts) buf' = Ok blk
            /\ view_offset tv (Z.of_nat tgt - Z.of_nat ts) = Ok off
            /\ agree_outside off (off + v_stride tv) buf buf').
Proof.
  unfold form_locals_target.
  destruct (unpack2 (py_slice sts (lev_start + itgt) (lev_start + itgt + 2)))
    as [[start stop]|e] eqn:Hb.
  2: { exists lg. left. exists e. intros buf. unfold mbind, lift.
       reflexivity. }
  destruct (form_locals_sources_pure c0 cadd dipstr2 w formta wts lev tgt
              (py_slice lsts start stop) acc_zero lg)
    as ([contrib|e] & lg' & Hfold).
  2: { exists lg'. left. exists e. intros buf. unfold mbind, lift.
       cbn. rewrite Hfold. reflexivity. }
  exists lg'.
  set (blk := match contrib with
              | acc_zero => repeat c0 (v_stride tv)
              | acc_arr b => b
              end).
  destruct (view_offset tv (Z.of_nat tgt - Z.of_nat ts)) as [off|e] eqn:Hoff.
  2: { left. exists e. intros buf. unfold mbind, lift.
       cbn. rewrite Hfold. unfold view_assign. rewrite Hoff.
       reflexivity. }
  destruct (Nat.eqb_spec (length blk) (v_stride tv)) as [Hlen | Hlen].
  - right. exists blk. intros buf Hfit.
    destruct (view_assign tv (Z.of_nat tgt - Z.of_nat ts) blk (buf, lg'))
      as [r [buf' lg'']] eqn:Hrun.
    pose proof Hrun as Hrun'.
    apply view_assign_effect in Hrun
      as [-> [(e & -> & ->) | (off' & -> & Hoff' & Hread & Hag)]];
      [| | exact Hfit].
    + unfold view_assign in Hrun'. rewrite Hoff in Hrun'.
      apply Nat.eqb_eq in Hlen. rewrite Hlen in Hrun'. discriminate.
    + rewrite Hoff in Hoff'. injection Hoff' as <-.
      exists buf', off. split; [| auto].
      unfold mbind, lift. cbn. rewrite Hfold. exact Hrun'.
  - left. exists ValueError. intros buf. unfold mbind, lift.
    cbn. rewrite Hfold. unfold view_assign. rewrite Hoff.
    fold blk. apply Nat.eqb_neq in Hlen. rewrite Hlen. reflexivity.
Qed.

Lemma form_locals_target_assigns_witness :
  exists lg',
    (exists e, forall buf : list Z,
        form_locals_target 0 Z.add (fun _ _ _ => 0) demo_wrangler echo_kernel
          [0; 1]%nat [4]%nat [1; 1; 1; 1; 1; 1] 3 0 5
          {| v_off := 15; v_nb := 3; v_stride := 3 |} (0, 7)%nat (buf, [])
        = (Raise e, (buf, lg')))
    \/ (exists blk, forall buf : list Z,
          view_fits {| v_off := 15; v_nb := 3; v_stride := 3 |} (length buf) ->
          exists buf' off,
            form_locals_target 0 Z.add (fun _ _ _ => 0) demo_wrangler
              echo_kernel [0; 1]%nat [4]%nat [1; 1; 1; 1; 1; 1] 3 0 5
              {| v_off := 15; v_nb := 3; v_stride := 3 |} (0, 7)%nat (buf, [])
            = (Ok tt, (buf', lg'))
            /\ view_read {| v_off := 15; v_nb := 3; v_stride := 3 |}
                 (Z.of_nat 7 - Z.of_nat 5) buf' = Ok blk
            /\ view_offset {| v_off := 15; v_nb := 3; v_stride := 3 |}
                 (Z.of_nat 7 - Z.of_nat 5) = Ok off
            /\ agree_outside off
                 (off + v_stride {| v_off := 15; v_nb := 3; v_stride := 3 |})
                 buf buf').
Proof.
  exact (form_locals_target_assigns 0 Z.add (fun _ _ _ => 0) demo_wrangler
           echo_kernel [0; 1]%nat [4]%nat [1; 1; 1; 1; 1; 1] 3 0 5
           {| v_off := 15; v_nb := 3; v_stride := 3 |} 0 7 []).
Defined.

(** * Further properties: what the unit weights measure *)

Lemma np_sum_ones (l : list Z) :
  (forall x, In x l -> x = 1) -> ConstantOne.np_sum l = Z.of_nat (length l).
Proof.
  induction l as [|x l IH]; intros H; [reflexivity |].
  cbn [ConstantOne.np_sum fold_right length].
  fold (ConstantOne.np_sum l).
  rewrite (H x (or_introl eq_refl)), IH
    by (intros; apply H; right; assumption).
  lia.
Qed.

Lemma unit_slice_sum (n : nat) (p : pslice) :
  (snd p <= n)%nat ->
  ConstantOne.slice_sum (repeat 1 n) p = Z.of_nat (snd p - fst p).
Proof.
  intros H. unfold ConstantOne.slice_sum. rewrite np_sum_ones.
  - rewrite py_slice_length by (rewrite repeat_length; exact H). reflexivity.
  - intros x Hx. apply In_py_slice in Hx. apply repeat_spec in Hx. exact Hx.
Qed.

(** X21.  What the completeness test measures.  On a valid tree with a
    valid traversal and unit weights the potential at a target is the
    number of sources plus, summed over the boxes, the number of sources
    of the box times the excess of its coverage for that target over
    one: it equals the number of sources exactly when the sources covered
    too often make up for the sources not covered. *)
Theorem drive_fmm_unit_weights_excess (t : Tree) (trav : Traversal) :
  tree_ok t = true ->
  traversal_ok t trav = true ->
  exists pot,
    drive_fmm t trav (repeat 1 (nsources t)) = Ok pot
    /\ length pot = ntargets t
    /\ forall i, (i < ntargets t)%nat ->
         nth i pot 0
         = Z.of_nat (nsources t)
           + ConstantOne.np_sum
               (map (fun s =>
                       (Z.of_nat (count_occ Nat.eq_dec (covering t trav i) s)
                        - 1)
                       * Z.of_nat (nth s (box_source_counts_nonchild t) 0%nat))
                  (boxes t)).
Proof.
  intros Htree Htrav.
  destruct (drive_fmm_covering t trav (repeat 1 (nsources t)) Htree Htrav)
    as (pot & Hrun & Hlen & Hval).
  exists pot. split; [exact Hrun |]. split; [exact Hlen |].
  intros i Hi. rewrite (Hval i Hi).
  destruct (tree_ok_lengths t Htree) as (_ & Hcounts & _).
  assert (Hown : forall s, (s < nboxes t)%nat ->
            ConstantOne.slice_sum (repeat 1 (nsources t)) (source_range t s)
            = Z.of_nat (nth s (box_source_counts_nonchild t) 0%nat)).
  { intros s Hs. rewrite unit_slice_sum.
    - unfold source_range. cbn [fst snd]. f_equal. lia.
    - apply (tree_ok_box t Htree s Hs). }
  rewrite (np_sum_count _ (covering t trav i) (nboxes t)).
  2: { intros x Hx.
       unfold ConstantOne.slice_sum, source_range, py_slice. cbn [fst snd].
       rewrite (nth_overflow (box_source_counts_nonchild t)) by lia.
       rewrite Nat.add_0_r, Nat.sub_diag. reflexivity. }
  assert (Htotal : ConstantOne.np_sum
                     (map (fun s => ConstantOne.slice_sum
                                      (repeat 1 (nsources t))
                                      (source_range t s)) (boxes t))
                   = Z.of_nat (nsources t)).
  { rewrite partition_sum.
    - apply np_sum_repeat_one.
    - intros j Hj. rewrite repeat_length in Hj.
      apply (tree_ok_sources t Htree j Hj). }
  rewrite <- Htotal, <- np_sum_map_add. apply np_sum_map_ext.
  intros s Hs. apply in_seq in Hs. rewrite Hown by lia. lia.
Qed.

Lemma drive_fmm_unit_weights_excess_witness :
  exists pot,
    drive_fmm demo_tree demo_traversal (repeat 1 6) = Ok pot
    /\ nth 0 pot 0 = 6.
Proof.
  destruct (drive_fmm_unit_weights_excess demo_tree demo_traversal
              eq_refl eq_refl)
    as (pot & Hrun & _ & Hval).
  exists pot. split; [exact Hrun |].
  rewrite Hval by (simpl; lia). reflexivity.
Defined.
